(** * Brickz: a shallow embedding of [app.py] and its round-simulation properties

    The game keeps its whole state in module-level globals and advances it once
    per frame of the main loop.  The globals become one record [Game]; every
    function of the script becomes a function on that record; one pass of the
    [while running] loop becomes [tick].  Python floats are read as real
    numbers (the specification's data model states positions and velocities as
    reals), Python ints as [Z].  The two calls into [random] made by
    [spawn_new_row] are an input of the model: the list of columns drawn. *)

From Stdlib Require Import ZArith List Bool Reals R_Ifp Lra Lia.
From Stdlib Require String DecimalString Permutation.
From Equations.Prop Require Import Equations Logic.
Import ListNotations.

Local Open Scope Z_scope.

(** ** Configuration *)

Definition SCREEN_WIDTH : Z := 300.
Definition SCREEN_HEIGHT : Z := 500.
Definition FPS : Z := 60.
Definition BRICK_SIZE : Z := 50.
Definition BRICK_COLS : Z := SCREEN_WIDTH / BRICK_SIZE.
Definition MAX_ROWS : Z := SCREEN_HEIGHT / BRICK_SIZE.
Definition BALL_RADIUS : Z := 5.
Definition BALL_SPEED : Z := 12.

(** ** Comparisons on reals as booleans

    The script branches on float comparisons; the model branches on the
    corresponding decisions on [R]. *)

Definition Rleb (a b : R) : bool := if Rle_dec a b then true else false.
Definition Rltb (a b : R) : bool := if Rlt_dec a b then true else false.
Definition Reqb (a b : R) : bool := if Req_dec_T a b then true else false.

(** [int(v)] on a float: truncation toward zero. *)
Definition int_of_float (v : R) : Z :=
  if Rle_dec 0 v then Int_part v else (- Int_part (- v))%Z.

(** [math.copysign(1, v)]. *)
Definition copysign1 (v : R) : R := if Rle_dec 0 v then 1%R else (-1)%R.

(** [math.atan2(y, x)]. *)
Definition atan2 (y x : R) : R :=
  if Rlt_dec 0 y then (PI / 2 - atan (x / y))%R
  else if Rlt_dec y 0 then (- (PI / 2) - atan (x / y))%R
  else if Rle_dec 0 x then 0%R else PI.

(** ** Utility functions *)

Definition clamp (val min_val max_val : R) : R :=
  Rmax min_val (Rmin val max_val).

Definition get_ball_count (level : Z) : Z := 2 * level.

Definition normalize (vx vy : R) : R * R :=
  let mag := sqrt (vx * vx + vy * vy) in
  if Reqb mag 0 then (0%R, 0%R) else ((vx / mag)%R, (vy / mag)%R).


(** ** [pygame.Rect] on integer coordinates *)

Module Rect.

Record t : Type := make {
  left : Z;
  top : Z;
  width : Z;
  height : Z
}.

Definition right (r : t) : Z := left r + width r.
Definition bottom (r : t) : Z := top r + height r.

(** [collidepoint]: a point on the right or on the bottom edge is outside. *)
Definition collidepoint (r : t) (px py : R) : bool :=
  Rleb (IZR (left r)) px && Rltb px (IZR (right r)) &&
  Rleb (IZR (top r)) py && Rltb py (IZR (bottom r)).

End Rect.

(** ** Balls *)

Module Ball.

Record t : Type := make {
  x : R;
  y : R;
  angle : R;
  dx : R;
  dy : R;
  active : bool;
  launched : bool;
  delay : Z;
  collision_cooldown : Z
}.

Definition init (x0 y0 a : R) : t :=
  {| x := x0; y := y0; angle := a;
     dx := (IZR BALL_SPEED * cos a)%R;
     dy := (- IZR BALL_SPEED * sin a)%R;
     active := true; launched := false; delay := 0; collision_cooldown := 0 |}.

Definition set_x (v : R) (b : t) : t :=
  make v (y b) (angle b) (dx b) (dy b) (active b) (launched b) (delay b)
       (collision_cooldown b).
Definition set_y (v : R) (b : t) : t :=
  make (x b) v (angle b) (dx b) (dy b) (active b) (launched b) (delay b)
       (collision_cooldown b).
Definition set_dx (v : R) (b : t) : t :=
  make (x b) (y b) (angle b) v (dy b) (active b) (launched b) (delay b)
       (collision_cooldown b).
Definition set_dy (v : R) (b : t) : t :=
  make (x b) (y b) (angle b) (dx b) v (active b) (launched b) (delay b)
       (collision_cooldown b).
Definition set_active (v : bool) (b : t) : t :=
  make (x b) (y b) (angle b) (dx b) (dy b) v (launched b) (delay b)
       (collision_cooldown b).
Definition set_launched (v : bool) (b : t) : t :=
  make (x b) (y b) (angle b) (dx b) (dy b) (active b) v (delay b)
       (collision_cooldown b).
Definition set_delay (v : Z) (b : t) : t :=
  make (x b) (y b) (angle b) (dx b) (dy b) (active b) (launched b) v
       (collision_cooldown b).
Definition set_collision_cooldown (v : Z) (b : t) : t :=
  make (x b) (y b) (angle b) (dx b) (dy b) (active b) (launched b) (delay b) v.

(** [update]: one frame of motion, the bounces off the side walls and off the
    top wall, and the stop at the bottom. *)
Definition update (b : t) : t :=
  let b := if 0 <? collision_cooldown b
           then set_collision_cooldown (collision_cooldown b - 1) b else b in
  let b := set_x (x b + dx b) b in
  let b := set_y (y b + dy b) b in
  let b :=
    if Rleb (x b - IZR BALL_RADIUS) 0
    then set_dx (- dx b) (set_x (IZR BALL_RADIUS) b)
    else if Rleb (IZR SCREEN_WIDTH) (x b + IZR BALL_RADIUS)
    then set_dx (- dx b) (set_x (IZR (SCREEN_WIDTH - BALL_RADIUS)) b)
    else b in
  let b :=
    if Rleb (y b - IZR BALL_RADIUS) 0
    then set_dy (- dy b) (set_y (IZR BALL_RADIUS) b)
    else b in
  if Rleb (IZR SCREEN_HEIGHT) (y b + IZR BALL_RADIUS)
  then set_y (IZR (SCREEN_HEIGHT - BALL_RADIUS)) (set_active false b)
  else b.

(** The magnitude of the velocity. *)
Definition speed (b : t) : R := sqrt (dx b * dx b + dy b * dy b).

End Ball.

(** ** Bricks *)

Module Brick.

Record t : Type := make {
  col : Z;
  row : Z;
  value : Z;
  max_value : Z
}.

Definition init (c r v : Z) : t :=
  {| col := c; row := r; value := v; max_value := v |}.

Definition set_row (v : Z) (k : t) : t := make (col k) v (value k) (max_value k).
Definition set_value (v : Z) (k : t) : t := make (col k) (row k) v (max_value k).

(** The [rect] property: the cell shrunk by one pixel on every side. *)
Definition rect (k : t) : Rect.t :=
  Rect.make (col k * BRICK_SIZE + 1) (row k * BRICK_SIZE + 1)
            (BRICK_SIZE - 2) (BRICK_SIZE - 2).

End Brick.

(** ** Collision detection and resolution *)

Definition ball_colliding_brick (ball : Ball.t) (brick : Brick.t) : bool :=
  let rect := Brick.rect brick in
  let closest_x :=
    clamp (Ball.x ball) (IZR (Rect.left rect)) (IZR (Rect.right rect)) in
  let closest_y :=
    clamp (Ball.y ball) (IZR (Rect.top rect)) (IZR (Rect.bottom rect)) in
  let dx := (Ball.x ball - closest_x)%R in
  let dy := (Ball.y ball - closest_y)%R in
  Rltb (dx * dx + dy * dy) (IZR (BALL_RADIUS * BALL_RADIUS)).

(** The first half of [resolve_collision]: the ball pushed out of the
    rectangle, together with the surface normal that was chosen. *)
Definition push_out (ball : Ball.t) (brick : Brick.t) : Ball.t * (R * R) :=
  let rect := Brick.rect brick in
  if Rect.collidepoint rect (Ball.x ball) (Ball.y ball) then
    let left_pen := (Ball.x ball - IZR (Rect.left rect))%R in
    let right_pen := (IZR (Rect.right rect) - Ball.x ball)%R in
    let top_pen := (Ball.y ball - IZR (Rect.top rect))%R in
    let bottom_pen := (IZR (Rect.bottom rect) - Ball.y ball)%R in
    let min_pen := Rmin (Rmin (Rmin left_pen right_pen) top_pen) bottom_pen in
    if Reqb min_pen left_pen then
      (Ball.set_x (IZR (Rect.left rect - BALL_RADIUS)) ball, ((-1)%R, 0%R))
    else if Reqb min_pen right_pen then
      (Ball.set_x (IZR (Rect.right rect + BALL_RADIUS)) ball, (1%R, 0%R))
    else if Reqb min_pen top_pen then
      (Ball.set_y (IZR (Rect.top rect - BALL_RADIUS)) ball, (0%R, (-1)%R))
    else
      (Ball.set_y (IZR (Rect.bottom rect + BALL_RADIUS)) ball, (0%R, 1%R))
  else
    let closest_x :=
      clamp (Ball.x ball) (IZR (Rect.left rect)) (IZR (Rect.right rect)) in
    let closest_y :=
      clamp (Ball.y ball) (IZR (Rect.top rect)) (IZR (Rect.bottom rect)) in
    let dx := (Ball.x ball - closest_x)%R in
    let dy := (Ball.y ball - closest_y)%R in
    let d := sqrt (dx * dx + dy * dy) in
    let '(normal, d) :=
      if Reqb d 0 then
        (if Rltb (Rabs (Ball.dy ball)) (Rabs (Ball.dx ball))
         then (copysign1 (Ball.dx ball), 0%R)
         else (0%R, copysign1 (Ball.dy ball)),
         (1 / 1000)%R)
      else (((dx / d)%R, (dy / d)%R), d) in
    if Rltb d (IZR BALL_RADIUS) then
      let correction := (IZR BALL_RADIUS - d)%R in
      let ball := Ball.set_x (Ball.x ball + fst normal * correction) ball in
      let ball := Ball.set_y (Ball.y ball + snd normal * correction) ball in
      (ball, normal)
    else (ball, normal).

(** The second half: reflection about the normal, then the velocity rescaled
    to [BALL_SPEED]. *)
Definition reflect (ball : Ball.t) (normal : R * R) : Ball.t :=
  let dot := (Ball.dx ball * fst normal + Ball.dy ball * snd normal)%R in
  let ball := Ball.set_dx (Ball.dx ball - 2 * dot * fst normal) ball in
  let ball := Ball.set_dy (Ball.dy ball - 2 * dot * snd normal) ball in
  let '(ndx, ndy) := normalize (Ball.dx ball) (Ball.dy ball) in
  let ball := Ball.set_dx (ndx * IZR BALL_SPEED) ball in
  Ball.set_dy (ndy * IZR BALL_SPEED) ball.

Definition resolve_collision (ball : Ball.t) (brick : Brick.t) : Ball.t :=
  let '(ball, normal) := push_out ball brick in reflect ball normal.

(** ** The global game state *)

(** An entry of [dying_bricks]: the dict with the keys ['brick'] and
    ['timer']. *)
Record Dying : Type := mkDying {
  brick : Brick.t;
  timer : Z
}.

(** The module-level globals of the script. *)
Record Game : Type := mkGame {
  score : Z;
  high_score : Z;
  lives : Z;
  highest_level : Z;
  lives_flash_timer : Z;
  dying_bricks : list Dying;
  level : Z;
  base_ball_count : Z;
  balls_to_fire : list Ball.t;
  returned_ball_positions : list R;
  base_x : Z;
  aim_angle : R;
  firing : bool;
  launch_start : Z;
  bricks : list Brick.t;
  frame_count : Z;
  running : bool;
  game_over : bool
}.

Definition set_score (v : Z) (g : Game) : Game :=
  mkGame v (high_score g) (lives g) (highest_level g) (lives_flash_timer g)
    (dying_bricks g) (level g) (base_ball_count g) (balls_to_fire g)
    (returned_ball_positions g) (base_x g) (aim_angle g) (firing g)
    (launch_start g) (bricks g) (frame_count g) (running g) (game_over g).
Definition set_high_score (v : Z) (g : Game) : Game :=
  mkGame (score g) v (lives g) (highest_level g) (lives_flash_timer g)
    (dying_bricks g) (level g) (base_ball_count g) (balls_to_fire g)
    (returned_ball_positions g) (base_x g) (aim_angle g) (firing g)
    (launch_start g) (bricks g) (frame_count g) (running g) (game_over g).
Definition set_lives (v : Z) (g : Game) : Game :=
  mkGame (score g) (high_score g) v (highest_level g) (lives_flash_timer g)
    (dying_bricks g) (level g) (base_ball_count g) (balls_to_fire g)
    (returned_ball_positions g) (base_x g) (aim_angle g) (firing g)
    (launch_start g) (bricks g) (frame_count g) (running g) (game_over g).
Definition set_highest_level (v : Z) (g : Game) : Game :=
  mkGame (score g) (high_score g) (lives g) v (lives_flash_timer g)
    (dying_bricks g) (level g) (base_ball_count g) (balls_to_fire g)
    (returned_ball_positions g) (base_x g) (aim_angle g) (firing g)
    (launch_start g) (bricks g) (frame_count g) (running g) (game_over g).
Definition set_lives_flash_timer (v : Z) (g : Game) : Game :=
  mkGame (score g) (high_score g) (lives g) (highest_level g) v (dying_bricks
    g) (level g) (base_ball_count g) (balls_to_fire g)
    (returned_ball_positions g) (base_x g) (aim_angle g) (firing g)
    (launch_start g) (bricks g) (frame_count g) (running g) (game_over g).
Definition set_dying_bricks (v : list Dying) (g : Game) : Game :=
  mkGame (score g) (high_score g) (lives g) (highest_level g)
    (lives_flash_timer g) v (level g) (base_ball_count g) (balls_to_fire g)
    (returned_ball_positions g) (base_x g) (aim_angle g) (firing g)
    (launch_start g) (bricks g) (frame_count g) (running g) (game_over g).
Definition set_level (v : Z) (g : Game) : Game :=
  mkGame (score g) (high_score g) (lives g) (highest_level g)
    (lives_flash_timer g) (dying_bricks g) v (base_ball_count g)
    (balls_to_fire g) (returned_ball_positions g) (base_x g) (aim_angle g)
    (firing g) (launch_start g) (bricks g) (frame_count g) (running g)
    (game_over g).
Definition set_base_ball_count (v : Z) (g : Game) : Game :=
  mkGame (score g) (high_score g) (lives g) (highest_level g)
    (lives_flash_timer g) (dying_bricks g) (level g) v (balls_to_fire g)
    (returned_ball_positions g) (base_x g) (aim_angle g) (firing g)
    (launch_start g) (bricks g) (frame_count g) (running g) (game_over g).
Definition set_balls_to_fire (v : list Ball.t) (g : Game) : Game :=
  mkGame (score g) (high_score g) (lives g) (highest_level g)
    (lives_flash_timer g) (dying_bricks g) (level g) (base_ball_count g) v
    (returned_ball_positions g) (base_x g) (aim_angle g) (firing g)
    (launch_start g) (bricks g) (frame_count g) (running g) (game_over g).
Definition set_returned_ball_positions (v : list R) (g : Game) : Game :=
  mkGame (score g) (high_score g) (lives g) (highest_level g)
    (lives_flash_timer g) (dying_bricks g) (level g) (base_ball_count g)
    (balls_to_fire g) v (base_x g) (aim_angle g) (firing g) (launch_start g)
    (bricks g) (frame_count g) (running g) (game_over g).
Definition set_base_x (v : Z) (g : Game) : Game :=
  mkGame (score g) (high_score g) (lives g) (highest_level g)
    (lives_flash_timer g) (dying_bricks g) (level g) (base_ball_count g)
    (balls_to_fire g) (returned_ball_positions g) v (aim_angle g) (firing g)
    (launch_start g) (bricks g) (frame_count g) (running g) (game_over g).
Definition set_aim_angle (v : R) (g : Game) : Game :=
  mkGame (score g) (high_score g) (lives g) (highest_level g)
    (lives_flash_timer g) (dying_bricks g) (level g) (base_ball_count g)
    (balls_to_fire g) (returned_ball_positions g) (base_x g) v (firing g)
    (launch_start g) (bricks g) (frame_count g) (running g) (game_over g).
Definition set_firing (v : bool) (g : Game) : Game :=
  mkGame (score g) (high_score g) (lives g) (highest_level g)
    (lives_flash_timer g) (dying_bricks g) (level g) (base_ball_count g)
    (balls_to_fire g) (returned_ball_positions g) (base_x g) (aim_angle g) v
    (launch_start g) (bricks g) (frame_count g) (running g) (game_over g).
Definition set_launch_start (v : Z) (g : Game) : Game :=
  mkGame (score g) (high_score g) (lives g) (highest_level g)
    (lives_flash_timer g) (dying_bricks g) (level g) (base_ball_count g)
    (balls_to_fire g) (returned_ball_positions g) (base_x g) (aim_angle g)
    (firing g) v (bricks g) (frame_count g) (running g) (game_over g).
Definition set_bricks (v : list Brick.t) (g : Game) : Game :=
  mkGame (score g) (high_score g) (lives g) (highest_level g)
    (lives_flash_timer g) (dying_bricks g) (level g) (base_ball_count g)
    (balls_to_fire g) (returned_ball_positions g) (base_x g) (aim_angle g)
    (firing g) (launch_start g) v (frame_count g) (running g) (game_over g).
Definition set_frame_count (v : Z) (g : Game) : Game :=
  mkGame (score g) (high_score g) (lives g) (highest_level g)
    (lives_flash_timer g) (dying_bricks g) (level g) (base_ball_count g)
    (balls_to_fire g) (returned_ball_positions g) (base_x g) (aim_angle g)
    (firing g) (launch_start g) (bricks g) v (running g) (game_over g).
Definition set_running (v : bool) (g : Game) : Game :=
  mkGame (score g) (high_score g) (lives g) (highest_level g)
    (lives_flash_timer g) (dying_bricks g) (level g) (base_ball_count g)
    (balls_to_fire g) (returned_ball_positions g) (base_x g) (aim_angle g)
    (firing g) (launch_start g) (bricks g) (frame_count g) v (game_over g).
Definition set_game_over (v : bool) (g : Game) : Game :=
  mkGame (score g) (high_score g) (lives g) (highest_level g)
    (lives_flash_timer g) (dying_bricks g) (level g) (base_ball_count g)
    (balls_to_fire g) (returned_ball_positions g) (base_x g) (aim_angle g)
    (firing g) (launch_start g) (bricks g) (frame_count g) (running g) v.

(** ** Grid operations *)

(** [spawn_new_row].  [cols] is what [random.sample(range(BRICK_COLS), count)]
    returned for the [count] drawn by [random.randint(1, 4)]. *)
Definition spawn_new_row (cols : list Z) (g : Game) : Game :=
  fold_left
    (fun g col => set_bricks (bricks g ++ [Brick.init col 1 (level g)]) g)
    cols g.

(** What the two library calls guarantee about the columns they return. *)
Definition valid_sample (cols : list Z) : Prop :=
  (1 <= length cols <= 4)%nat /\ NoDup cols /\
  Forall (fun c => 0 <= c < BRICK_COLS) cols.

Definition move_bricks_down (g : Game) : Game :=
  let new_bricks :=
    fold_left
      (fun acc brick => acc ++ [Brick.set_row (Brick.row brick + 1) brick])
      (bricks g) [] in
  set_bricks new_bricks g.

Definition remove_bottom_rows (n : Z) (g : Game) : Game :=
  let threshold := MAX_ROWS - n in
  let dying := filter (fun brick => threshold <=? Brick.row brick) (bricks g) in
  let g :=
    fold_left
      (fun g brick =>
         set_dying_bricks (dying_bricks g ++ [mkDying brick 30]) g)
      dying g in
  set_bricks (filter (fun brick => Brick.row brick <? threshold) (bricks g)) g.

(** The [for] loop of [check_bricks_bottom]: it runs over the list that
    [bricks] named when the loop started and leaves at the first brick in row
    9 or below. *)
Fixpoint check_bricks_loop (todo : list Brick.t) (g : Game) : Game :=
  match todo with
  | [] => g
  | brick :: rest =>
      if 9 <=? Brick.row brick then
        let g := set_lives (lives g - 1) g in
        let g := set_lives_flash_timer 30 g in
        remove_bottom_rows 3 g
      else check_bricks_loop rest g
  end.

Definition check_bricks_bottom (g : Game) : Game :=
  check_bricks_loop (bricks g) g.

(** ** Rounds *)

Definition reset_for_next_turn (cols : list Z) (g : Game) : Game :=
  let g :=
    match returned_ball_positions g with
    | new_base_x :: _ =>
        set_base_x
          (Z.max BALL_RADIUS
             (Z.min (SCREEN_WIDTH - BALL_RADIUS) (int_of_float new_base_x))) g
    | [] => g
    end in
  let g := set_level (level g + 1) g in
  let g :=
    if highest_level g <? level g then set_highest_level (level g) g else g in
  let g := set_base_ball_count (get_ball_count (level g)) g in
  let g := move_bricks_down g in
  let g := spawn_new_row cols g in
  let g := set_balls_to_fire [] g in
  let g := set_returned_ball_positions [] g in
  set_firing false g.

Definition fire_balls (g : Game) : Game :=
  let g := set_firing true g in
  let g := set_balls_to_fire [] g in
  let g := set_launch_start (frame_count g) g in
  let launch_delay := 5 in
  fold_left
    (fun g i =>
       let ball :=
         Ball.init (IZR (base_x g)) (IZR (SCREEN_HEIGHT - BALL_RADIUS))
                   (aim_angle g) in
       let ball :=
         Ball.set_delay (launch_start g + Z.of_nat i * launch_delay) ball in
       let ball := Ball.set_launched false ball in
       set_balls_to_fire (balls_to_fire g ++ [ball]) g)
    (seq 0 (Z.to_nat (base_ball_count g))) g.

Definition new_game (cols : list Z) (g : Game) : Game :=
  let g := set_level 1 g in
  let g := set_base_ball_count (get_ball_count (level g)) g in
  let g := set_balls_to_fire [] g in
  let g := set_returned_ball_positions [] g in
  let g := set_base_x (SCREEN_WIDTH / 2) g in
  let g := set_aim_angle (PI / 4)%R g in
  let g := set_firing false g in
  let g := set_launch_start 0 g in
  let g := set_lives 3 g in
  let g := set_score 0 g in
  let g := set_bricks [] g in
  let g := set_dying_bricks [] g in
  let g := set_highest_level 1 g in
  let g := set_lives_flash_timer 0 g in
  let g := spawn_new_row cols g in
  let g := set_frame_count 0 g in
  set_game_over false g.

(** The state the script builds before it enters the main loop. *)
Definition initial (cols : list Z) : Game :=
  let g :=
    {| score := 0; high_score := 0; lives := 3; highest_level := 1;
       lives_flash_timer := 0; dying_bricks := [];
       level := 1; base_ball_count := get_ball_count 1;
       balls_to_fire := []; returned_ball_positions := [];
       base_x := SCREEN_WIDTH / 2; aim_angle := (PI / 4)%R;
       firing := false; launch_start := 0; bricks := [];
       frame_count := 0; running := true; game_over := false |} in
  spawn_new_row cols g.

(** ** The collision loop of one ball *)

Definition max_iterations : Z := 10.

(** The variables the [while] loop works on. *)
Record Loop : Type := mkLoop {
  l_ball : Ball.t;
  l_game : Game;
  collision_found : bool;
  iterations : Z
}.

(** The [for brick in bricks[:]] scan up to its [break]: the first brick the
    ball overlaps loses a hit point and leaves the list when none is left.
    The result is that brick, after the damage, and the new list. *)
Fixpoint hit_first (ball : Ball.t) (todo : list Brick.t)
  : option (Brick.t * list Brick.t) :=
  match todo with
  | [] => None
  | brick :: rest =>
      if ball_colliding_brick ball brick then
        let brick := Brick.set_value (Brick.value brick - 1) brick in
        Some (brick, if Brick.value brick <=? 0 then rest else brick :: rest)
      else
        match hit_first ball rest with
        | Some (hit, rest') => Some (hit, brick :: rest')
        | None => None
        end
  end.

(** One pass through the body of the [while] loop. *)
Definition loop_body (st : Loop) : Loop :=
  let ball := l_ball st in
  let g := l_game st in
  match hit_first ball (bricks g) with
  | Some (hit, bricks') =>
      let g := set_score (score g + 10) g in
      let g := if high_score g <? score g then set_high_score (score g) g
               else g in
      let ball := Ball.set_collision_cooldown 10 ball in
      let ball := resolve_collision ball hit in
      let g := set_bricks bricks' g in
      mkLoop ball g true (iterations st + 1)
  | None => mkLoop ball g false (iterations st + 1)
  end.

Definition loop_guard (st : Loop) : bool :=
  collision_found st && (iterations st <? max_iterations).

(** What is left of the iteration budget; the loop stops when it is used up. *)
Definition loop_budget (st : Loop) : nat :=
  Z.to_nat (max_iterations - iterations st).
Arguments loop_budget : simpl never.

(** The [while collision_found and iterations < max_iterations] loop. *)
Equations? while_collisions (st : Loop) : Loop by wf (loop_budget st) lt :=
  while_collisions st with inspect (loop_guard st) => {
    | exist _ true _ => while_collisions (loop_body st);
    | exist _ false _ => st }.
Proof.
  unfold loop_budget, loop_guard in *.
  apply andb_prop in e as [_ e]. apply Z.ltb_lt in e.
  assert (iterations (loop_body st) = iterations st + 1) as ->.
  { unfold loop_body.
    destruct (hit_first (l_ball st) (bricks (l_game st))) as [[hit rest]|];
      reflexivity. }
  lia.
Qed.

(** A launched, active ball in the [for ball in balls_to_fire] loop: its
    motion, then its collisions. *)
Definition step_ball (ball : Ball.t) (g : Game) : Ball.t * Game :=
  if Ball.launched ball && Ball.active ball then
    let ball := Ball.update ball in
    let st := while_collisions (mkLoop ball g true 0) in
    (l_ball st, l_game st)
  else (ball, g).

Fixpoint update_balls (todo : list Ball.t) (g : Game) : list Ball.t * Game :=
  match todo with
  | [] => ([], g)
  | ball :: rest =>
      let '(ball, g) := step_ball ball g in
      let '(rest, g) := update_balls rest g in
      (ball :: rest, g)
  end.

(** ** One frame of the main loop *)

Inductive Key : Type := K_LEFT | K_RIGHT | K_SPACE | K_OTHER.

Inductive Event : Type :=
| QUIT
| KEYDOWN (key : Key)
| MOUSEMOTION (mx my : Z)
| OTHER.

(** What one frame takes from outside: the events of [pygame.event.get()]
    and the columns [spawn_new_row] would draw in [new_game] and in
    [reset_for_next_turn] (each of them runs at most once in a frame). *)
Record Frame : Type := mkFrame {
  events : list Event;
  new_game_cols : list Z;
  next_turn_cols : list Z
}.

Definition handle_event (cols : list Z) (g : Game) (event : Event) : Game :=
  let g := match event with QUIT => set_running false g | _ => g end in
  if negb (game_over g) then
    let g :=
      match event with
      | KEYDOWN K_LEFT =>
          let g := set_base_x (base_x g - 10) g in
          if base_x g <? BALL_RADIUS then set_base_x BALL_RADIUS g else g
      | KEYDOWN K_RIGHT =>
          let g := set_base_x (base_x g + 10) g in
          if SCREEN_WIDTH - BALL_RADIUS <? base_x g
          then set_base_x (SCREEN_WIDTH - BALL_RADIUS) g else g
      | KEYDOWN K_SPACE => if negb (firing g) then fire_balls g else g
      | _ => g
      end in
    match event with
    | MOUSEMOTION mx my =>
        let dx := mx - base_x g in
        let dy := (SCREEN_HEIGHT - BALL_RADIUS) - my in
        let dy := if dy <=? 0 then 1 else dy in
        set_aim_angle (atan2 (IZR dy) (IZR dx)) g
    | _ => g
    end
  else
    match event with
    | KEYDOWN K_SPACE => new_game cols g
    | _ => g
    end.

(** The first [for] loop of the [if firing:] block: the balls whose launch
    frame has come are marked launched. *)
Definition launch_due (g : Game) : Game :=
  set_balls_to_fire
    (map (fun ball =>
            if negb (Ball.launched ball) && (Ball.delay ball <=? frame_count g)
            then Ball.set_launched true ball else ball)
         (balls_to_fire g)) g.

(** The second [for] loop: every launched, active ball moves and collides. *)
Definition for_balls (g : Game) : Game :=
  let '(balls, g) := update_balls (balls_to_fire g) g in
  set_balls_to_fire balls g.

(** [all(ball.launched and not ball.active for ball in balls_to_fire)]. *)
Definition all_returned (g : Game) : bool :=
  forallb (fun ball => Ball.launched ball && negb (Ball.active ball))
          (balls_to_fire g).

(** The body of that last [if]: the end of the round. *)
Definition finish_round (cols : list Z) (g : Game) : Game :=
  let g :=
    set_returned_ball_positions
      (returned_ball_positions g ++ map Ball.x (balls_to_fire g)) g in
  let g := reset_for_next_turn cols g in
  set_frame_count 0 g.

(** The [if firing:] block. *)
Definition firing_block (cols : list Z) (g : Game) : Game :=
  let g := launch_due g in
  let g := for_balls g in
  if all_returned g then finish_round cols g else g.

(** The [if not game_over:] block that follows the events. *)
Definition gameplay (cols : list Z) (g : Game) : Game :=
  let g := if firing g then firing_block cols g else g in
  let g := check_bricks_bottom g in
  if lives g <=? 0 then set_game_over true g else g.

(** The fade of the removed bricks: every timer goes down by one and the
    entries that reach zero leave the list. *)
Definition tick_fade (g : Game) : Game :=
  let aged := map (fun item => mkDying (brick item) (timer item - 1))
                  (dying_bricks g) in
  set_dying_bricks (filter (fun item => 0 <? timer item) aged) g.

(** The top of the loop body: the frame counter, then the event loop. *)
Definition events_phase (w : Frame) (g : Game) : Game :=
  let g := set_frame_count (frame_count g + 1) g in
  fold_left (handle_event (new_game_cols w)) (events w) g.

(** One pass through the body of [while running]; drawing is left out. *)
Definition tick (w : Frame) (g : Game) : Game :=
  let g := events_phase w g in
  let g := if negb (game_over g) then gameplay (next_turn_cols w) g else g in
  let g := if 0 <? lives_flash_timer g
           then set_lives_flash_timer (lives_flash_timer g - 1) g else g in
  tick_fade g.

Definition valid_frame (w : Frame) : Prop :=
  valid_sample (new_game_cols w) /\ valid_sample (next_turn_cols w).

(** The states the main loop can be in at the top of [while running]. *)
Inductive reachable : Game -> Prop :=
| reachable_initial cols :
    valid_sample cols -> reachable (initial cols)
| reachable_tick w g :
    reachable g -> running g = true -> valid_frame w -> reachable (tick w g).

(** ** The score display *)

(** [str(num)] on an int: the decimal digits, after a minus sign when the
    number is negative. *)
Definition str (num : Z) : String.string :=
  DecimalString.NilZero.string_of_int (Z.to_int num).

(** The integer a float is shown as under the format [.0f]: the nearest one,
    the even one of the two when the float is half-way between them. *)
Definition round_half_even (v : R) : Z :=
  let lo := Int_part v in
  let rest := (v - IZR lo)%R in
  if Rltb rest (1 / 2) then lo
  else if Rltb (1 / 2) rest then lo + 1
  else if Z.even lo then lo else lo + 1.

Section FormatNumber.

Import String.

(** [a / b] on two ints is a float.  The function that gives it is a
    parameter here; what is known of it, that it is a float nearest to the
    quotient, is a hypothesis of the theorems that need it. *)
Variable true_div : Z -> Z -> R.

(** [f"{num/unit:.0f}"] followed by the letter of the unit.  It is used for
    [num >= unit] only, so the float is positive and the digits are those of
    the integer it rounds to. *)
Definition shorthand (num unit : Z) (letter : string) : string :=
  (str (round_half_even (true_div num unit)) ++ letter)%string.

Definition format_number (num : Z) : string :=
  if num <? 1000 then str num
  else if num <? 1000000 then shorthand num 1000 "k"%string
  else if num <? 1000000000 then shorthand num 1000000 "m"%string
  else if num <? 1000000000000 then shorthand num 1000000000 "b"%string
  else if num <? 1000000000000000
       then shorthand num 1000000000000 "t"%string
  else str num.

End FormatNumber.

(** ** Vocabulary of the properties *)

(** The collision loop writes [score], [high_score] and [bricks] and no other
    global. *)
Definition hit_frame (g g' : Game) : Prop :=
  g' = set_bricks (bricks g')
         (set_high_score (high_score g') (set_score (score g') g)).

(** A collision leaves [active], [launched], [delay] and [angle] of the ball
    alone. *)
Definition ball_frame (b b' : Ball.t) : Prop :=
  Ball.active b' = Ball.active b /\ Ball.launched b' = Ball.launched b /\
  Ball.delay b' = Ball.delay b /\ Ball.angle b' = Ball.angle b.

(** The launch origin [reset_for_next_turn] computes. *)
Definition next_base_x (g : Game) : Z :=
  match returned_ball_positions g with
  | new_base_x :: _ =>
      Z.max BALL_RADIUS
        (Z.min (SCREEN_WIDTH - BALL_RADIUS) (int_of_float new_base_x))
  | [] => base_x g
  end.

(** The ball [fire_balls] builds in its pass number [i]. *)
Definition fired_ball (g : Game) (i : nat) : Ball.t :=
  Ball.set_launched false
    (Ball.set_delay (frame_count g + Z.of_nat i * 5)
       (Ball.init (IZR (base_x g)) (IZR (SCREEN_HEIGHT - BALL_RADIUS))
                  (aim_angle g))).

(** The invariant behind C10. *)
Definition lives_ok (g : Game) : Prop :=
  0 <= lives g /\ (game_over g = false -> 1 <= lives g).

Definition is_space (e : Event) : bool :=
  match e with KEYDOWN K_SPACE => true | _ => false end.

(** Whether [new_game] runs in the frame: the game is over and a SPACE
    comes. *)
Definition new_game_requested (w : Frame) (g : Game) : bool :=
  game_over g && existsb is_space (events w).

(** The invariant behind C7. *)
Definition score_ok (g : Game) : Prop := 0 <= score g <= high_score g.

(** The invariant behind C8. *)
Definition col_ok (k : Brick.t) : Prop := 0 <= Brick.col k < BRICK_COLS.

Definition cols_ok (g : Game) : Prop := Forall col_ok (bricks g).

(** ** Geometry and scenarios, over the reals *)

Local Open Scope R_scope.

(** The four edges of a brick's rectangle as reals. *)
Definition rleft (k : Brick.t) : R := IZR (Rect.left (Brick.rect k)).

Definition rright (k : Brick.t) : R := IZR (Rect.right (Brick.rect k)).

Definition rtop (k : Brick.t) : R := IZR (Rect.top (Brick.rect k)).

Definition rbottom (k : Brick.t) : R := IZR (Rect.bottom (Brick.rect k)).

(** The ball's centre is inside the rectangle, in the sense of
    [collidepoint]. *)
Definition inside (b : Ball.t) (k : Brick.t) : Prop :=
  rleft k <= Ball.x b < rright k /\ rtop k <= Ball.y b < rbottom k.

(** The invariant behind C3. *)
Definition speed_ok (b : Ball.t) : Prop := Ball.speed b = IZR BALL_SPEED.


(** The invariants behind C4: the live bricks are in rows 1 to 8 between
    frames, every ball is at or below the top wall's bounce line, and a
    launched ball that is still active is above the floor. *)
Definition rows_between (lo hi : Z) (g : Game) : Prop :=
  Forall (fun k => (lo <= Brick.row k <= hi)%Z) (bricks g).

Definition ball_y_ok (b : Ball.t) : Prop :=
  IZR BALL_RADIUS <= Ball.y b /\
  (Ball.launched b = true -> Ball.active b = true ->
   Ball.y b + IZR BALL_RADIUS < IZR SCREEN_HEIGHT).

Definition field_ok (g : Game) : Prop :=
  rows_between 1 8 g /\ Forall ball_y_ok (balls_to_fire g).

(** A ball that has just been moved, possibly pushed about by collisions
    with bricks of rows 1 to 8. *)
Definition moved_ball_ok (b : Ball.t) : Prop :=
  5 <= Ball.y b /\ (Ball.active b = true -> Ball.y b + 5 < 500).

(** A frame without events. *)
Definition quiet_frame : Frame := mkFrame [] [0%Z] [0%Z].

(** A finished game, 18 frames after the third breach, which came at the
    end of round 14: level 15 reached, 4120 points, the two swept bricks
    still fading. *)
Definition over_game : Game :=
  {| score := 4120; high_score := 4120; lives := 0; highest_level := 15;
     lives_flash_timer := 12;
     dying_bricks := [mkDying (Brick.init 1 9 7) 12;
                      mkDying (Brick.init 4 7 9) 12];
     level := 15; base_ball_count := 30;
     balls_to_fire := []; returned_ball_positions := [];
     base_x := 210; aim_angle := PI / 3;
     firing := false; launch_start := 40;
     bricks := [Brick.init 3 6 10; Brick.init 1 1 15];
     frame_count := 17; running := true; game_over := true |}.

(** SPACE, with column 2 drawn for the first row of the new game. *)
Definition restart_frame : Frame := mkFrame [KEYDOWN K_SPACE] [2%Z] [0%Z].

(** The first shot of a session whose first row is one brick in column 2:
    the launch origin moved to [x = 130], the aim straight up, and 32 frames
    gone since the shot.  The first ball is one step below the brick, the
    second, launched five frames later, follows it. *)
Definition rising_ball : Ball.t :=
  {| Ball.x := 130; Ball.y := 111; Ball.angle := PI / 2;
     Ball.dx := 0; Ball.dy := - (12);
     Ball.active := true; Ball.launched := true;
     Ball.delay := 100; Ball.collision_cooldown := 0 |}.

Definition follower_ball : Ball.t :=
  {| Ball.x := 130; Ball.y := 171; Ball.angle := PI / 2;
     Ball.dx := 0; Ball.dy := - (12);
     Ball.active := true; Ball.launched := true;
     Ball.delay := 105; Ball.collision_cooldown := 0 |}.

Definition last_hit_game : Game :=
  {| score := 0; high_score := 0; lives := 3; highest_level := 1;
     lives_flash_timer := 0; dying_bricks := [];
     level := 1; base_ball_count := 2;
     balls_to_fire := [rising_ball; follower_ball];
     returned_ball_positions := [];
     base_x := 130; aim_angle := PI / 2;
     firing := true; launch_start := 100;
     bricks := [Brick.init 2 1 1];
     frame_count := 131; running := true; game_over := false |}.




(** A round of level 1 about to end: the first ball rests on the floor at
    [x = 100.5], the second reaches the floor in this frame. *)
Definition resting_ball : Ball.t :=
  {| Ball.x := 201 / 2; Ball.y := 495; Ball.angle := atan2 4 3;
     Ball.dx := 36 / 5; Ball.dy := 48 / 5;
     Ball.active := false; Ball.launched := true;
     Ball.delay := 100; Ball.collision_cooldown := 0 |}.

Definition landing_ball : Ball.t :=
  {| Ball.x := 200; Ball.y := 490; Ball.angle := atan2 4 3;
     Ball.dx := 36 / 5; Ball.dy := 48 / 5;
     Ball.active := true; Ball.launched := true;
     Ball.delay := 105; Ball.collision_cooldown := 0 |}.

Definition landed_ball : Ball.t :=
  {| Ball.x := 200 + 36 / 5; Ball.y := 495; Ball.angle := atan2 4 3;
     Ball.dx := 36 / 5; Ball.dy := 48 / 5;
     Ball.active := false; Ball.launched := true;
     Ball.delay := 105; Ball.collision_cooldown := 0 |}.

Definition landing_game : Game :=
  {| score := 0; high_score := 0; lives := 3; highest_level := 1;
     lives_flash_timer := 0; dying_bricks := [];
     level := 1; base_ball_count := 2;
     balls_to_fire := [resting_ball; landing_ball];
     returned_ball_positions := [];
     base_x := 150; aim_angle := atan2 4 3;
     firing := true; launch_start := 100;
     bricks := [Brick.init 4 1 1];
     frame_count := 260; running := true; game_over := false |}.

(** What a hit does to [score] and [high_score]. *)
Definition add_hit_score (g : Game) : Game :=
  let g := set_score (score g + 10) g in
  if (high_score g <? score g)%Z then set_high_score (score g) g else g.

(** The last frame of round 8: fifteen balls rest on the floor, the
    sixteenth reaches it now.  The oldest brick is in row 8, so the descent
    that ends the round takes it to row 9. *)
Definition breach_game : Game :=
  {| score := 310; high_score := 310; lives := 3; highest_level := 8;
     lives_flash_timer := 0; dying_bricks := [];
     level := 8; base_ball_count := 16;
     balls_to_fire := landing_ball :: repeat resting_ball 15;
     returned_ball_positions := [];
     base_x := 150; aim_angle := atan2 4 3;
     firing := true; launch_start := 100;
     bricks := [Brick.init 0 8 1; Brick.init 2 6 3; Brick.init 3 5 4;
                Brick.init 4 1 8];
     frame_count := 400; running := true; game_over := false |}.

(** The frame that goes with it: no events, column 5 drawn for the new
    row. *)
Definition breach_frame : Frame := mkFrame [] [0%Z] [5%Z].

(** Two bricks side by side in row 1, twenty hit points each, and a ball
    that enters the right-hand margin of the left one from below. *)
Definition left_brick (v : Z) : Brick.t := Brick.make 1 1 v 20.

Definition right_brick (v : Z) : Brick.t := Brick.make 2 1 v 20.

Definition pong_ball : Ball.t :=
  {| Ball.x := 98; Ball.y := 105; Ball.angle := PI / 2;
     Ball.dx := 0; Ball.dy := - (12);
     Ball.active := true; Ball.launched := true;
     Ball.delay := 0; Ball.collision_cooldown := 0 |}.

(** A ball of the same shot that is back on the floor. *)
Definition pong_rest : Ball.t :=
  {| Ball.x := 98; Ball.y := 495; Ball.angle := PI / 2;
     Ball.dx := 0; Ball.dy := 12;
     Ball.active := false; Ball.launched := true;
     Ball.delay := 0; Ball.collision_cooldown := 0 |}.

Definition pong_game : Game :=
  {| score := 0; high_score := 7600; lives := 3; highest_level := 20;
     lives_flash_timer := 0; dying_bricks := [];
     level := 20; base_ball_count := 40;
     balls_to_fire := repeat pong_rest 39 ++ [pong_ball];
     returned_ball_positions := [];
     base_x := 98; aim_angle := PI / 2;
     firing := true; launch_start := 0;
     bricks := [left_brick 20; right_brick 20];
     frame_count := 400; running := true; game_over := false |}.

(** The state of the loop after [i] passes: the ball sits inside the left
    brick after an even number of passes and inside the right one after an
    odd number, and every pass so far was a hit. *)
Definition pong (i : nat) (st : Loop) : Prop :=
  (i = 0%nat \/ collision_found st = true) /\
  iterations st = Z.of_nat i /\
  Ball.y (l_ball st) = 93 /\
  ((Nat.even i = true /\ 96 <= Ball.x (l_ball st) <= 98) \/
   (Nat.even i = false /\ Ball.x (l_ball st) = 104)) /\
  score (l_game st) = (10 * Z.of_nat i)%Z /\
  exists vb va,
    bricks (l_game st) = [left_brick vb; right_brick va] /\
    (20 - Z.of_nat i <= vb)%Z /\ (20 - Z.of_nat i <= va)%Z.

Local Close Scope R_scope.

(** The floats of ordinary magnitude: 53 significant bits. *)
Definition is_float (v : R) : Prop :=
  exists (m : Z) (e : nat),
    Z.abs m < 2 ^ 53 /\ (v = IZR m * 2 ^ e \/ v = IZR m / 2 ^ e)%R.

(** [f] is a float nearest to [v]. *)
Definition nearest_float (v f : R) : Prop :=
  is_float f /\
  forall f', is_float f' -> (Rabs (f - v) <= Rabs (f' - v))%R.

(** The quotient of two ints rounded to the nearest integer, half to even,
    in integer arithmetic. *)
Definition round_div (n d : Z) : Z :=
  let q := n / d in
  let r := n mod d in
  if 2 * r <? d then q
  else if d <? 2 * r then q + 1
  else if Z.even q then q else q + 1.

(** Division of two ints without any rounding, for the cases in which the
    quotient is itself a float. *)
Definition exact_div (a b : Z) : R := (IZR a / IZR b)%R.


(** The grid cell of a brick. *)
Definition cell (k : Brick.t) : Z * Z := (Brick.col k, Brick.row k).


(** What the session values satisfy between frames and at every point of a
    frame. *)
Definition session_ok (g : Game) : Prop :=
  1 <= level g <= highest_level g /\
  base_ball_count g = get_ball_count (level g) /\
  BALL_RADIUS <= base_x g <= SCREEN_WIDTH - BALL_RADIUS /\
  (0 < aim_angle g < PI)%R /\
  game_over g = (lives g <=? 0) /\
  (score g mod 10 = 0 /\ high_score g mod 10 = 0) /\
  (if firing g
   then length (balls_to_fire g) = Z.to_nat (base_ball_count g)
   else balls_to_fire g = []).

(** What a live brick satisfies at level [lvl]: it is in row 1 or below, it
    has hit points left, no more than it started with, and it started with
    the level of the round in which it was spawned, [row - 1] rounds ago. *)
Definition brick_ok (lvl : Z) (k : Brick.t) : Prop :=
  1 <= Brick.row k /\ 1 <= Brick.value k <= Brick.max_value k /\
  Brick.max_value k = lvl - Brick.row k + 1.

Definition grid_ok (g : Game) : Prop :=
  1 <= level g /\
  Forall (brick_ok (level g)) (bricks g) /\ NoDup (map cell (bricks g)).

(** The timers of the fade and of the flash, within a frame and between
    frames. *)
Definition fade_within (hi : Z) (g : Game) : Prop :=
  0 <= lives_flash_timer g <= hi /\
  Forall (fun item => 1 <= timer item <= hi) (dying_bricks g).

(** The hit points left on a list of bricks. *)
Definition total_value (l : list Brick.t) : Z :=
  fold_right (fun k acc => Brick.value k + acc) 0 l.

Definition is_quit (e : Event) : bool :=
  match e with QUIT => true | _ => false end.



(** No shot is under way once the game is over. *)
Definition idle_when_over (g : Game) : Prop :=
  game_over g = true -> firing g = false.

(** The launch schedule of a shot: ball number [i] of the list is due [5 i]
    frames after the shot; [due] says, from the ball's launch frame and the
    frame counter, whether the ball is launched. *)
Definition on_schedule (due : Z -> Z -> bool) (g : Game) : Prop :=
  forall (i : nat) (b : Ball.t),
    nth_error (balls_to_fire g) i = Some b ->
    Ball.delay b = launch_start g + Z.of_nat i * 5 /\
    Ball.launched b = due (Ball.delay b) (frame_count g).

(** * Properties *)

(** ** Decisions on reals *)

Lemma Rleb_true a b : (a <= b)%R -> Rleb a b = true.
Proof. intros H. unfold Rleb. destruct (Rle_dec a b); [reflexivity | contradiction]. Qed.

Lemma Rleb_false a b : (b < a)%R -> Rleb a b = false.
Proof. intros H. unfold Rleb. destruct (Rle_dec a b); [lra | reflexivity]. Qed.

Lemma Rltb_true a b : (a < b)%R -> Rltb a b = true.
Proof. intros H. unfold Rltb. destruct (Rlt_dec a b); [reflexivity | contradiction]. Qed.

Lemma Rltb_false a b : (b <= a)%R -> Rltb a b = false.
Proof. intros H. unfold Rltb. destruct (Rlt_dec a b); [lra | reflexivity]. Qed.

Lemma Reqb_true a b : a = b -> Reqb a b = true.
Proof. intros H. unfold Reqb. destruct (Req_dec_T a b); [reflexivity | contradiction]. Qed.

Lemma Reqb_false a b : a <> b -> Reqb a b = false.
Proof. intros H. unfold Reqb. destruct (Req_dec_T a b); [contradiction | reflexivity]. Qed.

Lemma Rleb_spec a b : Rleb a b = true <-> (a <= b)%R.
Proof. unfold Rleb. destruct (Rle_dec a b); split; intros; try easy. Qed.

Lemma Rltb_spec a b : Rltb a b = true <-> (a < b)%R.
Proof. unfold Rltb. destruct (Rlt_dec a b); split; intros; try easy. Qed.

(** ** Reading a field of an updated state *)

Ltac gsimpl :=
  cbn
    [
     set_score set_high_score set_lives set_highest_level
     set_lives_flash_timer set_dying_bricks set_level set_base_ball_count
     set_balls_to_fire set_returned_ball_positions set_base_x set_aim_angle
     set_firing set_launch_start set_bricks set_frame_count set_running
     set_game_over
     score high_score lives highest_level lives_flash_timer dying_bricks
     level base_ball_count balls_to_fire returned_ball_positions base_x
     aim_angle firing launch_start bricks frame_count running game_over
     l_ball l_game collision_found iterations
    ].

Ltac gsimpl_in H :=
  cbn
    [
     set_score set_high_score set_lives set_highest_level
     set_lives_flash_timer set_dying_bricks set_level set_base_ball_count
     set_balls_to_fire set_returned_ball_positions set_base_x set_aim_angle
     set_firing set_launch_start set_bricks set_frame_count set_running
     set_game_over
     score high_score lives highest_level lives_flash_timer dying_bricks
     level base_ball_count balls_to_fire returned_ball_positions base_x
     aim_angle firing launch_start bricks frame_count running game_over
     l_ball l_game collision_found iterations
    ] in H.

Ltac gnorm :=
  cbv beta iota zeta delta
    [
     set_score set_high_score set_lives set_highest_level
     set_lives_flash_timer set_dying_bricks set_level set_base_ball_count
     set_balls_to_fire set_returned_ball_positions set_base_x set_aim_angle
     set_firing set_launch_start set_bricks set_frame_count set_running
     set_game_over
     score high_score lives highest_level lives_flash_timer dying_bricks
     level base_ball_count balls_to_fire returned_ball_positions base_x
     aim_angle firing launch_start bricks frame_count running game_over
     l_ball l_game collision_found iterations
    ].

(** ** The loops over lists in closed form *)

Lemma fold_append_map {A B : Type} (f : A -> B) (l : list A) (acc : list B) :
  fold_left (fun acc a => acc ++ [f a]) l acc = acc ++ map f l.
Proof.
  revert acc. induction l as [|a l IH]; intros acc; cbn.
  - now rewrite app_nil_r.
  - rewrite IH, <- app_assoc. reflexivity.
Qed.

Lemma spawn_new_row_eq cols g :
  spawn_new_row cols g =
  set_bricks (bricks g ++ map (fun c => Brick.init c 1 (level g)) cols) g.
Proof.
  unfold spawn_new_row. revert g.
  induction cols as [|c cols IH]; intros g; cbn.
  - rewrite app_nil_r. now destruct g.
  - rewrite IH. cbn. rewrite <- app_assoc. reflexivity.
Qed.

Lemma move_bricks_down_eq g :
  move_bricks_down g =
  set_bricks (map (fun k => Brick.set_row (Brick.row k + 1) k) (bricks g)) g.
Proof. unfold move_bricks_down. now rewrite fold_append_map. Qed.

Lemma remove_bottom_rows_eq n g :
  remove_bottom_rows n g =
  set_bricks (filter (fun k => Brick.row k <? MAX_ROWS - n) (bricks g))
    (set_dying_bricks
       (dying_bricks g ++
        map (fun k => mkDying k 30)
            (filter (fun k => MAX_ROWS - n <=? Brick.row k) (bricks g))) g).
Proof.
  unfold remove_bottom_rows.
  generalize (filter (fun k => MAX_ROWS - n <=? Brick.row k) (bricks g)).
  intros dying.
  assert (H : forall g0,
             fold_left
               (fun g1 k => set_dying_bricks (dying_bricks g1 ++ [mkDying k 30]) g1)
               dying g0 =
             set_dying_bricks
               (dying_bricks g0 ++ map (fun k => mkDying k 30) dying) g0).
  { induction dying as [|k dying IH]; intros g0; cbn.
    - rewrite app_nil_r. now destruct g0.
    - rewrite IH. cbn. rewrite <- app_assoc. reflexivity. }
  rewrite H. reflexivity.
Qed.

Lemma check_bricks_loop_none todo g :
  Forall (fun k => Brick.row k < 9) todo -> check_bricks_loop todo g = g.
Proof.
  induction 1 as [|k todo Hk _ IH]; cbn; [reflexivity|].
  destruct (9 <=? Brick.row k) eqn:E; [apply Z.leb_le in E; lia | exact IH].
Qed.

Lemma check_bricks_loop_some todo g :
  Exists (fun k => 9 <= Brick.row k) todo ->
  check_bricks_loop todo g =
  remove_bottom_rows 3 (set_lives_flash_timer 30 (set_lives (lives g - 1) g)).
Proof.
  induction todo as [|k todo IH]; intros H; [now inversion H|].
  cbn. destruct (9 <=? Brick.row k) eqn:E; [reflexivity|].
  apply IH. inversion H; subst; [apply Z.leb_gt in E; lia | assumption].
Qed.

Lemma Forall_or_Exists_row (l : list Brick.t) :
  Forall (fun k => Brick.row k < 9) l \/ Exists (fun k => 9 <= Brick.row k) l.
Proof.
  induction l as [|k l [IH|IH]].
  - left; constructor.
  - destruct (Z_lt_le_dec (Brick.row k) 9).
    + left; now constructor.
    + right; now constructor.
  - right; now constructor 2.
Qed.

(** ** The collision loop *)

Lemma loop_body_iterations st : iterations (loop_body st) = iterations st + 1.
Proof.
  unfold loop_body.
  destruct (hit_first (l_ball st) (bricks (l_game st))) as [[hit rest]|];
    reflexivity.
Qed.

Lemma while_collisions_step st :
  while_collisions st =
  if loop_guard st then while_collisions (loop_body st) else st.
Proof.
  funelim (while_collisions st); rewrite e; reflexivity.
Qed.

(** Whatever every pass through the body preserves holds when the loop is
    left. *)
Lemma while_collisions_inv (P : Loop -> Prop) :
  (forall st, loop_guard st = true -> P st -> P (loop_body st)) ->
  forall st, P st -> P (while_collisions st).
Proof.
  intros step st. funelim (while_collisions st); intros HP.
  - apply H; auto.
  - exact HP.
Qed.

(** *** What the ball loop leaves alone *)

Lemma hit_frame_refl g : hit_frame g g.
Proof. unfold hit_frame. now destruct g. Qed.

Lemma hit_frame_trans g1 g2 g3 :
  hit_frame g1 g2 -> hit_frame g2 g3 -> hit_frame g1 g3.
Proof.
  unfold hit_frame. intros H12 H23. rewrite H23 at 1. rewrite H12 at 1.
  reflexivity.
Qed.

Lemma ball_frame_refl b : ball_frame b b.
Proof. now repeat split. Qed.

Lemma ball_frame_trans b1 b2 b3 :
  ball_frame b1 b2 -> ball_frame b2 b3 -> ball_frame b1 b3.
Proof.
  unfold ball_frame. intros (A1 & A2 & A3 & A4) (B1 & B2 & B3 & B4).
  repeat split; congruence.
Qed.

Ltac case_ifs :=
  repeat match goal with
         | |- context [if ?c then _ else _] => destruct c
         end.

Lemma push_out_frame b k : ball_frame b (fst (push_out b k)).
Proof.
  unfold push_out. cbv zeta.
  destruct (Rect.collidepoint _ _ _).
  - case_ifs; cbn; now repeat split.
  - destruct (Reqb _ 0); cbv beta iota; case_ifs; cbn; now repeat split.
Qed.

Lemma reflect_frame b n : ball_frame b (reflect b n).
Proof.
  unfold reflect. cbv zeta. destruct (normalize _ _) as [ndx ndy].
  now repeat split.
Qed.

Lemma reflect_pos b n :
  Ball.x (reflect b n) = Ball.x b /\ Ball.y (reflect b n) = Ball.y b.
Proof.
  unfold reflect. cbv zeta. destruct (normalize _ _) as [ndx ndy].
  now split.
Qed.

Lemma resolve_collision_frame b k : ball_frame b (resolve_collision b k).
Proof.
  unfold resolve_collision.
  pose proof (push_out_frame b k) as H.
  destruct (push_out b k) as [b' n]. cbn in H.
  eapply ball_frame_trans; [exact H | apply reflect_frame].
Qed.

Lemma loop_body_frame st :
  hit_frame (l_game st) (l_game (loop_body st)) /\
  ball_frame (l_ball st) (l_ball (loop_body st)).
Proof.
  unfold loop_body.
  destruct (hit_first (l_ball st) (bricks (l_game st))) as [[hit rest]|].
  - split.
    + cbn. case_ifs; unfold hit_frame; destruct (l_game st); reflexivity.
    + cbn. eapply ball_frame_trans; [|apply resolve_collision_frame].
      now repeat split.
  - split; [apply hit_frame_refl | apply ball_frame_refl].
Qed.

Lemma while_collisions_frame st :
  hit_frame (l_game st) (l_game (while_collisions st)) /\
  ball_frame (l_ball st) (l_ball (while_collisions st)).
Proof.
  apply (while_collisions_inv
           (fun st' => hit_frame (l_game st) (l_game st') /\
                       ball_frame (l_ball st) (l_ball st'))).
  - intros st' _ [Hg Hb]. destruct (loop_body_frame st') as [Hg' Hb'].
    split; [eapply hit_frame_trans | eapply ball_frame_trans]; eassumption.
  - split; [apply hit_frame_refl | apply ball_frame_refl].
Qed.

Lemma step_ball_frame b g : hit_frame g (snd (step_ball b g)).
Proof.
  unfold step_ball. destruct (Ball.launched b && Ball.active b); cbn.
  - apply (while_collisions_frame (mkLoop (Ball.update b) g true 0)).
  - apply hit_frame_refl.
Qed.

Lemma update_balls_frame todo g : hit_frame g (snd (update_balls todo g)).
Proof.
  revert g. induction todo as [|b todo IH]; intros g; cbn.
  - apply hit_frame_refl.
  - pose proof (step_ball_frame b g) as H1.
    destruct (step_ball b g) as [b' g']. cbn in H1.
    pose proof (IH g') as H2.
    destruct (update_balls todo g') as [rest g'']. cbn in *.
    eapply hit_frame_trans; eassumption.
Qed.

(** [for_balls] writes [balls_to_fire], [score], [high_score] and [bricks]. *)
Lemma for_balls_frame g :
  for_balls g =
  set_balls_to_fire (balls_to_fire (for_balls g))
    (set_bricks (bricks (for_balls g))
       (set_high_score (high_score (for_balls g))
          (set_score (score (for_balls g)) g))).
Proof.
  unfold for_balls.
  pose proof (update_balls_frame (balls_to_fire g) g) as H.
  destruct (update_balls (balls_to_fire g) g) as [balls g'].
  cbn in H. unfold hit_frame in H. cbn. rewrite H at 1. reflexivity.
Qed.

(** ** Rounds in closed form *)

Lemma reset_for_next_turn_eq cols g :
  reset_for_next_turn cols g =
  set_firing false
    (set_returned_ball_positions []
       (set_balls_to_fire []
          (set_bricks
             (map (fun k => Brick.set_row (Brick.row k + 1) k) (bricks g) ++
              map (fun c => Brick.init c 1 (level g + 1)) cols)
             (set_base_ball_count (get_ball_count (level g + 1))
                (set_highest_level (Z.max (highest_level g) (level g + 1))
                   (set_level (level g + 1)
                      (set_base_x (next_base_x g) g))))))).
Proof.
  unfold reset_for_next_turn, next_base_x.
  rewrite spawn_new_row_eq, move_bricks_down_eq.
  destruct g as [sc hs lv hl ft dy le bc ba re bx aa fi ls br fc ru go].
  gnorm. destruct re as [|x0 re]; gnorm.
  - destruct (hl <? le + 1) eqn:E; gnorm;
      [apply Z.ltb_lt in E | apply Z.ltb_ge in E];
      f_equal; lia.
  - destruct (hl <? le + 1) eqn:E; gnorm;
      [apply Z.ltb_lt in E | apply Z.ltb_ge in E];
      f_equal; lia.
Qed.

Lemma fire_balls_eq g :
  fire_balls g =
  set_balls_to_fire
    (map (fired_ball g) (seq 0 (Z.to_nat (base_ball_count g))))
    (set_launch_start (frame_count g) (set_firing true g)).
Proof.
  unfold fire_balls. cbv zeta.
  set (g0 := set_launch_start _ _).
  change (base_ball_count g) with (base_ball_count g0).
  assert (E : forall i, fired_ball g i =
                        Ball.set_launched false
                          (Ball.set_delay (launch_start g0 + Z.of_nat i * 5)
                             (Ball.init (IZR (base_x g0))
                                (IZR (SCREEN_HEIGHT - BALL_RADIUS))
                                (aim_angle g0)))) by reflexivity.
  rewrite (map_ext _ _ E).
  change (set_balls_to_fire ?l (set_launch_start (frame_count g) (set_firing true g)))
    with (set_balls_to_fire l g0).
  replace (map _ (seq 0 (Z.to_nat (base_ball_count g0))))
    with (balls_to_fire g0 ++
          map (fun i => Ball.set_launched false
                          (Ball.set_delay (launch_start g0 + Z.of_nat i * 5)
                             (Ball.init (IZR (base_x g0))
                                (IZR (SCREEN_HEIGHT - BALL_RADIUS))
                                (aim_angle g0))))
              (seq 0 (Z.to_nat (base_ball_count g0)))) by reflexivity.
  generalize (seq 0 (Z.to_nat (base_ball_count g0))). clear E.
  generalize g0. clear g g0.
  intros g l. revert g. induction l as [|i l IH]; intros g; cbn.
  - rewrite app_nil_r. now destruct g.
  - rewrite IH. cbn. rewrite <- app_assoc. reflexivity.
Qed.

Lemma new_game_eq cols g :
  new_game cols g =
  {| score := 0; high_score := high_score g; lives := 3; highest_level := 1;
     lives_flash_timer := 0; dying_bricks := [];
     level := 1; base_ball_count := get_ball_count 1;
     balls_to_fire := []; returned_ball_positions := [];
     base_x := SCREEN_WIDTH / 2; aim_angle := (PI / 4)%R;
     firing := false; launch_start := 0;
     bricks := map (fun c => Brick.init c 1 1) cols;
     frame_count := 0; running := running g; game_over := false |}.
Proof. unfold new_game. rewrite spawn_new_row_eq. reflexivity. Qed.

Lemma initial_eq cols :
  initial cols =
  {| score := 0; high_score := 0; lives := 3; highest_level := 1;
     lives_flash_timer := 0; dying_bricks := [];
     level := 1; base_ball_count := get_ball_count 1;
     balls_to_fire := []; returned_ball_positions := [];
     base_x := SCREEN_WIDTH / 2; aim_angle := (PI / 4)%R;
     firing := false; launch_start := 0;
     bricks := map (fun c => Brick.init c 1 1) cols;
     frame_count := 0; running := true; game_over := false |}.
Proof. unfold initial. rewrite spawn_new_row_eq. reflexivity. Qed.

(** ** What each phase of a frame leaves alone *)

Lemma firing_block_keeps cols g :
  lives (firing_block cols g) = lives g /\
  game_over (firing_block cols g) = game_over g /\
  running (firing_block cols g) = running g /\
  dying_bricks (firing_block cols g) = dying_bricks g /\
  lives_flash_timer (firing_block cols g) = lives_flash_timer g.
Proof.
  unfold firing_block. cbv zeta.
  destruct (all_returned _);
    [unfold finish_round; cbv zeta; rewrite reset_for_next_turn_eq|];
    gsimpl; rewrite for_balls_frame; unfold launch_due; gsimpl;
    repeat split.
Qed.

Lemma check_bricks_bottom_cases g :
  (Forall (fun k => Brick.row k < 9) (bricks g) /\ check_bricks_bottom g = g) \/
  (Exists (fun k => 9 <= Brick.row k) (bricks g) /\
   check_bricks_bottom g =
   remove_bottom_rows 3 (set_lives_flash_timer 30 (set_lives (lives g - 1) g))).
Proof.
  unfold check_bricks_bottom.
  destruct (Forall_or_Exists_row (bricks g)) as [H|H]; [left | right];
    (split; [exact H|]).
  - now apply check_bricks_loop_none.
  - now apply check_bricks_loop_some.
Qed.

Lemma tick_lives w g :
  lives (tick w g) =
  if game_over (events_phase w g) then lives (events_phase w g)
  else lives (check_bricks_bottom
                (if firing (events_phase w g)
                 then firing_block (next_turn_cols w) (events_phase w g)
                 else events_phase w g)).
Proof.
  unfold tick, tick_fade, gameplay. cbv zeta.
  destruct (game_over (events_phase w g)); cbn [negb];
    case_ifs; reflexivity.
Qed.

Lemma tick_bricks w g :
  bricks (tick w g) =
  if game_over (events_phase w g) then bricks (events_phase w g)
  else bricks (check_bricks_bottom
                 (if firing (events_phase w g)
                  then firing_block (next_turn_cols w) (events_phase w g)
                  else events_phase w g)).
Proof.
  unfold tick, tick_fade, gameplay. cbv zeta.
  destruct (game_over (events_phase w g)); cbn [negb];
    case_ifs; reflexivity.
Qed.

(** ** Invariants of the main loop *)

Section TickInvariant.

Variable P : Game -> Prop.
Variable w : Frame.

Hypothesis P_frame_count : forall g v, P g -> P (set_frame_count v g).
Hypothesis P_event :
  forall g e, P g -> P (handle_event (new_game_cols w) g e).
Hypothesis P_firing :
  forall g, P g -> game_over g = false -> firing g = true ->
            P (firing_block (next_turn_cols w) g).
Hypothesis P_breach :
  forall g, P g -> game_over g = false ->
            P (let g := check_bricks_bottom g in
               if lives g <=? 0 then set_game_over true g else g).
Hypothesis P_flash : forall g v, P g -> P (set_lives_flash_timer v g).
Hypothesis P_fade : forall g, P g -> P (tick_fade g).

Lemma events_preserve evs g :
  P g -> P (fold_left (handle_event (new_game_cols w)) evs g).
Proof.
  revert g. induction evs as [|e evs IH]; intros g Hg; cbn; auto.
Qed.

Lemma tick_preserves g : P g -> P (tick w g).
Proof.
  intros Hg. unfold tick. cbv zeta.
  assert (H0 : P (events_phase w g)).
  { unfold events_phase. apply events_preserve, P_frame_count, Hg. }
  set (g0 := events_phase w g) in *.
  apply P_fade.
  assert (H1 : P (if negb (game_over g0)
                  then gameplay (next_turn_cols w) g0 else g0)).
  { destruct (game_over g0) eqn:Hgo; cbn [negb]; [exact H0|].
    unfold gameplay. cbv zeta.
    destruct (firing g0) eqn:Hf.
    - apply P_breach; [now apply P_firing|].
      destruct (firing_block_keeps (next_turn_cols w) g0) as (_ & E & _).
      now rewrite E.
    - now apply P_breach. }
  destruct (0 <? lives_flash_timer _); [apply P_flash|]; exact H1.
Qed.

End TickInvariant.

(** Whatever the initial state has and every frame preserves holds in every
    reachable state. *)
Lemma reachable_ind_inv (P : Game -> Prop) :
  (forall cols, valid_sample cols -> P (initial cols)) ->
  (forall w g, valid_frame w -> P g -> P (tick w g)) ->
  forall g, reachable g -> P g.
Proof.
  intros Hinit Hstep g Hr. induction Hr; auto.
Qed.

(** Whatever every pass through the loop body preserves, and does not depend
    on the ball list, the ball loop preserves. *)
Lemma update_balls_inv (Q : Game -> Prop) :
  (forall st, Q (l_game st) -> Q (l_game (loop_body st))) ->
  forall todo g, Q g -> Q (snd (update_balls todo g)).
Proof.
  intros Hbody. induction todo as [|b todo IH]; intros g Hg; cbn; [exact Hg|].
  assert (H1 : Q (snd (step_ball b g))).
  { unfold step_ball. destruct (Ball.launched b && Ball.active b); cbn; [|exact Hg].
    apply (while_collisions_inv (fun st => Q (l_game st))); auto. }
  destruct (step_ball b g) as [b' g']. cbn in H1.
  specialize (IH g' H1). destruct (update_balls todo g') as [rest g''].
  exact IH.
Qed.

Lemma for_balls_inv (Q : Game -> Prop) :
  (forall st, Q (l_game st) -> Q (l_game (loop_body st))) ->
  (forall l g, Q g -> Q (set_balls_to_fire l g)) ->
  forall g, Q g -> Q (for_balls g).
Proof.
  intros Hbody Hset g Hg. unfold for_balls.
  pose proof (update_balls_inv Q Hbody (balls_to_fire g) g Hg) as H.
  destruct (update_balls (balls_to_fire g) g) as [balls g']. now apply Hset.
Qed.

(** *** The event loop *)

(** An event either starts a new game (SPACE while the game is over) or
    leaves the session values and the grid alone; the only event that writes
    the ball list is the SPACE that fires. *)
Lemma handle_event_cases cols g e :
  (game_over g = true /\ e = KEYDOWN K_SPACE /\
   handle_event cols g e = new_game cols g) \/
  (score (handle_event cols g e) = score g /\
   high_score (handle_event cols g e) = high_score g /\
   lives (handle_event cols g e) = lives g /\
   game_over (handle_event cols g e) = game_over g /\
   bricks (handle_event cols g e) = bricks g /\
   dying_bricks (handle_event cols g e) = dying_bricks g /\
   level (handle_event cols g e) = level g /\
   highest_level (handle_event cols g e) = highest_level g /\
   lives_flash_timer (handle_event cols g e) = lives_flash_timer g /\
   returned_ball_positions (handle_event cols g e) =
     returned_ball_positions g /\
   (balls_to_fire (handle_event cols g e) = balls_to_fire g \/
    balls_to_fire (handle_event cols g e) =
    map (fired_ball g) (seq 0 (Z.to_nat (base_ball_count g))))).
Proof.
  unfold handle_event.
  destruct e as [|[| | |]|mx my|]; cbv zeta; gsimpl;
    destruct (game_over g) eqn:Hgo; cbn [negb]; gsimpl;
    try (left; repeat split; reflexivity);
    right; case_ifs; rewrite ?fire_balls_eq; gsimpl; rewrite ?Hgo;
    repeat split; auto.
Qed.

(** *** C10: lives *)

Lemma lives_ok_tick w g : lives_ok g -> lives_ok (tick w g).
Proof.
  apply tick_preserves; unfold lives_ok.
  - intros g0 v H. exact H.
  - intros g0 e H.
    destruct (handle_event_cases (new_game_cols w) g0 e)
      as [(_ & _ & E)|(_ & _ & El & Eg & _)].
    + rewrite E, new_game_eq. cbn. lia.
    + rewrite El, Eg. exact H.
  - intros g0 H Hgo _.
    destruct (firing_block_keeps (next_turn_cols w) g0) as (El & Eg & _).
    rewrite El, Eg. exact H.
  - intros g0 [H0 H1] Hgo. specialize (H1 Hgo). cbv zeta.
    destruct (check_bricks_bottom_cases g0) as [[_ E]|[_ E]]; rewrite E.
    + destruct (lives g0 <=? 0) eqn:L; [apply Z.leb_le in L; lia|].
      split; [lia | auto].
    + rewrite remove_bottom_rows_eq. gsimpl.
      destruct (lives g0 - 1 <=? 0) eqn:L; gsimpl.
      * split; [lia | discriminate].
      * apply Z.leb_gt in L. split; [lia | intros _; lia].
  - intros g0 v H. exact H.
  - intros g0 H. exact H.
Qed.

Lemma lives_ok_reachable g : reachable g -> lives_ok g.
Proof.
  apply reachable_ind_inv.
  - intros cols _. rewrite initial_eq. unfold lives_ok. cbn. lia.
  - intros w g0 _. apply lives_ok_tick.
Qed.

Lemma events_game_over_frozen cols evs g :
  game_over g = true -> existsb is_space evs = false ->
  let g' := fold_left (handle_event cols) evs g in
  game_over g' = true /\ lives g' = lives g /\ score g' = score g /\
  high_score g' = high_score g /\ bricks g' = bricks g /\
  level g' = level g /\ balls_to_fire g' = balls_to_fire g.
Proof.
  revert g. induction evs as [|e evs IH]; intros g Hgo Hsp; cbn in *.
  - repeat split; auto.
  - apply orb_false_iff in Hsp as [He Hsp].
    assert (E : handle_event cols g e =
                match e with QUIT => set_running false g | _ => g end).
    { unfold handle_event. destruct e as [|[| | |]|mx my|]; cbv zeta; gsimpl;
        rewrite Hgo; cbn [negb]; try reflexivity. discriminate He. }
    assert (Hgo' : game_over (handle_event cols g e) = true)
      by (rewrite E; destruct e; exact Hgo).
    destruct (IH _ Hgo' Hsp) as (A1 & A2 & A3 & A4 & A5 & A6 & A7).
    rewrite A1, A2, A3, A4, A5, A6, A7, E.
    destruct e; repeat split; reflexivity.
Qed.

Lemma events_playing cols evs g :
  game_over g = false ->
  let g' := fold_left (handle_event cols) evs g in
  game_over g' = false /\ lives g' = lives g /\ score g' = score g /\
  high_score g' = high_score g /\ bricks g' = bricks g /\
  level g' = level g.
Proof.
  revert g. induction evs as [|e evs IH]; intros g Hgo; cbn.
  - repeat split; auto.
  - destruct (handle_event_cases cols g e)
      as [(A & _)|(E1 & E2 & E3 & E4 & E5 & _ & E7 & _)]; [congruence|].
    assert (Hgo' : game_over (handle_event cols g e) = false) by congruence.
    destruct (IH _ Hgo') as (A1 & A2 & A3 & A4 & A5 & A6).
    rewrite A2, A3, A4, A5, A6. repeat split; auto.
Qed.

(** C10.  In every state the main loop can reach, [lives] is at least 0, and
    at least 1 while the game is not over; a frame in which no new game
    starts takes at most one life; and once the game is over, such a frame
    changes neither the lives nor the bricks. *)
Theorem lives_never_negative :
  forall g : Game,
    reachable g ->
    0 <= lives g /\
    (game_over g = false -> 1 <= lives g) /\
    (forall w, new_game_requested w g = false ->
               lives g - 1 <= lives (tick w g) <= lives g) /\
    (forall w, game_over g = true -> new_game_requested w g = false ->
               lives (tick w g) = lives g /\ bricks (tick w g) = bricks g /\
               game_over (tick w g) = true).
Proof.
  intros g Hr. destruct (lives_ok_reachable g Hr) as [H0 H1].
  split; [exact H0|]. split; [exact H1|]. split.
  - intros w Hn. rewrite tick_lives. unfold new_game_requested in Hn.
    destruct (game_over g) eqn:Hgo; cbn in Hn.
    + destruct (events_game_over_frozen (new_game_cols w) (events w)
                  (set_frame_count (frame_count g + 1) g) Hgo Hn)
        as (A1 & A2 & _).
      unfold events_phase. cbv zeta in *. rewrite A1, A2. gsimpl. lia.
    + destruct (events_playing (new_game_cols w) (events w)
                  (set_frame_count (frame_count g + 1) g) Hgo)
        as (A1 & A2 & _).
      unfold events_phase. cbv zeta in *. rewrite A1.
      set (g0 := fold_left _ _ _) in *.
      set (g1 := if firing g0 then _ else g0).
      assert (L : lives g1 = lives g).
      { subst g1. destruct (firing g0); [|exact A2].
        destruct (firing_block_keeps (next_turn_cols w) g0) as (E & _).
        rewrite E. exact A2. }
      destruct (check_bricks_bottom_cases g1) as [[_ E]|[_ E]]; rewrite E.
      * lia.
      * rewrite remove_bottom_rows_eq. gsimpl. lia.
  - intros w Hgo Hn. unfold new_game_requested in Hn. rewrite Hgo in Hn.
    cbn in Hn.
    destruct (events_game_over_frozen (new_game_cols w) (events w)
                (set_frame_count (frame_count g + 1) g) Hgo Hn)
      as (A1 & A2 & _ & _ & A5 & _).
    cbv zeta in *.
    rewrite tick_lives, tick_bricks. unfold events_phase. cbv zeta.
    rewrite A1, A2, A5. gsimpl. repeat split.
    unfold tick, events_phase. cbv zeta. rewrite A1. cbn [negb].
    unfold tick_fade. case_ifs; gsimpl; exact A1.
Qed.

Lemma valid_sample_one c : 0 <= c < BRICK_COLS -> valid_sample [c].
Proof.
  intros H. repeat split; cbn; try lia.
  - constructor; [intros []|constructor].
  - constructor; [exact H | constructor].
Qed.

Lemma lives_never_negative_witness :
  0 <= lives (initial [2]) /\
  lives (initial [2]) - 1 <= lives (tick (mkFrame [KEYDOWN K_SPACE] [0] [1])
                                         (initial [2])).
Proof.
  assert (V : valid_sample [2]) by (apply valid_sample_one; cbv; split; congruence).
  destruct (lives_never_negative (initial [2]) (reachable_initial [2] V))
    as (A & _ & B & _).
  split; [exact A|].
  apply (B (mkFrame [KEYDOWN K_SPACE] [0] [1])). reflexivity.
Defined.

(** *** C7: score and high score *)

Lemma loop_body_score st :
  score (l_game st) <= score (l_game (loop_body st)) /\
  (score_ok (l_game st) -> score_ok (l_game (loop_body st))).
Proof.
  unfold loop_body, score_ok.
  destruct (hit_first (l_ball st) (bricks (l_game st))) as [[hit rest]|];
    cbv zeta; gsimpl.
  - destruct (high_score (l_game st) <? score (l_game st) + 10) eqn:E;
      gsimpl; [apply Z.ltb_lt in E | apply Z.ltb_ge in E]; split; lia.
  - split; [lia | auto].
Qed.

Lemma firing_block_score cols g :
  score g <= score (firing_block cols g) /\
  (score_ok g -> score_ok (firing_block cols g)).
Proof.
  assert (M : score g <= score (for_balls (launch_due g))).
  { apply (for_balls_inv (fun g' => score g <= score g')).
    - intros st H. pose proof (loop_body_score st) as [L _]. lia.
    - intros l g' H. exact H.
    - unfold launch_due. gsimpl. lia. }
  assert (K : score_ok g -> score_ok (for_balls (launch_due g))).
  { intros H. apply (for_balls_inv score_ok).
    - intros st. apply loop_body_score.
    - intros l g' H'. exact H'.
    - exact H. }
  unfold firing_block. cbv zeta.
  destruct (all_returned _); [|split; assumption].
  unfold finish_round, score_ok in *. cbv zeta.
  rewrite reset_for_next_turn_eq. gsimpl. split; assumption.
Qed.

Lemma check_bricks_bottom_score g :
  score (check_bricks_bottom g) = score g /\
  high_score (check_bricks_bottom g) = high_score g.
Proof.
  destruct (check_bricks_bottom_cases g) as [[_ E]|[_ E]]; rewrite E.
  - split; reflexivity.
  - rewrite remove_bottom_rows_eq. split; reflexivity.
Qed.

Lemma score_ok_tick w g : score_ok g -> score_ok (tick w g).
Proof.
  apply tick_preserves; unfold score_ok.
  - intros g0 v H. exact H.
  - intros g0 e H.
    destruct (handle_event_cases (new_game_cols w) g0 e)
      as [(_ & _ & E)|(Es & Eh & _)].
    + rewrite E, new_game_eq. cbn. lia.
    + rewrite Es, Eh. exact H.
  - intros g0 H _ _. now apply firing_block_score.
  - intros g0 H _. cbv zeta.
    destruct (check_bricks_bottom_score g0) as [Es Eh].
    case_ifs; gsimpl; rewrite Es, Eh; exact H.
  - intros g0 v H. exact H.
  - intros g0 H. exact H.
Qed.

Lemma tick_score w g :
  score (tick w g) =
  if game_over (events_phase w g) then score (events_phase w g)
  else score (if firing (events_phase w g)
              then firing_block (next_turn_cols w) (events_phase w g)
              else events_phase w g).
Proof.
  unfold tick, tick_fade, gameplay. cbv zeta.
  destruct (game_over (events_phase w g)); cbn [negb].
  - case_ifs; reflexivity.
  - set (g1 := if firing _ then _ else _).
    destruct (check_bricks_bottom_score g1) as [Es _].
    case_ifs; gsimpl; exact Es.
Qed.

(** C7.  In every reachable state [score] is at most [high_score]; a frame
    in which no new game starts never lowers [score]; [new_game] sets
    [score] to 0 and leaves [high_score] as it was; and inside a frame every
    pass of the collision loop, the only place that adds to [score], keeps
    [score] at most [high_score] and does not lower it. *)
Theorem score_monotone_below_high_score :
  (forall g, reachable g -> 0 <= score g <= high_score g) /\
  (forall w g, new_game_requested w g = false ->
               score g <= score (tick w g)) /\
  (forall cols g, score (new_game cols g) = 0 /\
                  high_score (new_game cols g) = high_score g) /\
  (forall st, 0 <= score (l_game st) <= high_score (l_game st) ->
              score (l_game st) <= score (l_game (loop_body st)) /\
              0 <= score (l_game (loop_body st))
                <= high_score (l_game (loop_body st))).
Proof.
  split; [|split; [|split]]; cycle 3.
  { intros st H. destruct (loop_body_score st) as [A B].
    split; [exact A | exact (B H)]. }
  - apply (reachable_ind_inv score_ok).
    + intros cols _. rewrite initial_eq. unfold score_ok. cbn. lia.
    + intros w g _. apply score_ok_tick.
  - intros w g Hn. rewrite tick_score. unfold new_game_requested in Hn.
    unfold events_phase. cbv zeta.
    destruct (game_over g) eqn:Hgo; cbn in Hn.
    + destruct (events_game_over_frozen (new_game_cols w) (events w)
                  (set_frame_count (frame_count g + 1) g) Hgo Hn)
        as (A1 & _ & A3 & _).
      cbv zeta in *. rewrite A1, A3. gsimpl. lia.
    + destruct (events_playing (new_game_cols w) (events w)
                  (set_frame_count (frame_count g + 1) g) Hgo)
        as (A1 & _ & A3 & _).
      cbv zeta in *. rewrite A1.
      set (g0 := fold_left _ _ _) in *. gsimpl_in A3.
      destruct (firing g0); [|lia].
      pose proof (firing_block_score (next_turn_cols w) g0) as [L _]. lia.
  - intros cols g. rewrite new_game_eq. split; reflexivity.
Qed.

Lemma score_monotone_below_high_score_witness :
  score (initial [4]) <= high_score (initial [4]) /\
  score (initial [4]) <=
  score (tick (mkFrame [KEYDOWN K_SPACE] [0] [1]) (initial [4])).
Proof.
  destruct score_monotone_below_high_score as (A & B & _ & _).
  split.
  - apply A. apply reachable_initial, valid_sample_one.
    cbv; split; congruence.
  - apply B. reflexivity.
Defined.

(** *** The scan for the first overlapped brick *)

(** A hit splits the list at the first brick the ball overlaps; that brick
    comes back one hit point poorer, or not at all when none is left. *)
Lemma hit_first_some ball todo hit todo' :
  hit_first ball todo = Some (hit, todo') ->
  exists pre k post,
    todo = pre ++ k :: post /\
    Forall (fun k' => ball_colliding_brick ball k' = false) pre /\
    ball_colliding_brick ball k = true /\
    hit = Brick.set_value (Brick.value k - 1) k /\
    todo' = pre ++ (if Brick.value k - 1 <=? 0 then [] else [hit]) ++ post.
Proof.
  revert hit todo'. induction todo as [|k todo IH]; intros hit todo' H;
    cbn in H; [discriminate|].
  destruct (ball_colliding_brick ball k) eqn:C.
  - injection H as <- <-. exists [], k, todo. cbn.
    repeat split; auto. now destruct (Brick.value k - 1 <=? 0).
  - destruct (hit_first ball todo) as [[h r]|] eqn:E; [|discriminate].
    injection H as <- <-.
    destruct (IH h r eq_refl) as (pre & k0 & post & -> & Hpre & Hk & Hh & ->).
    exists (k :: pre), k0, post. cbn. repeat split; auto.
Qed.

Lemma hit_first_none ball todo :
  hit_first ball todo = None <->
  Forall (fun k => ball_colliding_brick ball k = false) todo.
Proof.
  induction todo as [|k todo IH]; cbn.
  - split; [constructor | reflexivity].
  - destruct (ball_colliding_brick ball k) eqn:C.
    + split; [discriminate | intros H; inversion H; congruence].
    + destruct (hit_first ball todo) as [[h r]|].
      * split; [discriminate|]. intros H. inversion H; subst.
        apply IH in H3. discriminate.
      * split; [|reflexivity]. intros _. constructor; [exact C | now apply IH].
Qed.

(** *** C8: spawned rows and the columns of the live bricks *)

Lemma spawned_cols_ok cols lvl :
  Forall (fun c => 0 <= c < BRICK_COLS) cols ->
  Forall col_ok (map (fun c => Brick.init c 1 lvl) cols).
Proof.
  intros H. apply Forall_map. eapply Forall_impl; [|exact H].
  intros c Hc. exact Hc.
Qed.

Lemma loop_body_cols_ok st :
  cols_ok (l_game st) -> cols_ok (l_game (loop_body st)).
Proof.
  unfold loop_body, cols_ok. intros H.
  destruct (hit_first (l_ball st) (bricks (l_game st))) as [[hit rest]|] eqn:E;
    cbv zeta; gsimpl; [|exact H].
  apply hit_first_some in E as (pre & k & post & E & _ & _ & -> & ->).
  rewrite E in H. apply Forall_app in H as [Hpre Hk].
  inversion Hk as [|? ? Hk0 Hpost]; subst.
  apply Forall_app; split; [exact Hpre|].
  apply Forall_app; split; [|exact Hpost].
  destruct (Brick.value k - 1 <=? 0); constructor; [exact Hk0 | constructor].
Qed.

Lemma cols_ok_tick w g : valid_frame w -> cols_ok g -> cols_ok (tick w g).
Proof.
  intros [(_ & _ & V1) (_ & _ & V2)].
  apply tick_preserves; unfold cols_ok.
  - intros g0 v H. exact H.
  - intros g0 e H.
    destruct (handle_event_cases (new_game_cols w) g0 e)
      as [(_ & _ & E)|(_ & _ & _ & _ & Eb & _)].
    + rewrite E, new_game_eq. gsimpl. now apply spawned_cols_ok.
    + rewrite Eb. exact H.
  - intros g0 H _ _. unfold firing_block. cbv zeta.
    assert (K : cols_ok (for_balls (launch_due g0))).
    { apply (for_balls_inv cols_ok).
      - apply loop_body_cols_ok.
      - intros l g' H'. exact H'.
      - exact H. }
    destruct (all_returned _); [|exact K].
    unfold finish_round. cbv zeta. rewrite reset_for_next_turn_eq. gsimpl.
    apply Forall_app; split; [|now apply spawned_cols_ok].
    apply Forall_map. eapply Forall_impl; [|exact K]. intros k Hk. exact Hk.
  - intros g0 H _. cbv zeta.
    assert (K : Forall col_ok (bricks (check_bricks_bottom g0))).
    { destruct (check_bricks_bottom_cases g0) as [[_ E]|[_ E]]; rewrite E;
        [exact H|].
      rewrite remove_bottom_rows_eq. gsimpl.
      apply Forall_forall. intros k Hk. apply filter_In in Hk as [Hk _].
      rewrite Forall_forall in H. now apply H. }
    case_ifs; exact K.
  - intros g0 v H. exact H.
  - intros g0 H. exact H.
Qed.

(** C8.  Given the columns the two [random] calls return (between 1 and 4 of
    them, pairwise distinct, each a column of the grid), [spawn_new_row]
    appends one brick per column, in that order, and changes nothing else
    among the live bricks: so between 1 and 4 new bricks, at pairwise
    distinct columns, each in row 1 with [value] and [max_value] equal to the
    current level.  Hence in every reachable state every live brick has
    [0 <= col < BRICK_COLS]. *)
Theorem spawn_new_row_bricks :
  (forall cols g,
      valid_sample cols ->
      exists new,
        bricks (spawn_new_row cols g) = bricks g ++ new /\
        map Brick.col new = cols /\
        (1 <= length new <= 4)%nat /\
        NoDup (map Brick.col new) /\
        Forall (fun k => Brick.row k = 1 /\ Brick.value k = level g /\
                         Brick.max_value k = level g /\
                         0 <= Brick.col k < BRICK_COLS) new) /\
  (forall g, reachable g ->
             Forall (fun k => 0 <= Brick.col k < BRICK_COLS) (bricks g)).
Proof.
  split.
  - intros cols g (Hlen & Hnd & Hin).
    exists (map (fun c => Brick.init c 1 (level g)) cols).
    rewrite spawn_new_row_eq. gsimpl.
    assert (E : map Brick.col (map (fun c => Brick.init c 1 (level g)) cols) = cols).
    { rewrite map_map. cbn. apply map_id. }
    rewrite E, length_map. repeat split; auto; try lia.
    apply Forall_map. eapply Forall_impl; [|exact Hin].
    intros c Hc. cbv beta in Hc. unfold Brick.init.
    cbn [Brick.row Brick.col Brick.value Brick.max_value].
    repeat split; lia.
  - apply (reachable_ind_inv cols_ok).
    + intros cols (_ & _ & V). rewrite initial_eq. unfold cols_ok. gsimpl.
      now apply spawned_cols_ok.
    + intros w g. apply cols_ok_tick.
Qed.

Lemma spawn_new_row_bricks_witness :
  (exists new,
      bricks (spawn_new_row [3; 0; 5] (initial [1])) =
      bricks (initial [1]) ++ new /\ map Brick.col new = [3; 0; 5]) /\
  Forall (fun k => 0 <= Brick.col k < BRICK_COLS) (bricks (initial [1])).
Proof.
  destruct spawn_new_row_bricks as [A B].
  split.
  - assert (V : valid_sample [3; 0; 5]).
    { repeat split; cbn; try lia.
      - repeat constructor; cbn; intuition congruence.
      - repeat constructor; cbv; congruence. }
    destruct (A [3; 0; 5] (initial [1]) V) as (new & E1 & E2 & _).
    exists new. split; assumption.
  - apply B, reachable_initial, valid_sample_one. cbv; split; congruence.
Defined.

(** *** C9: the cap on the collision loop *)

Lemma iter_loop_body_iterations n st :
  iterations (Nat.iter n loop_body st) = iterations st + Z.of_nat n.
Proof.
  induction n as [|n IH].
  - cbn. lia.
  - rewrite Nat.iter_succ, loop_body_iterations, IH. lia.
Qed.

(** The loop is a bounded number of passes through its body: it stops when
    the guard fails, and the guard fails at the latest when [iterations]
    reaches [max_iterations]. *)
Lemma while_collisions_iter st :
  0 <= iterations st <= max_iterations ->
  exists n : nat,
    iterations st + Z.of_nat n <= max_iterations /\
    while_collisions st = Nat.iter n loop_body st /\
    loop_guard (Nat.iter n loop_body st) = false.
Proof.
  funelim (while_collisions st); intros Hit.
  - assert (Hlt : iterations st < max_iterations).
    { pose proof e as e'. unfold loop_guard in e'.
      apply andb_prop in e' as [_ e']. now apply Z.ltb_lt in e'. }
    destruct H as (n & Hn & Hw & Hg).
    { rewrite loop_body_iterations. lia. }
    rewrite loop_body_iterations in Hn.
    exists (S n). rewrite Nat.iter_succ_r. repeat split; auto. lia.
  - exists 0%nat. cbn. repeat split; auto. lia.
Qed.

(** C9.  For a launched, active ball, a frame moves the ball and then runs
    the body of the collision loop [n] times for some [n <= 10], starting
    from a fresh counter; it always returns a ball and a game state, whether
    the loop ended because no overlap was found ([collision_found] false) or
    because the counter reached the cap with an overlap found in the last
    pass. *)
Theorem collision_loop_capped :
  forall (ball : Ball.t) (g : Game),
    Ball.launched ball = true -> Ball.active ball = true ->
    exists n : nat,
      (n <= 10)%nat /\
      let st := Nat.iter n loop_body (mkLoop (Ball.update ball) g true 0) in
      step_ball ball g = (l_ball st, l_game st) /\
      iterations st = Z.of_nat n /\
      ((n < 10)%nat -> collision_found st = false).
Proof.
  intros ball g Hl Ha. unfold step_ball. rewrite Hl, Ha. cbn [andb].
  destruct (while_collisions_iter (mkLoop (Ball.update ball) g true 0))
    as (n & Hn & Hw & Hg).
  { cbn. unfold max_iterations. lia. }
  cbn [iterations] in Hn. unfold max_iterations in Hn.
  exists n. split; [lia|]. cbv zeta. rewrite Hw.
  split; [reflexivity|]. split.
  - rewrite iter_loop_body_iterations. cbn. lia.
  - intros Hlt. unfold loop_guard in Hg.
    apply andb_false_iff in Hg as [Hg|Hg]; [exact Hg|].
    apply Z.ltb_ge in Hg. rewrite iter_loop_body_iterations in Hg.
    cbn in Hg. unfold max_iterations in Hg. lia.
Qed.

(** ** Geometry of one collision *)

Local Open Scope R_scope.

Lemma rect_edges k :
  rleft k = 50 * IZR (Brick.col k) + 1 /\
  rright k = 50 * IZR (Brick.col k) + 49 /\
  rtop k = 50 * IZR (Brick.row k) + 1 /\
  rbottom k = 50 * IZR (Brick.row k) + 49.
Proof.
  unfold rleft, rright, rtop, rbottom, Rect.right, Rect.bottom, Brick.rect,
    BRICK_SIZE.
  cbn [Rect.left Rect.top Rect.width Rect.height].
  rewrite !plus_IZR, !minus_IZR, !mult_IZR.
  repeat split; lra.
Qed.

Lemma collidepoint_inside b k :
  inside b k ->
  Rect.collidepoint (Brick.rect k) (Ball.x b) (Ball.y b) = true.
Proof.
  intros [[H1 H2] [H3 H4]]. unfold Rect.collidepoint.
  fold (rleft k) (rright k) (rtop k) (rbottom k).
  now rewrite !Rleb_true, !Rltb_true.
Qed.

Lemma clamp_mid v lo hi : lo <= v <= hi -> clamp v lo hi = v.
Proof.
  intros [H1 H2]. unfold clamp. rewrite (Rmin_left v hi) by lra.
  now rewrite Rmax_right.
Qed.

Lemma clamp_low v lo hi : v <= lo -> lo <= hi -> clamp v lo hi = lo.
Proof.
  intros H1 H2. unfold clamp. rewrite (Rmin_left v hi) by lra.
  now rewrite Rmax_left.
Qed.

Lemma clamp_high v lo hi : hi <= v -> lo <= hi -> clamp v lo hi = hi.
Proof.
  intros H1 H2. unfold clamp. rewrite (Rmin_right v hi) by lra.
  now rewrite Rmax_right.
Qed.

Lemma radius_squared : IZR (BALL_RADIUS * BALL_RADIUS) = 25.
Proof. reflexivity. Qed.

Lemma colliding_inside b k : inside b k -> ball_colliding_brick b k = true.
Proof.
  intros [[H1 H2] [H3 H4]]. unfold ball_colliding_brick. cbv zeta.
  fold (rleft k) (rright k) (rtop k) (rbottom k).
  apply Rltb_true. rewrite radius_squared.
  rewrite !clamp_mid by lra. lra.
Qed.


Lemma not_colliding_right b k :
  rright k + 5 <= Ball.x b -> ball_colliding_brick b k = false.
Proof.
  intros H. unfold ball_colliding_brick. cbv zeta.
  fold (rleft k) (rright k) (rtop k) (rbottom k).
  apply Rltb_false. rewrite radius_squared.
  destruct (rect_edges k) as (E1 & E2 & _).
  rewrite (clamp_high (Ball.x b)) by lra.
  pose proof (Rle_0_sqr (Ball.y b - clamp (Ball.y b) (rtop k) (rbottom k))) as S.
  unfold Rsqr in S. nra.
Qed.


Lemma not_colliding_below b k :
  rbottom k + 5 <= Ball.y b -> ball_colliding_brick b k = false.
Proof.
  intros H. unfold ball_colliding_brick. cbv zeta.
  fold (rleft k) (rright k) (rtop k) (rbottom k).
  apply Rltb_false. rewrite radius_squared.
  destruct (rect_edges k) as (_ & _ & E3 & E4).
  rewrite (clamp_high (Ball.y b)) by lra.
  pose proof (Rle_0_sqr (Ball.x b - clamp (Ball.x b) (rleft k) (rright k))) as S.
  unfold Rsqr in S. nra.
Qed.

(** Where a ball whose centre is inside the rectangle is put: out through
    the nearest edge, the left one winning ties, then the right one, then
    the top one. *)
Lemma push_out_inside b k :
  inside b k ->
  let lp := Ball.x b - rleft k in
  let rp := rright k - Ball.x b in
  let tp := Ball.y b - rtop k in
  let bp := rbottom k - Ball.y b in
  (lp <= rp -> lp <= tp -> lp <= bp ->
   push_out b k = (Ball.set_x (rleft k - 5) b, (-1, 0))) /\
  (rp < lp -> rp <= tp -> rp <= bp ->
   push_out b k = (Ball.set_x (rright k + 5) b, (1, 0))) /\
  (tp < lp -> tp < rp -> tp <= bp ->
   push_out b k = (Ball.set_y (rtop k - 5) b, (0, -1))) /\
  (bp < lp -> bp < rp -> bp < tp ->
   push_out b k = (Ball.set_y (rbottom k + 5) b, (0, 1))).
Proof.
  intros Hin. pose proof (collidepoint_inside b k Hin) as C.
  destruct Hin as [[H1 H2] [H3 H4]].
  cbv zeta. unfold push_out. cbv zeta. rewrite C.
  rewrite !minus_IZR, !plus_IZR. unfold BALL_RADIUS.
  fold (rleft k) (rright k) (rtop k) (rbottom k).
  repeat split; intros A1 A2 A3.
  - rewrite (Rmin_left (Ball.x b - rleft k)) by lra.
    rewrite (Rmin_left (Ball.x b - rleft k)) by lra.
    rewrite (Rmin_left (Ball.x b - rleft k)) by lra.
    now rewrite Reqb_true.
  - rewrite (Rmin_right (Ball.x b - rleft k)) by lra.
    rewrite (Rmin_left (rright k - Ball.x b)) by lra.
    rewrite (Rmin_left (rright k - Ball.x b)) by lra.
    rewrite Reqb_false by lra. now rewrite Reqb_true.
  - destruct (Rle_dec (Ball.x b - rleft k) (rright k - Ball.x b)).
    + rewrite (Rmin_left (Ball.x b - rleft k)) by lra.
      rewrite (Rmin_right (Ball.x b - rleft k)) by lra.
      rewrite (Rmin_left (Ball.y b - rtop k)) by lra.
      rewrite !Reqb_false by lra. now rewrite Reqb_true.
    + rewrite (Rmin_right (Ball.x b - rleft k)) by lra.
      rewrite (Rmin_right (rright k - Ball.x b)) by lra.
      rewrite (Rmin_left (Ball.y b - rtop k)) by lra.
      rewrite !Reqb_false by lra. now rewrite Reqb_true.
  - destruct (Rle_dec (Ball.x b - rleft k) (rright k - Ball.x b)).
    + rewrite (Rmin_left (Ball.x b - rleft k)) by lra.
      destruct (Rle_dec (Ball.x b - rleft k) (Ball.y b - rtop k)).
      * rewrite (Rmin_left (Ball.x b - rleft k)) by lra.
        rewrite (Rmin_right (Ball.x b - rleft k)) by lra.
        rewrite !Reqb_false by lra. reflexivity.
      * rewrite (Rmin_right (Ball.x b - rleft k)) by lra.
        rewrite (Rmin_right (Ball.y b - rtop k)) by lra.
        rewrite !Reqb_false by lra. reflexivity.
    + rewrite (Rmin_right (Ball.x b - rleft k)) by lra.
      destruct (Rle_dec (rright k - Ball.x b) (Ball.y b - rtop k)).
      * rewrite (Rmin_left (rright k - Ball.x b)) by lra.
        rewrite (Rmin_right (rright k - Ball.x b)) by lra.
        rewrite !Reqb_false by lra. reflexivity.
      * rewrite (Rmin_right (rright k - Ball.x b)) by lra.
        rewrite (Rmin_right (Ball.y b - rtop k)) by lra.
        rewrite !Reqb_false by lra. reflexivity.
Qed.

(** ** C3: the speed of a ball *)



Lemma sqrt_sum_squares_pos u v :
  sqrt (u * u + v * v) <> 0 ->
  0 < sqrt (u * u + v * v) /\
  sqrt (u * u + v * v) * sqrt (u * u + v * v) = u * u + v * v.
Proof.
  intros H. assert (N : 0 <= u * u + v * v) by nra.
  split; [|now apply sqrt_sqrt].
  pose proof (sqrt_pos (u * u + v * v)). lra.
Qed.












(** ** C4: where a ball can be at the end of a frame *)

Lemma update_in_field b :
  let b' := Ball.update b in
  IZR BALL_RADIUS <= Ball.x b' <= IZR (SCREEN_WIDTH - BALL_RADIUS) /\
  IZR BALL_RADIUS <= Ball.y b' <= IZR (SCREEN_HEIGHT - BALL_RADIUS) /\
  (Ball.active b' = true -> Ball.y b' + IZR BALL_RADIUS < IZR SCREEN_HEIGHT) /\
  (Ball.active b = false -> Ball.active b' = false).
Proof.
  unfold Ball.update. cbv zeta.
  unfold SCREEN_WIDTH, SCREEN_HEIGHT, BALL_RADIUS.
  change (IZR (300 - 5)) with 295. change (IZR (500 - 5)) with 495.
  destruct (0 <? Ball.collision_cooldown b)%Z;
    cbn [Ball.x Ball.y Ball.dx Ball.dy Ball.active Ball.set_x Ball.set_y
           Ball.set_dx Ball.set_dy Ball.set_active Ball.set_collision_cooldown];
    repeat match goal with
           | |- context [Rleb ?u ?v] =>
               let E := fresh "E" in
               destruct (Rleb u v) eqn:E;
               [apply Rleb_spec in E
               |assert (~ (u <= v)) by (intros X; apply Rleb_spec in X; congruence);
                clear E];
               cbn [Ball.x Ball.y Ball.dx Ball.dy Ball.active Ball.set_x
                      Ball.set_y Ball.set_dx Ball.set_dy Ball.set_active
                      Ball.set_collision_cooldown] in *
           end;
    repeat split; try lra; try discriminate; auto.
Qed.


Lemma loop_body_hit st hit rest :
  hit_first (l_ball st) (bricks (l_game st)) = Some (hit, rest) ->
  loop_body st =
  mkLoop (resolve_collision (Ball.set_collision_cooldown 10 (l_ball st)) hit)
         (set_bricks rest
            (let g := set_score (score (l_game st) + 10) (l_game st) in
             if (high_score g <? score g)%Z then set_high_score (score g) g
             else g))
         true (iterations st + 1).
Proof. intros H. unfold loop_body. rewrite H. reflexivity. Qed.

Lemma loop_body_miss st :
  Forall (fun k => ball_colliding_brick (l_ball st) k = false)
         (bricks (l_game st)) ->
  loop_body st = mkLoop (l_ball st) (l_game st) false (iterations st + 1).
Proof.
  intros H. apply hit_first_none in H. unfold loop_body. now rewrite H.
Qed.

(** A collision with a ball whose centre is inside the rectangle, nearest
    to its left edge: the ball is put a radius to the left of that edge. *)
Lemma resolve_collision_inside_left b k :
  inside b k ->
  Ball.x b - rleft k <= rright k - Ball.x b ->
  Ball.x b - rleft k <= Ball.y b - rtop k ->
  Ball.x b - rleft k <= rbottom k - Ball.y b ->
  Ball.x (resolve_collision b k) = rleft k - 5 /\
  Ball.y (resolve_collision b k) = Ball.y b /\
  Ball.active (resolve_collision b k) = Ball.active b.
Proof.
  intros Hin A1 A2 A3.
  destruct (push_out_inside b k Hin) as (P & _).
  unfold resolve_collision. rewrite (P A1 A2 A3).
  destruct (reflect_pos (Ball.set_x (rleft k - 5) b) (-1, 0)) as [Ex Ey].
  destruct (reflect_frame (Ball.set_x (rleft k - 5) b) (-1, 0)) as (Ea & _).
  rewrite Ex, Ey, Ea. repeat split.
Qed.

Lemma resolve_collision_inside_right b k :
  inside b k ->
  rright k - Ball.x b < Ball.x b - rleft k ->
  rright k - Ball.x b <= Ball.y b - rtop k ->
  rright k - Ball.x b <= rbottom k - Ball.y b ->
  Ball.x (resolve_collision b k) = rright k + 5 /\
  Ball.y (resolve_collision b k) = Ball.y b /\
  Ball.active (resolve_collision b k) = Ball.active b.
Proof.
  intros Hin A1 A2 A3.
  destruct (push_out_inside b k Hin) as (_ & P & _).
  unfold resolve_collision. rewrite (P A1 A2 A3).
  destruct (reflect_pos (Ball.set_x (rright k + 5) b) (1, 0)) as [Ex Ey].
  destruct (reflect_frame (Ball.set_x (rright k + 5) b) (1, 0)) as (Ea & _).
  rewrite Ex, Ey, Ea. repeat split.
Qed.

Lemma check_bricks_bottom_balls g :
  balls_to_fire (check_bricks_bottom g) = balls_to_fire g.
Proof.
  destruct (check_bricks_bottom_cases g) as [[_ E]|[_ E]]; rewrite E;
    [reflexivity|]. now rewrite remove_bottom_rows_eq.
Qed.

Lemma collidepoint_true b k :
  Rect.collidepoint (Brick.rect k) (Ball.x b) (Ball.y b) = true -> inside b k.
Proof.
  unfold Rect.collidepoint. fold (rleft k) (rright k) (rtop k) (rbottom k).
  intros H. apply andb_prop in H as [H H4]. apply andb_prop in H as [H H3].
  apply andb_prop in H as [H1 H2].
  apply Rleb_spec in H1, H3. apply Rltb_spec in H2, H4.
  unfold inside. lra.
Qed.

(** The component of a unit-length direction along one axis. *)
Lemma ratio_bounds u v :
  sqrt (u * u + v * v) <> 0 ->
  -1 <= v / sqrt (u * u + v * v) <= 1 /\
  v / sqrt (u * u + v * v) * sqrt (u * u + v * v) = v /\
  (0 <= v -> 0 <= v / sqrt (u * u + v * v)) /\
  (v <= 0 -> v / sqrt (u * u + v * v) <= 0).
Proof.
  intros M. destruct (sqrt_sum_squares_pos u v M) as [Mpos Msq].
  set (d := sqrt (u * u + v * v)) in *.
  assert (T : v / d * d = v) by (field; lra).
  set (t := v / d) in *.
  assert (B : -1 <= t <= 1).
  { assert (t * t * (d * d) <= d * d).
    { replace (t * t * (d * d)) with ((t * d) * (t * d)) by ring.
      rewrite T, Msq. nra. }
    assert (P : 0 < d * d) by nra.
    assert (Q : t * t <= 1).
    { apply (Rmult_le_reg_r (d * d)); [exact P | lra]. }
    split; nra. }
  repeat split; try lra.
  - intros Hv. destruct (Rle_dec 0 t); [assumption|]. exfalso. nra.
  - intros Hv. destruct (Rle_dec t 0); [assumption|]. exfalso. nra.
Qed.

Lemma push_out_y b k :
  ball_colliding_brick b k = true ->
  rtop k - 5 <= Ball.y (fst (push_out b k)) <= rbottom k + 5.
Proof.
  intros Hc.
  destruct (rect_edges k) as (El & Er & Et & Eb).
  assert (Htb : rtop k <= rbottom k) by lra.
  unfold push_out. cbv zeta.
  destruct (Rect.collidepoint _ _ _) eqn:C.
  - apply collidepoint_true in C. destruct C as [_ [C1 C2]].
    rewrite !minus_IZR, !plus_IZR. unfold BALL_RADIUS.
    fold (rleft k) (rright k) (rtop k) (rbottom k).
    case_ifs; cbn [fst Ball.y Ball.set_x Ball.set_y]; lra.
  - unfold ball_colliding_brick in Hc. cbv zeta in Hc.
    apply Rltb_spec in Hc. rewrite radius_squared in Hc.
    fold (rleft k) (rright k) (rtop k) (rbottom k) in *.
    set (ddx := Ball.x b - clamp (Ball.x b) (rleft k) (rright k)) in *.
    set (cy := clamp (Ball.y b) (rtop k) (rbottom k)) in *.
    set (ddy := Ball.y b - cy) in *.
    assert (Hcy : (Ball.y b <= rtop k /\ cy = rtop k) \/
                  (rtop k <= Ball.y b <= rbottom k /\ cy = Ball.y b) \/
                  (rbottom k <= Ball.y b /\ cy = rbottom k)).
    { unfold cy. destruct (Rle_dec (Ball.y b) (rtop k)).
      - left. split; [assumption|]. now apply clamp_low.
      - destruct (Rle_dec (Ball.y b) (rbottom k)).
        + right; left. split; [lra|]. apply clamp_mid. lra.
        + right; right. split; [lra|]. apply clamp_high; lra. }
    destruct (Reqb (sqrt (ddx * ddx + ddy * ddy)) 0) eqn:D.
    + unfold Reqb in D. destruct (Req_dec_T _ 0) as [D0|]; [|discriminate].
      apply sqrt_eq_0 in D0; [|nra].
      assert (Y : ddy = 0) by nra.
      assert (Yr : rtop k <= Ball.y b <= rbottom k).
      { unfold ddy in Y. destruct Hcy as [[? ?]|[[? ?]|[? ?]]]; lra. }
      unfold BALL_RADIUS.
      rewrite (Rltb_true (1 / 1000) 5) by lra.
      unfold copysign1.
      case_ifs; cbn [fst snd Ball.y Ball.set_x Ball.set_y]; lra.
    + assert (M : sqrt (ddx * ddx + ddy * ddy) <> 0).
      { unfold Reqb in D. destruct (Req_dec_T _ 0); [discriminate | assumption]. }
      destruct (sqrt_sum_squares_pos ddx ddy M) as [Mpos Msq].
      destruct (ratio_bounds ddx ddy M) as (B & T & Tpos & Tneg).
      set (d := sqrt (ddx * ddx + ddy * ddy)) in *.
      assert (D5 : d < 5) by nra.
      unfold BALL_RADIUS. rewrite (Rltb_true d 5) by exact D5.
      cbn [fst snd Ball.y Ball.set_x Ball.set_y].
      set (t := ddy / d) in *.
      assert (Yeq : Ball.y b = cy + t * d) by (unfold ddy in T; lra).
      replace (Ball.y b + t * (5 - d)) with (cy + 5 * t) by lra.
      destruct Hcy as [[Hy E]|[[Hy E]|[Hy E]]].
      * assert (ddy <= 0) by (unfold ddy; lra).
        specialize (Tneg H). lra.
      * assert (ddy = 0) by (unfold ddy; lra).
        assert (t = 0) by (unfold t; rewrite H; field; lra). lra.
      * assert (0 <= ddy) by (unfold ddy; lra).
        specialize (Tpos H). lra.
Qed.

Lemma resolve_collision_y b k :
  ball_colliding_brick b k = true ->
  rtop k - 5 <= Ball.y (resolve_collision b k) <= rbottom k + 5.
Proof.
  intros Hc. pose proof (push_out_y b k Hc) as H.
  unfold resolve_collision. destruct (push_out b k) as [b' n].
  destruct (reflect_pos b' n) as [_ Ey]. rewrite Ey. exact H.
Qed.

(** Whatever holds of every live brick, and does not depend on the hit
    points, holds of every live brick after a pass of the loop. *)
Lemma loop_body_bricks_forall (Q : Brick.t -> Prop) st :
  (forall k v, Q k -> Q (Brick.set_value v k)) ->
  Forall Q (bricks (l_game st)) ->
  Forall Q (bricks (l_game (loop_body st))).
Proof.
  intros HQ H. unfold loop_body.
  destruct (hit_first (l_ball st) (bricks (l_game st))) as [[hit rest]|] eqn:E;
    cbv zeta; gsimpl; [|exact H].
  apply hit_first_some in E as (pre & k & post & E & _ & _ & -> & ->).
  rewrite E in H. apply Forall_app in H as [Hpre Hk].
  inversion Hk as [|? ? Hk0 Hpost]; subst.
  apply Forall_app; split; [exact Hpre|].
  apply Forall_app; split; [|exact Hpost].
  destruct (Brick.value k - 1 <=? 0)%Z; constructor;
    [apply HQ; exact Hk0 | constructor].
Qed.

Lemma loop_body_field st :
  rows_between 1 8 (l_game st) /\ moved_ball_ok (l_ball st) ->
  rows_between 1 8 (l_game (loop_body st)) /\
  moved_ball_ok (l_ball (loop_body st)).
Proof.
  intros [Hr Hb]. split.
  - apply loop_body_bricks_forall; [|exact Hr]. intros k v Hk. exact Hk.
  - unfold loop_body.
    destruct (hit_first (l_ball st) (bricks (l_game st))) as [[hit rest]|] eqn:E;
      cbv zeta; gsimpl; [|exact Hb].
    apply hit_first_some in E as (pre & k & post & E & _ & Hc & -> & _).
    assert (Hk : (1 <= Brick.row k <= 8)%Z).
    { unfold rows_between in Hr. rewrite E in Hr.
      apply Forall_app in Hr as [_ Hr]. now inversion Hr. }
    set (hit := Brick.set_value (Brick.value k - 1) k).
    assert (Hc' : ball_colliding_brick
                    (Ball.set_collision_cooldown 10 (l_ball st)) hit = true)
      by exact Hc.
    pose proof (resolve_collision_y _ _ Hc') as Y.
    destruct (rect_edges hit) as (_ & _ & Et & Eb).
    change (Brick.row hit) with (Brick.row k) in Et, Eb.
    assert (Hrow : 1 <= IZR (Brick.row k) <= 8).
    { split; [apply (IZR_le 1) | apply (IZR_le _ 8)]; lia. }
    destruct Y as [Y1 Y2]. destruct Hrow as [Hr1 Hr8].
    unfold moved_ball_ok. split; [lra | intros _; lra].
Qed.

Lemma step_ball_field b g :
  IZR BALL_RADIUS <= Ball.y b -> rows_between 1 8 g ->
  ball_y_ok (fst (step_ball b g)) /\ rows_between 1 8 (snd (step_ball b g)).
Proof.
  intros Hy Hr. unfold step_ball.
  destruct (Ball.launched b && Ball.active b) eqn:C; cbn [fst snd].
  - assert (H : rows_between 1 8
                  (l_game (while_collisions (mkLoop (Ball.update b) g true 0))) /\
                moved_ball_ok
                  (l_ball (while_collisions (mkLoop (Ball.update b) g true 0)))).
    { apply (while_collisions_inv
               (fun st => rows_between 1 8 (l_game st) /\
                          moved_ball_ok (l_ball st))).
      - intros st _. apply loop_body_field.
      - gsimpl. split; [exact Hr|].
        destruct (update_in_field b) as (_ & (Y1 & _) & Y2 & _).
        unfold BALL_RADIUS, SCREEN_HEIGHT in Y1, Y2.
        split; [exact Y1 | exact Y2]. }
    destruct H as [H1 [H2 H3]]. split; [|exact H1].
    unfold ball_y_ok, BALL_RADIUS, SCREEN_HEIGHT.
    split; [exact H2 | intros _; exact H3].
  - split; [|exact Hr]. split; [exact Hy|].
    intros Hl Ha. rewrite Hl, Ha in C. discriminate.
Qed.

Lemma update_balls_field todo g :
  Forall (fun b => IZR BALL_RADIUS <= Ball.y b) todo -> rows_between 1 8 g ->
  Forall ball_y_ok (fst (update_balls todo g)) /\
  rows_between 1 8 (snd (update_balls todo g)).
Proof.
  revert g. induction todo as [|b todo IH]; intros g Hy Hr; cbn [update_balls].
  - split; [constructor | exact Hr].
  - inversion Hy as [|? ? Hb Htodo]; subst.
    pose proof (step_ball_field b g Hb Hr) as [H1 H2].
    destruct (step_ball b g) as [b' g']. cbn [fst snd] in H1, H2.
    specialize (IH g' Htodo H2). destruct (update_balls todo g') as [rest g''].
    cbn [fst snd] in *. destruct IH as [I1 I2].
    split; [now constructor | exact I2].
Qed.

Lemma handle_event_field cols g e :
  field_ok g -> field_ok (handle_event cols g e).
Proof.
  intros [Hr Hb]. unfold field_ok, rows_between.
  destruct (handle_event_cases cols g e)
    as [(_ & _ & E)|(_ & _ & _ & _ & Eb & _ & _ & _ & _ & _ & [E|E])].
  - rewrite E, new_game_eq. gsimpl. split; [|constructor].
    apply Forall_map, Forall_forall. intros c _. cbn. lia.
  - rewrite Eb, E. split; assumption.
  - rewrite Eb, E. split; [exact Hr|].
    apply Forall_map, Forall_forall. intros i _.
    unfold ball_y_ok, fired_ball. cbn.
    change (IZR (SCREEN_HEIGHT - BALL_RADIUS)) with 495.
    unfold BALL_RADIUS. split; [lra | discriminate].
Qed.

Lemma check_bricks_bottom_rows g :
  rows_between 1 9 g -> rows_between 1 8 (check_bricks_bottom g).
Proof.
  unfold rows_between. intros H.
  destruct (check_bricks_bottom_cases g) as [[Hall E]|[_ E]]; rewrite E.
  - rewrite Forall_forall in *. intros k Hk.
    specialize (H k Hk). specialize (Hall k Hk). cbv beta in *. lia.
  - rewrite remove_bottom_rows_eq. gsimpl.
    apply Forall_forall. intros k Hk. apply filter_In in Hk as [Hk Hlt].
    rewrite Forall_forall in H. specialize (H k Hk). cbv beta in H.
    apply Z.ltb_lt in Hlt. change (MAX_ROWS - 3)%Z with 7%Z in Hlt. lia.
Qed.

Lemma firing_block_field cols g :
  field_ok g ->
  rows_between 1 9 (firing_block cols g) /\
  Forall ball_y_ok (balls_to_fire (firing_block cols g)).
Proof.
  intros [Hr Hb]. unfold firing_block. cbv zeta.
  assert (K : rows_between 1 8 (for_balls (launch_due g)) /\
              Forall ball_y_ok (balls_to_fire (for_balls (launch_due g)))).
  { unfold for_balls.
    assert (L : Forall (fun b => IZR BALL_RADIUS <= Ball.y b)
                       (balls_to_fire (launch_due g))).
    { unfold launch_due. gsimpl. apply Forall_map.
      eapply Forall_impl; [|exact Hb]. intros b [Hy _].
      destruct (negb _ && _); exact Hy. }
    pose proof (update_balls_field _ (launch_due g) L Hr) as [U1 U2].
    destruct (update_balls _ _) as [balls g']. cbn [fst snd] in U1, U2.
    split; [exact U2 | exact U1]. }
  destruct K as [K1 K2].
  destruct (all_returned _).
  - unfold finish_round. cbv zeta. rewrite reset_for_next_turn_eq.
    unfold rows_between. gsimpl. split; [|constructor].
    apply Forall_app. split.
    + apply Forall_map. eapply Forall_impl; [|exact K1].
      intros k Hk. cbv beta in Hk. cbn [Brick.row Brick.set_row]. lia.
    + apply Forall_map, Forall_forall. intros c _. cbn. lia.
  - split; [|exact K2]. eapply Forall_impl; [|exact K1].
    intros k Hk. cbv beta in *. lia.
Qed.

Lemma field_ok_tick w g : field_ok g -> field_ok (tick w g).
Proof.
  intros H. unfold tick. cbv zeta.
  assert (H0 : field_ok (events_phase w g)).
  { unfold events_phase. cbv zeta.
    apply (events_preserve field_ok w).
    - intros g1 e. apply handle_event_field.
    - exact H. }
  set (g0 := events_phase w g) in *.
  assert (H1 : field_ok (if negb (game_over g0)
                         then gameplay (next_turn_cols w) g0 else g0)).
  { destruct (game_over g0); cbn [negb]; [exact H0|].
    unfold gameplay. cbv zeta.
    set (g1 := if firing g0 then _ else g0).
    assert (G1 : rows_between 1 9 g1 /\ Forall ball_y_ok (balls_to_fire g1)).
    { subst g1. destruct (firing g0); [now apply firing_block_field|].
      destruct H0 as [A B]. split; [|exact B].
      eapply Forall_impl; [|exact A]. intros k Hk. cbv beta in *. lia. }
    destruct G1 as [A B].
    pose proof (check_bricks_bottom_rows g1 A) as A'.
    pose proof (check_bricks_bottom_balls g1) as B'.
    unfold field_ok, rows_between in *.
    case_ifs; gsimpl; rewrite B'; split; assumption. }
  unfold tick_fade. case_ifs; exact H1.
Qed.

Lemma field_ok_reachable g : reachable g -> field_ok g.
Proof.
  apply reachable_ind_inv.
  - intros cols _. rewrite initial_eq. unfold field_ok, rows_between. gsimpl.
    split; [|constructor].
    apply Forall_map, Forall_forall. intros c _. cbn. lia.
  - intros w g0 _. apply field_ok_tick.
Qed.



(** ** [Ball.update] on a concrete ball *)

Ltac eval_update :=
  unfold Ball.update; cbv zeta;
  unfold BALL_RADIUS, SCREEN_WIDTH, SCREEN_HEIGHT;
  cbn [Ball.x Ball.y Ball.dx Ball.dy Ball.active Ball.launched Ball.angle
         Ball.delay Ball.collision_cooldown Ball.set_x Ball.set_y Ball.set_dx
         Ball.set_dy Ball.set_active Ball.set_collision_cooldown
         Z.ltb Z.compare];
  repeat (match goal with
          | |- context [Rleb ?u ?v] =>
              first [rewrite (Rleb_true u v) by lra
                    |rewrite (Rleb_false u v) by lra]
          end;
          cbn [Ball.x Ball.y Ball.dx Ball.dy Ball.active Ball.launched
                 Ball.angle Ball.delay Ball.collision_cooldown Ball.set_x
                 Ball.set_y Ball.set_dx Ball.set_dy Ball.set_active
                 Ball.set_collision_cooldown]).

(** ** C2: what a new game resets *)

(** C2, on the code.  SPACE in the game-over state runs [new_game]: level,
    shot count, ball list, lives, score, bricks and fade list go back to
    their initial values and [high_score] is kept, but [highest_level] is
    set to 1 although it was 15. *)
Theorem new_game_resets_highest_level :
  let g' := tick restart_frame over_game in
  game_over over_game = true /\
  highest_level over_game = 15%Z /\
  highest_level g' = 1%Z /\
  high_score g' = high_score over_game /\
  level g' = 1%Z /\ base_ball_count g' = 2%Z /\ balls_to_fire g' = [] /\
  lives g' = 3%Z /\ score g' = 0%Z /\ bricks g' = [Brick.init 2 1 1] /\
  dying_bricks g' = [] /\ game_over g' = false /\
  forall cols g, highest_level (new_game cols g) = 1%Z.
Proof.
  cbv zeta. repeat split. intros cols g. now rewrite new_game_eq.
Qed.

(** ** C6: the end of a round *)

(** Between frames no returned position is on record: the list is filled
    and emptied again within [finish_round]. *)
Lemma returned_empty_reachable g :
  reachable g -> returned_ball_positions g = [].
Proof.
  apply (reachable_ind_inv (fun g => returned_ball_positions g = [])).
  - intros cols _. now rewrite initial_eq.
  - intros w g0 _.
    apply (tick_preserves (fun g => returned_ball_positions g = [])).
    + intros g1 v H. exact H.
    + intros g1 e H.
      destruct (handle_event_cases (new_game_cols w) g1 e)
        as [(_ & _ & E)|(_ & _ & _ & _ & _ & _ & _ & _ & _ & E & _)].
      * now rewrite E, new_game_eq.
      * now rewrite E.
    + intros g1 H _ _. unfold firing_block. cbv zeta.
      destruct (all_returned _).
      * unfold finish_round. cbv zeta. now rewrite reset_for_next_turn_eq.
      * rewrite for_balls_frame. unfold launch_due. gsimpl. exact H.
    + intros g1 H _. cbv zeta.
      assert (K : returned_ball_positions (check_bricks_bottom g1) = []).
      { destruct (check_bricks_bottom_cases g1) as [[_ E]|[_ E]]; rewrite E;
          [exact H|]. rewrite remove_bottom_rows_eq. exact H. }
      case_ifs; exact K.
    + intros g1 v H. exact H.
    + intros g1 H. exact H.
Qed.

(** What the end of a round computes. *)
Lemma finish_round_eq cols g :
  returned_ball_positions g = [] ->
  let g' := finish_round cols g in
  firing g' = false /\
  level g' = (level g + 1)%Z /\
  highest_level g' = Z.max (highest_level g) (level g + 1) /\
  base_ball_count g' = get_ball_count (level g + 1) /\
  base_x g' =
    match balls_to_fire g with
    | ball :: _ =>
        Z.max BALL_RADIUS
          (Z.min (SCREEN_WIDTH - BALL_RADIUS) (int_of_float (Ball.x ball)))
    | [] => base_x g
    end /\
  bricks g' =
    map (fun k => Brick.set_row (Brick.row k + 1) k) (bricks g) ++
    map (fun c => Brick.init c 1 (level g + 1)) cols /\
  balls_to_fire g' = [] /\ returned_ball_positions g' = [] /\
  frame_count g' = 0%Z.
Proof.
  intros Hr. unfold finish_round. cbv zeta.
  rewrite reset_for_next_turn_eq. unfold next_base_x. gsimpl. rewrite Hr.
  cbn [app]. destruct (balls_to_fire g); repeat split.
Qed.

Lemma check_bricks_bottom_round g :
  firing (check_bricks_bottom g) = firing g /\
  level (check_bricks_bottom g) = level g /\
  base_x (check_bricks_bottom g) = base_x g.
Proof.
  destruct (check_bricks_bottom_cases g) as [[_ E]|[_ E]]; rewrite E;
    [repeat split|]. rewrite remove_bottom_rows_eq. repeat split.
Qed.

(** The frame's gameplay block leaves [firing], [level], [base_x] and the
    ball list as the [if firing:] block left them. *)
Lemma tick_after_firing_block w g :
  game_over (events_phase w g) = false ->
  firing (events_phase w g) = true ->
  let g1 := firing_block (next_turn_cols w) (events_phase w g) in
  firing (tick w g) = firing g1 /\ level (tick w g) = level g1 /\
  base_x (tick w g) = base_x g1 /\ balls_to_fire (tick w g) = balls_to_fire g1.
Proof.
  intros Hgo Hf. cbv zeta. unfold tick. cbv zeta. rewrite Hgo. cbn [negb].
  unfold gameplay. cbv zeta. rewrite Hf.
  set (g1 := firing_block _ _).
  destruct (check_bricks_bottom_round g1) as (A & B & C).
  pose proof (check_bricks_bottom_balls g1) as D.
  unfold tick_fade. case_ifs; gsimpl; repeat split; assumption.
Qed.

(** C6, amended.  In a frame of a round under way (not game over, firing,
    no returned position on record), let [g1] be the state after the ball
    loop.  If every ball of the shot list is then launched and inactive, the
    frame ends with [firing] false and [level] one higher, the launch origin
    is the [x] of the first ball of the list truncated to an integer and
    then clamped to [[BALL_RADIUS, SCREEN_WIDTH - BALL_RADIUS]], and the
    [if firing:] block leaves the bricks one row lower, followed by the new
    row.  Otherwise the frame ends with [firing] still true and [level]
    unchanged.  In a run no returned position is ever on record after the
    events of a frame. *)
Theorem round_completes_when_all_returned :
  (forall (w : Frame) (g : Game),
      let g0 := events_phase w g in
      let g1 := for_balls (launch_due g0) in
      game_over g0 = false -> firing g0 = true ->
      returned_ball_positions g0 = [] ->
      (all_returned g1 = true ->
       firing (tick w g) = false /\
       level (tick w g) = (level g0 + 1)%Z /\
       base_x (tick w g) =
         match balls_to_fire g1 with
         | ball :: _ =>
             Z.max BALL_RADIUS
               (Z.min (SCREEN_WIDTH - BALL_RADIUS)
                      (int_of_float (Ball.x ball)))
         | [] => base_x g0
         end /\
       balls_to_fire (tick w g) = [] /\
       bricks (firing_block (next_turn_cols w) g0) =
         map (fun k => Brick.set_row (Brick.row k + 1) k) (bricks g1) ++
         map (fun c => Brick.init c 1 (level g0 + 1)) (next_turn_cols w)) /\
      (all_returned g1 = false ->
       firing (tick w g) = true /\ level (tick w g) = level g0 /\
       base_x (tick w g) = base_x g0 /\
       balls_to_fire (tick w g) = balls_to_fire g1)) /\
  (forall (w : Frame) (g : Game),
      reachable g -> returned_ball_positions (events_phase w g) = []).
Proof.
  split.
  - intros w g g0 g1 Hgo Hf Hr.
    destruct (tick_after_firing_block w g Hgo Hf) as (A & B & C & D).
    fold g0 in A, B, C, D.
    assert (G1 : firing g1 = true /\ level g1 = level g0 /\
                 base_x g1 = base_x g0 /\ returned_ball_positions g1 = []).
    { subst g1. rewrite for_balls_frame. unfold launch_due. gsimpl.
      repeat split; assumption. }
    destruct G1 as (F1 & L1 & B1 & R1).
    split; intros Hall.
    + assert (E : firing_block (next_turn_cols w) g0 =
                  finish_round (next_turn_cols w) g1).
      { unfold firing_block. cbv zeta. fold g1. now rewrite Hall. }
      rewrite E in *.
      destruct (finish_round_eq (next_turn_cols w) g1 R1)
        as (E1 & E2 & _ & _ & E5 & E6 & E7 & _).
      rewrite A, B, C, D, E1, E2, E5, E6, E7, L1, B1. repeat split.
    + assert (E : firing_block (next_turn_cols w) g0 = g1).
      { unfold firing_block. cbv zeta. fold g1. now rewrite Hall. }
      rewrite E in *. rewrite A, B, C, D, F1, L1, B1. repeat split.
  - intros w g Hr. unfold events_phase. cbv zeta.
    apply (events_preserve (fun g => returned_ball_positions g = []) w).
    + intros g1 e H.
      destruct (handle_event_cases (new_game_cols w) g1 e)
        as [(_ & _ & E)|(_ & _ & _ & _ & _ & _ & _ & _ & _ & E & _)].
      * now rewrite E, new_game_eq.
      * now rewrite E.
    + gsimpl. now apply returned_empty_reachable.
Qed.

(** ** C9: a frame that uses up the cap *)

(** The loop is exactly [n] passes when the guard holds before each of them
    and fails after the last. *)
Lemma while_collisions_exactly n st :
  (forall i, (i < n)%nat -> loop_guard (Nat.iter i loop_body st) = true) ->
  loop_guard (Nat.iter n loop_body st) = false ->
  while_collisions st = Nat.iter n loop_body st.
Proof.
  revert st. induction n as [|n IH]; intros st Hlt Hn.
  - rewrite while_collisions_step. cbn in Hn. now rewrite Hn.
  - rewrite while_collisions_step.
    pose proof (Hlt 0%nat ltac:(lia)) as H0. cbn [Nat.iter nat_rect] in H0.
    rewrite H0, Nat.iter_succ_r.
    apply IH.
    + intros i Hi. rewrite <- Nat.iter_succ_r. apply Hlt. lia.
    + now rewrite <- Nat.iter_succ_r.
Qed.

Lemma left_brick_edges v :
  rleft (left_brick v) = 51 /\ rright (left_brick v) = 99 /\
  rtop (left_brick v) = 51 /\ rbottom (left_brick v) = 99.
Proof.
  destruct (rect_edges (left_brick v)) as (A & B & C & D).
  cbn [Brick.col Brick.row left_brick] in *. repeat split; lra.
Qed.

Lemma right_brick_edges v :
  rleft (right_brick v) = 101 /\ rright (right_brick v) = 149 /\
  rtop (right_brick v) = 51 /\ rbottom (right_brick v) = 99.
Proof.
  destruct (rect_edges (right_brick v)) as (A & B & C & D).
  cbn [Brick.col Brick.row right_brick] in *. repeat split; lra.
Qed.

Lemma pong_step i st : (i < 10)%nat -> pong i st -> pong (S i) (loop_body st).
Proof.
  intros Hi (Hcf & Hit & Hy & Hx & Hs & vb & va & Hb & Hvb & Hva).
  destruct (left_brick_edges (vb - 1)) as (Bl & Br & Bt & Bb).
  destruct (right_brick_edges (va - 1)) as (Al & Ar & At & Ab).
  destruct (left_brick_edges vb) as (Bl' & Br' & Bt' & Bb').
  destruct (right_brick_edges va) as (Al' & Ar' & At' & Ab').
  destruct Hx as [[He Hx]|[He Hx]].
  - (* the ball is inside the left brick *)
    assert (H1 : hit_first (l_ball st) (bricks (l_game st)) =
                 Some (left_brick (vb - 1),
                       [left_brick (vb - 1); right_brick va])).
    { rewrite Hb. cbn [hit_first]. rewrite colliding_inside.
      - cbn [Brick.value Brick.set_value left_brick].
        destruct (vb - 1 <=? 0)%Z eqn:E; [apply Z.leb_le in E; lia|].
        reflexivity.
      - unfold inside. rewrite Bl', Br', Bt', Bb'. lra. }
    rewrite (loop_body_hit st _ _ H1).
    set (b := Ball.set_collision_cooldown 10 (l_ball st)).
    destruct (resolve_collision_inside_right b (left_brick (vb - 1)))
      as (Ex & Ey & _).
    { unfold inside. rewrite Bl, Br, Bt, Bb. cbn. lra. }
    { rewrite Bl, Br. cbn. lra. }
    { rewrite Br, Bt. cbn. lra. }
    { rewrite Br, Bb. cbn. lra. }
    unfold pong. gsimpl. rewrite Ex, Ey, Br, Hit, Hs.
    split; [now right|]. split; [lia|]. split; [exact Hy|].
    split; [right; split; [rewrite Nat.even_succ, <- Nat.negb_even, He;
                           reflexivity | lra]|].
    split; [case_ifs; gsimpl; lia|].
    exists (vb - 1)%Z, va. split; [case_ifs; reflexivity|]. lia.
  - (* the ball is inside the right brick *)
    assert (H1 : hit_first (l_ball st) (bricks (l_game st)) =
                 Some (right_brick (va - 1),
                       [left_brick vb; right_brick (va - 1)])).
    { rewrite Hb. cbn [hit_first]. rewrite not_colliding_right.
      - rewrite colliding_inside.
        + cbn [Brick.value Brick.set_value right_brick].
          destruct (va - 1 <=? 0)%Z eqn:E; [apply Z.leb_le in E; lia|].
          reflexivity.
        + unfold inside. rewrite Al', Ar', At', Ab'. lra.
      - rewrite Br'. lra. }
    rewrite (loop_body_hit st _ _ H1).
    set (b := Ball.set_collision_cooldown 10 (l_ball st)).
    destruct (resolve_collision_inside_left b (right_brick (va - 1)))
      as (Ex & Ey & _).
    { unfold inside. rewrite Al, Ar, At, Ab. cbn. lra. }
    { rewrite Al, Ar. cbn. lra. }
    { rewrite Al, At. cbn. lra. }
    { rewrite Al, Ab. cbn. lra. }
    unfold pong. gsimpl. rewrite Ex, Ey, Al, Hit, Hs.
    split; [now right|]. split; [lia|]. split; [exact Hy|].
    split; [left; split; [rewrite Nat.even_succ, <- Nat.negb_even, He;
                          reflexivity | lra]|].
    split; [case_ifs; gsimpl; lia|].
    exists vb, (va - 1)%Z. split; [case_ifs; reflexivity|]. lia.
Qed.

Lemma pong_ball_update :
  Ball.update pong_ball =
  {| Ball.x := 98 + 0; Ball.y := 105 + - (12); Ball.angle := PI / 2;
     Ball.dx := 0; Ball.dy := - (12);
     Ball.active := true; Ball.launched := true;
     Ball.delay := 0; Ball.collision_cooldown := 0 |}.
Proof. unfold pong_ball. eval_update. reflexivity. Qed.

Lemma pong_iter i :
  (i <= 10)%nat ->
  pong i (Nat.iter i loop_body
            (mkLoop (Ball.update pong_ball) pong_game true 0)).
Proof.
  induction i as [|i IH]; intros Hi.
  - cbn [Nat.iter nat_rect]. rewrite pong_ball_update. unfold pong. gsimpl.
    cbn [Ball.x Ball.y].
    split; [now left|]. split; [reflexivity|]. split; [lra|].
    split; [left; split; [reflexivity | lra]|]. split; [reflexivity|].
    exists 20%Z, 20%Z. split; [reflexivity|]. cbn. lia.
  - rewrite Nat.iter_succ. apply pong_step; [lia|]. apply IH. lia.
Qed.

(** The cap at work: in the frame of [pong_game] every one of the ten
    passes finds an overlap, the ball being pushed from one brick into the
    other and back; the loop stops at the cap, [step_ball] returns as usual,
    and the ball still overlaps a live brick. *)
Lemma collision_cap_reached_with_overlap :
  let st := Nat.iter 10 loop_body
              (mkLoop (Ball.update pong_ball) pong_game true 0) in
  step_ball pong_ball pong_game = (l_ball st, l_game st) /\
  iterations st = 10%Z /\ collision_found st = true /\
  score (l_game st) = 100%Z /\
  exists k, In k (bricks (l_game st)) /\
            ball_colliding_brick (l_ball st) k = true.
Proof.
  cbv zeta.
  set (st0 := mkLoop (Ball.update pong_ball) pong_game true 0).
  assert (G : forall i, (i < 10)%nat ->
                        loop_guard (Nat.iter i loop_body st0) = true).
  { intros i Hi. destruct (pong_iter i ltac:(lia)) as (Hcf & Hit & _).
    fold st0 in Hcf, Hit. unfold loop_guard. rewrite Hit.
    apply andb_true_intro. split.
    - destruct Hcf as [->|Hcf]; [reflexivity | exact Hcf].
    - apply Z.ltb_lt. unfold max_iterations. lia. }
  destruct (pong_iter 10 ltac:(lia))
    as (Hcf & Hit & Hy & Hx & Hs & vb & va & Hb & Hvb & Hva).
  fold st0 in Hcf, Hit, Hy, Hx, Hs, Hb.
  assert (W : while_collisions st0 = Nat.iter 10 loop_body st0).
  { apply while_collisions_exactly; [exact G|].
    unfold loop_guard. rewrite Hit. apply andb_false_r. }
  split.
  - unfold step_ball.
    change (Ball.launched pong_ball && Ball.active pong_ball) with true.
    cbv iota. fold st0. now rewrite W.
  - split; [exact Hit|]. split; [destruct Hcf as [?|?]; [discriminate | assumption]|].
    split; [exact Hs|].
    exists (left_brick vb). split; [rewrite Hb; now left|].
    destruct Hx as [[_ Hx]|[He _]]; [|discriminate He].
    apply colliding_inside. destruct (left_brick_edges vb) as (A & B & C & D).
    unfold inside. rewrite A, B, C, D, Hy. lra.
Qed.

(** ** One ball in one frame, case by case *)

Lemma colliding_within b k :
  rleft k <= Ball.x b <= rright k -> rtop k <= Ball.y b <= rbottom k ->
  ball_colliding_brick b k = true.
Proof.
  intros H1 H2. unfold ball_colliding_brick. cbv zeta.
  fold (rleft k) (rright k) (rtop k) (rbottom k).
  apply Rltb_true. rewrite radius_squared.
  rewrite !clamp_mid by lra. lra.
Qed.

(** A ball that is not both launched and active is passed over. *)
Lemma step_ball_idle b g :
  Ball.launched b && Ball.active b = false -> step_ball b g = (b, g).
Proof. intros H. unfold step_ball. now rewrite H. Qed.

(** A ball that overlaps no brick after its move: one pass, no hit. *)
Lemma step_ball_no_hit b g :
  Ball.launched b && Ball.active b = true ->
  Forall (fun k => ball_colliding_brick (Ball.update b) k = false) (bricks g) ->
  step_ball b g = (Ball.update b, g).
Proof.
  intros H Hmiss. unfold step_ball. rewrite H.
  rewrite while_collisions_step.
  change (loop_guard (mkLoop (Ball.update b) g true 0)) with true. cbv iota.
  rewrite loop_body_miss by exact Hmiss.
  rewrite while_collisions_step.
  match goal with
  | |- context [loop_guard ?st] => change (loop_guard st) with false
  end.
  reflexivity.
Qed.

(** A ball that hits one brick after its move and, once pushed out, overlaps
    none of the bricks left: two passes, one hit. *)
Lemma step_ball_one_hit b g hit rest :
  Ball.launched b && Ball.active b = true ->
  hit_first (Ball.update b) (bricks g) = Some (hit, rest) ->
  Forall (fun k =>
            ball_colliding_brick
              (resolve_collision
                 (Ball.set_collision_cooldown 10 (Ball.update b)) hit) k =
            false) rest ->
  step_ball b g =
  (resolve_collision (Ball.set_collision_cooldown 10 (Ball.update b)) hit,
   set_bricks rest (add_hit_score g)).
Proof.
  intros H Hhit Hmiss. unfold step_ball. rewrite H.
  rewrite while_collisions_step.
  change (loop_guard (mkLoop (Ball.update b) g true 0)) with true. cbv iota.
  rewrite (loop_body_hit (mkLoop (Ball.update b) g true 0) hit rest Hhit).
  cbn [l_ball l_game iterations]. fold (add_hit_score g).
  rewrite while_collisions_step.
  match goal with
  | |- context [loop_guard ?st] => change (loop_guard st) with true
  end.
  cbv iota.
  rewrite loop_body_miss by exact Hmiss.
  rewrite while_collisions_step.
  match goal with
  | |- context [loop_guard ?st] => change (loop_guard st) with false
  end.
  reflexivity.
Qed.

(** The ball list after the ball loop, for a list of two. *)
Lemma for_balls_two g b0 b1 b0' g0' b1' g1' :
  balls_to_fire g = [b0; b1] ->
  step_ball b0 g = (b0', g0') -> step_ball b1 g0' = (b1', g1') ->
  for_balls g = set_balls_to_fire [b0'; b1'] g1'.
Proof.
  intros Hb H0 H1. unfold for_balls. rewrite Hb. cbn [update_balls].
  rewrite H0, H1. reflexivity.
Qed.

(** A frame of a round under way that does not end the round and in which
    no brick is in row 9: what is left of it after the ball loop. *)
Lemma tick_in_flight w g :
  let g1 := for_balls (launch_due (events_phase w g)) in
  game_over (events_phase w g) = false ->
  firing (events_phase w g) = true ->
  all_returned g1 = false ->
  Forall (fun k => (Brick.row k < 9)%Z) (bricks g1) ->
  (0 < lives (events_phase w g))%Z ->
  bricks (tick w g) = bricks g1 /\ score (tick w g) = score g1 /\
  balls_to_fire (tick w g) = balls_to_fire g1 /\
  dying_bricks (tick w g) =
    filter (fun item => (0 <? timer item)%Z)
           (map (fun item => mkDying (brick item) (timer item - 1))
                (dying_bricks (events_phase w g))).
Proof.
  cbv zeta. intros Hgo Hf Hall Hrows Hl.
  set (g0 := events_phase w g) in *.
  set (g1 := for_balls (launch_due g0)) in *.
  assert (F : firing_block (next_turn_cols w) g0 = g1).
  { unfold firing_block. cbv zeta. fold g1. now rewrite Hall. }
  destruct (firing_block_keeps (next_turn_cols w) g0) as (Kl & _ & _ & Kd & _).
  rewrite F in Kl, Kd.
  assert (C : check_bricks_bottom g1 = g1).
  { unfold check_bricks_bottom. now apply check_bricks_loop_none. }
  unfold tick. cbv zeta. fold g0. rewrite Hgo. cbn [negb].
  unfold gameplay. cbv zeta. rewrite Hf, F, C, Kl.
  destruct (lives g0 <=? 0)%Z eqn:E; [apply Z.leb_le in E; lia|].
  unfold tick_fade. case_ifs; gsimpl; rewrite Kd; repeat split.
Qed.

(** ** C1: the hit that takes the last hit point *)

Lemma rising_ball_update :
  Ball.update rising_ball =
  {| Ball.x := 130 + 0; Ball.y := 111 + - (12); Ball.angle := PI / 2;
     Ball.dx := 0; Ball.dy := - (12);
     Ball.active := true; Ball.launched := true;
     Ball.delay := 100; Ball.collision_cooldown := 0 |}.
Proof. unfold rising_ball. eval_update. reflexivity. Qed.

(** The ball loop of that frame: the first ball touches the bottom edge of
    the brick, which loses its last hit point and leaves the list; the
    second ball moves on. *)
Lemma last_hit_for_balls :
  for_balls (launch_due (events_phase quiet_frame last_hit_game)) =
  set_balls_to_fire
    [resolve_collision
       (Ball.set_collision_cooldown 10 (Ball.update rising_ball))
       (Brick.set_value 0 (Brick.init 2 1 1));
     Ball.update follower_ball]
    (set_bricks [] (add_hit_score (events_phase quiet_frame last_hit_game))).
Proof.
  set (g0 := events_phase quiet_frame last_hit_game).
  assert (L : launch_due g0 = g0) by reflexivity.
  rewrite L.
  eapply (for_balls_two g0 rising_ball follower_ball); [reflexivity| |].
  - apply step_ball_one_hit; [reflexivity| |constructor].
    change (bricks g0) with [Brick.init 2 1 1]. cbn [hit_first].
    rewrite colliding_within; [reflexivity| |];
      destruct (rect_edges (Brick.init 2 1 1)) as (El & Er & Et & Eb);
      cbn [Brick.col Brick.row Brick.init] in El, Er, Et, Eb;
      rewrite rising_ball_update; cbn [Ball.x Ball.y]; lra.
  - apply step_ball_no_hit; [reflexivity | constructor].
Qed.

(** C1, on the code.  In the frame of [last_hit_game] the first ball
    strikes the brick that has one hit point left.  The frame ends with the
    brick gone from the live list and the score up by 10, and with the dying
    list as empty as it was: the removal after a hit adds no entry to it. *)
Theorem last_hit_leaves_no_dying_entry :
  let g' := tick quiet_frame last_hit_game in
  bricks last_hit_game = [Brick.init 2 1 1] /\
  bricks g' = [] /\
  score g' = (score last_hit_game + 10)%Z /\
  dying_bricks last_hit_game = [] /\
  dying_bricks g' = [].
Proof.
  pose proof last_hit_for_balls as E.
  destruct (resolve_collision_frame
              (Ball.set_collision_cooldown 10 (Ball.update rising_ball))
              (Brick.set_value 0 (Brick.init 2 1 1))) as (Ea & _).
  rewrite rising_ball_update in Ea at 2. cbn [Ball.active Ball.set_collision_cooldown] in Ea.
  destruct (tick_in_flight quiet_frame last_hit_game) as (Hb & Hs & _ & Hd).
  - reflexivity.
  - reflexivity.
  - rewrite E. unfold all_returned. gsimpl. cbn [forallb].
    rewrite Ea, andb_false_r. reflexivity.
  - rewrite E. constructor.
  - cbn. lia.
  - cbv zeta. rewrite Hb, Hs, Hd, E. repeat split.
Qed.

(** ** C4: a frame that ends with an active ball outside the field *)




(** ** C6: the launch origin of the next round *)

Lemma landing_ball_update : Ball.update landing_ball = landed_ball.
Proof. unfold landing_ball. eval_update. reflexivity. Qed.

Lemma landing_for_balls :
  for_balls (launch_due (events_phase quiet_frame landing_game)) =
  set_balls_to_fire [resting_ball; landed_ball]
                    (events_phase quiet_frame landing_game).
Proof.
  set (g0 := events_phase quiet_frame landing_game).
  assert (L : launch_due g0 = g0) by reflexivity.
  rewrite L.
  eapply (for_balls_two g0 resting_ball landing_ball);
    [reflexivity | apply step_ball_idle; reflexivity |].
  rewrite <- landing_ball_update.
  apply step_ball_no_hit; [reflexivity|].
  change (bricks g0) with [Brick.init 4 1 1].
  constructor; [|constructor]. apply not_colliding_below.
  destruct (rect_edges (Brick.init 4 1 1)) as (_ & _ & _ & E).
  rewrite E, landing_ball_update. cbn. lra.
Qed.

Lemma int_of_float_resting : int_of_float (Ball.x resting_ball) = 100%Z.
Proof.
  unfold int_of_float. cbn [Ball.x resting_ball].
  destruct (Rle_dec 0 (201 / 2)) as [_|N]; [|exfalso; apply N; lra].
  symmetry. apply Int_part_spec. lra.
Qed.

(** C6, as stated, fails in its part on the launch origin.  In the frame of
    [landing_game] the last ball reaches the floor and the round ends
    ([firing] goes from true to false); the first position on record is
    [100.5], and the next launch origin is 100, which is not [100.5] clamped
    to [[BALL_RADIUS, SCREEN_WIDTH - BALL_RADIUS]]. *)
Lemma next_origin_is_truncated :
  let g' := tick quiet_frame landing_game in
  firing landing_game = true /\ firing g' = false /\
  map Ball.x
      (balls_to_fire
         (for_balls (launch_due (events_phase quiet_frame landing_game)))) =
    [201 / 2; 200 + 36 / 5] /\
  base_x g' = 100%Z /\
  IZR (base_x g') <>
    clamp (201 / 2) (IZR BALL_RADIUS) (IZR (SCREEN_WIDTH - BALL_RADIUS)).
Proof.
  pose proof landing_for_balls as LF.
  set (g0 := events_phase quiet_frame landing_game) in *.
  assert (Hgo : game_over g0 = false) by reflexivity.
  assert (Hf : firing g0 = true) by reflexivity.
  destruct (tick_after_firing_block quiet_frame landing_game Hgo Hf)
    as (A & _ & C & _).
  fold g0 in A, C.
  assert (E : firing_block (next_turn_cols quiet_frame) g0 =
              finish_round (next_turn_cols quiet_frame)
                (set_balls_to_fire [resting_ball; landed_ball] g0)).
  { unfold firing_block. cbv zeta. rewrite LF. reflexivity. }
  rewrite E in A, C.
  destruct (finish_round_eq (next_turn_cols quiet_frame)
              (set_balls_to_fire [resting_ball; landed_ball] g0) eq_refl)
    as (E1 & _ & _ & _ & E5 & _).
  gsimpl_in E5. rewrite int_of_float_resting in E5.
  cbv zeta. rewrite A, C, E1, E5, LF.
  split; [reflexivity|]. split; [reflexivity|]. split; [reflexivity|].
  split; [reflexivity|].
  change (IZR (Z.max BALL_RADIUS (Z.min (SCREEN_WIDTH - BALL_RADIUS) 100)))
    with 100.
  change (IZR (SCREEN_WIDTH - BALL_RADIUS)) with 295.
  unfold BALL_RADIUS. rewrite clamp_mid by lra. lra.
Qed.

Lemma round_completes_when_all_returned_witness :
  firing (tick quiet_frame landing_game) = false /\
  level (tick quiet_frame landing_game) = 2%Z /\
  base_x (tick quiet_frame landing_game) = 100%Z.
Proof.
  destruct round_completes_when_all_returned as [R _].
  destruct (R quiet_frame landing_game eq_refl eq_refl eq_refl) as [H _].
  destruct H as (A & B & C & _).
  - rewrite landing_for_balls. reflexivity.
  - rewrite landing_for_balls in C. gsimpl_in C.
    rewrite int_of_float_resting in C.
    split; [exact A|]. split; [exact B | exact C].
Defined.

(** ** C9: the loop on a concrete ball *)

Lemma collision_loop_capped_witness :
  exists n : nat,
    (n <= 10)%nat /\
    step_ball rising_ball last_hit_game =
    (l_ball (Nat.iter n loop_body
               (mkLoop (Ball.update rising_ball) last_hit_game true 0)),
     l_game (Nat.iter n loop_body
               (mkLoop (Ball.update rising_ball) last_hit_game true 0))).
Proof.
  destruct (collision_loop_capped rising_ball last_hit_game eq_refl eq_refl)
    as (n & Hn & H & _).
  exists n. split; [exact Hn | exact H].
Defined.

(** ** C5: the frame in which a brick reaches row 9 *)

(** C5.  When, at the breach check of a frame, some live brick is in row
    [MAX_ROWS - 1] (row 9) or below, the check takes exactly one life
    however many bricks offend, sets the lives-flash timer to 30, removes
    from the live list every brick in row [MAX_ROWS - 3] (row 7) or below,
    keeping the others in order, and appends each removed brick to the dying
    list; the frame as a whole loses that one life, and its live bricks are
    the ones the check left.  Between frames no live brick is in row 9 or
    below, so every breach is met by the check of the frame in which it
    arises. *)
Theorem bottom_breach_costs_one_life :
  (forall (w : Frame) (g : Game),
      let g0 := events_phase w g in
      let g1 := if firing g0 then firing_block (next_turn_cols w) g0 else g0 in
      let g2 := check_bricks_bottom g1 in
      game_over g0 = false ->
      Exists (fun k => (MAX_ROWS - 1 <= Brick.row k)%Z) (bricks g1) ->
      lives g2 = (lives g1 - 1)%Z /\
      lives_flash_timer g2 = 30%Z /\
      bricks g2 =
        filter (fun k => (Brick.row k <? MAX_ROWS - 3)%Z) (bricks g1) /\
      dying_bricks g2 =
        dying_bricks g1 ++
        map (fun k => mkDying k 30)
            (filter (fun k => (MAX_ROWS - 3 <=? Brick.row k)%Z) (bricks g1)) /\
      lives (tick w g) = (lives g0 - 1)%Z /\
      bricks (tick w g) = bricks g2) /\
  (forall g, reachable g ->
             Forall (fun k => (Brick.row k < MAX_ROWS - 1)%Z) (bricks g)).
Proof.
  split.
  - intros w g g0 g1 g2 Hgo Hex.
    assert (E : g2 =
                remove_bottom_rows 3
                  (set_lives_flash_timer 30 (set_lives (lives g1 - 1) g1))).
    { destruct (check_bricks_bottom_cases g1) as [[Hall _]|[_ E]]; [|exact E].
      exfalso. change (MAX_ROWS - 1)%Z with 9%Z in Hex.
      apply Exists_exists in Hex as (k & Hin & Hk).
      rewrite Forall_forall in Hall. specialize (Hall k Hin).
      cbv beta in Hall. lia. }
    assert (L : lives g1 = lives g0).
    { subst g1. destruct (firing g0); [apply firing_block_keeps | reflexivity]. }
    rewrite tick_lives, tick_bricks. fold g0. rewrite Hgo. fold g1. fold g2.
    rewrite E, remove_bottom_rows_eq. gsimpl. rewrite L.
    repeat split; reflexivity.
  - intros g Hr. destruct (field_ok_reachable g Hr) as [H _].
    eapply Forall_impl; [|exact H]. intros k Hk. cbv beta in Hk.
    change (MAX_ROWS - 1)%Z with 9%Z. lia.
Qed.

Lemma update_balls_idle todo g :
  Forall (fun b => Ball.launched b && Ball.active b = false) todo ->
  update_balls todo g = (todo, g).
Proof.
  induction 1 as [|b todo Hb _ IH]; cbn [update_balls]; [reflexivity|].
  rewrite (step_ball_idle b g Hb), IH. reflexivity.
Qed.

(** The ball list after the ball loop when every ball but the first is
    passed over. *)
Lemma for_balls_head g b rest b' g' :
  balls_to_fire g = b :: rest ->
  step_ball b g = (b', g') ->
  Forall (fun b => Ball.launched b && Ball.active b = false) rest ->
  for_balls g = set_balls_to_fire (b' :: rest) g'.
Proof.
  intros Hb H0 Hrest. unfold for_balls. rewrite Hb. cbn [update_balls].
  rewrite H0, (update_balls_idle rest g' Hrest). reflexivity.
Qed.

Lemma breach_for_balls :
  for_balls (launch_due (events_phase breach_frame breach_game)) =
  set_balls_to_fire (landed_ball :: repeat resting_ball 15)
                    (events_phase breach_frame breach_game).
Proof.
  set (g0 := events_phase breach_frame breach_game).
  assert (L : launch_due g0 = g0) by reflexivity.
  rewrite L.
  apply (for_balls_head g0 landing_ball (repeat resting_ball 15));
    [reflexivity | | cbn [repeat]; repeat constructor].
  rewrite <- landing_ball_update.
  apply step_ball_no_hit; [reflexivity|].
  change (bricks g0) with (bricks breach_game). unfold breach_game. gsimpl.
  repeat constructor; apply not_colliding_below;
    match goal with
    | |- rbottom ?k + 5 <= _ =>
        destruct (rect_edges k) as (_ & _ & _ & E); rewrite E
    end;
    rewrite landing_ball_update; cbn; lra.
Qed.

Lemma bottom_breach_costs_one_life_witness :
  lives (tick breach_frame breach_game) = 2%Z /\
  bricks (tick breach_frame breach_game) =
    [Brick.make 3 6 4 4; Brick.make 4 2 8 8; Brick.init 5 1 9].
Proof.
  pose proof breach_for_balls as LF.
  assert (F : firing_block (next_turn_cols breach_frame)
                (events_phase breach_frame breach_game) =
              finish_round (next_turn_cols breach_frame)
                (set_balls_to_fire (landed_ball :: repeat resting_ball 15)
                   (events_phase breach_frame breach_game))).
  { unfold firing_block. cbv zeta. rewrite LF. reflexivity. }
  destruct (finish_round_eq (next_turn_cols breach_frame)
              (set_balls_to_fire (landed_ball :: repeat resting_ball 15)
                 (events_phase breach_frame breach_game)) eq_refl)
    as (_ & _ & _ & _ & _ & E6 & _).
  rewrite <- F in E6.
  destruct bottom_breach_costs_one_life as [H0 _].
  pose proof (H0 breach_frame breach_game) as H.
  cbv zeta in H.
  change (firing (events_phase breach_frame breach_game)) with true in H.
  cbv iota in H.
  destruct (H eq_refl) as (_ & _ & Hb2 & _ & Hl & Hb).
  - rewrite E6. constructor. cbn. unfold MAX_ROWS. cbn. lia.
  - split; [exact Hl|]. rewrite Hb, Hb2, E6. reflexivity.
Defined.

(** * Further properties of the script *)

Local Close Scope R_scope.

(** ** [format_number] *)

Lemma Int_part_unique v (z : Z) :
  (IZR z <= v < IZR z + 1)%R -> Int_part v = z.
Proof.
  intros [H1 H2]. destruct (base_Int_part v) as [B1 B2].
  assert (A : (IZR (Int_part v) < IZR (z + 1))%R) by (rewrite plus_IZR; lra).
  assert (B : (IZR z < IZR (Int_part v + 1))%R) by (rewrite plus_IZR; lra).
  apply lt_IZR in A, B. lia.
Qed.

Lemma round_half_even_near v (q : Z) :
  (IZR q - 1 / 2 < v < IZR q + 1 / 2)%R -> round_half_even v = q.
Proof.
  intros [H1 H2]. unfold round_half_even. cbv zeta.
  destruct (Rle_dec (IZR q) v) as [G|G].
  - rewrite (Int_part_unique v q) by lra.
    rewrite Rltb_true by lra. reflexivity.
  - rewrite (Int_part_unique v (q - 1)) by (rewrite minus_IZR; lra).
    rewrite minus_IZR.
    rewrite Rltb_false by lra. rewrite Rltb_true by lra. lia.
Qed.

Lemma round_half_even_tie (q : Z) :
  round_half_even (IZR q + 1 / 2) = if Z.even q then q else q + 1.
Proof.
  unfold round_half_even. cbv zeta.
  rewrite (Int_part_unique (IZR q + 1 / 2) q) by lra.
  rewrite !Rltb_false by lra. reflexivity.
Qed.

Lemma pow_2_43 : (2 ^ 43 = 8796093022208)%R.
Proof. rewrite pow_IZR. reflexivity. Qed.

(** A value that is itself a float is its own nearest float. *)
Lemma nearest_float_exact v f : nearest_float v f -> is_float v -> f = v.
Proof.
  intros [_ H] Hv. specialize (H v Hv).
  replace (v - v)%R with 0%R in H by ring. rewrite Rabs_R0 in H.
  pose proof (Rabs_pos (f - v)) as P.
  destruct (Req_dec (f - v) 0) as [Z0|N0]; [lra|].
  apply Rabs_no_R0 in N0. lra.
Qed.

(** Below 1024 the floats are at most [2^-43] apart. *)
Lemma nearest_float_close v f :
  (0 <= v < 1024)%R -> nearest_float v f ->
  (Rabs (f - v) < 1 / 8796093022208)%R.
Proof.
  intros [V0 V1] [_ H].
  set (m := Int_part (v * 8796093022208)).
  destruct (base_Int_part (v * 8796093022208)) as [B1 B2]. fold m in B1, B2.
  assert (M0 : 0 <= m).
  { assert (A : (IZR (-1) < IZR m)%R) by (cbn; nra). apply lt_IZR in A. lia. }
  assert (M1 : m < 2 ^ 53).
  { apply lt_IZR. change (IZR (2 ^ 53)) with 9007199254740992%R. nra. }
  assert (F : is_float (IZR m / 2 ^ 43)).
  { exists m, 43%nat. split; [lia | now right]. }
  specialize (H _ F). rewrite pow_2_43 in H.
  assert (C : (Rabs (IZR m / 8796093022208 - v) < 1 / 8796093022208)%R).
  { apply Rabs_def1; lra. }
  lra.
Qed.

(** The float quotient is never on the other side of a half from the exact
    quotient, so the integer shown is the exact quotient rounded half to
    even. *)
Lemma round_quotient n d f :
  0 < d <= 1000000000000 -> 0 <= n < 1000 * d ->
  nearest_float (IZR n / IZR d) f ->
  round_half_even f = round_div n d.
Proof.
  intros [D0 D1] [N0 N1] Hf.
  pose proof (Z.div_mod n d ltac:(lia)) as E.
  pose proof (Z.mod_pos_bound n d D0) as [R0 R1].
  assert (Q0 : 0 <= n / d) by (apply Z.div_pos; lia).
  assert (Q1 : n / d < 1000) by (apply Z.div_lt_upper_bound; lia).
  unfold round_div. cbv zeta.
  set (q := n / d) in *. set (r := n mod d) in *.
  assert (Dr : (0 < IZR d)%R) by (apply (IZR_lt 0); lia).
  assert (Dr1 : (IZR d <= 1000000000000)%R) by (apply IZR_le; lia).
  assert (V : (IZR n / IZR d = IZR q + IZR r / IZR d)%R).
  { rewrite E, plus_IZR, mult_IZR. field. lra. }
  assert (Rr0 : (0 <= IZR r)%R) by (apply (IZR_le 0); lia).
  assert (Rr1 : (IZR r < IZR d)%R) by (apply IZR_lt; lia).
  assert (Qr0 : (0 <= IZR q)%R) by (apply (IZR_le 0); lia).
  assert (Qr1 : (IZR q <= 999)%R) by (apply (IZR_le _ 999); lia).
  assert (T0 : (0 <= IZR r / IZR d < 1)%R).
  { split; [apply Rle_mult_inv_pos; lra|].
    apply (Rmult_lt_reg_r (IZR d)); [lra|]. unfold Rdiv.
    rewrite Rmult_assoc, Rinv_l by lra. lra. }
  assert (Close : (Rabs (f - IZR n / IZR d) < 1 / 8796093022208)%R).
  { apply nearest_float_close; [|exact Hf]. rewrite V. lra. }
  apply Rabs_def2 in Close. rewrite V in Close.
  set (t := (IZR r / IZR d)%R) in *.
  assert (Td : (t * IZR d = IZR r)%R) by (unfold t; field; lra).
  assert (Gap : (1 / 8796093022208 < 1 / (2 * IZR d))%R).
  { apply Rmult_lt_reg_r with (2 * IZR d * 8796093022208)%R; [lra|].
    field_simplify; lra. }
  assert (Half : (1 / (2 * IZR d) * (2 * IZR d) = 1)%R) by (field; lra).
  set (h := (1 / (2 * IZR d))%R) in *.
  destruct (2 * r <? d) eqn:C1.
  { apply Z.ltb_lt in C1. apply round_half_even_near.
    assert (A : (2 * IZR r + 1 <= IZR d)%R).
    { rewrite <- (mult_IZR 2), <- (plus_IZR _ 1). apply IZR_le. lia. }
    assert (t <= 1 / 2 - h)%R; [|lra].
    apply (Rmult_le_reg_r (2 * IZR d)); [lra|]. nra. }
  destruct (d <? 2 * r) eqn:C2.
  { apply Z.ltb_lt in C2. apply round_half_even_near. rewrite plus_IZR.
    assert (A : (IZR d + 1 <= 2 * IZR r)%R).
    { rewrite <- (mult_IZR 2), <- (plus_IZR _ 1). apply IZR_le. lia. }
    assert (1 / 2 + h <= t)%R; [|lra].
    apply (Rmult_le_reg_r (2 * IZR d)); [lra|]. nra. }
  apply Z.ltb_ge in C1, C2.
  assert (Er : d = 2 * r) by lia.
  assert (Et : t = (1 / 2)%R).
  { unfold t. rewrite Er, mult_IZR. field.
    assert (0 < IZR r)%R; [|lra]. apply (IZR_lt 0). lia. }
  assert (Fv : is_float (IZR n / IZR d)).
  { exists (2 * q + 1), 1%nat. split; [lia|]. right.
    rewrite V. fold t. rewrite Et, plus_IZR, mult_IZR. cbn. field. }
  rewrite (nearest_float_exact _ _ Hf Fv), V. fold t. rewrite Et.
  apply round_half_even_tie.
Qed.

(** How far the rounded quotient is from the exact one. *)
Lemma round_div_bounds n d :
  0 < d -> d <= n < 1000 * d ->
  1 <= round_div n d <= 1000 /\ 2 * Z.abs (n - d * round_div n d) <= d.
Proof.
  intros D0 [N0 N1].
  pose proof (Z.div_mod n d ltac:(lia)) as E.
  pose proof (Z.mod_pos_bound n d D0) as [R0 R1].
  assert (Q0 : 1 <= n / d) by (apply Z.div_le_lower_bound; lia).
  assert (Q1 : n / d < 1000) by (apply Z.div_lt_upper_bound; lia).
  unfold round_div. cbv zeta.
  set (q := n / d) in *. set (r := n mod d) in *.
  destruct (2 * r <? d) eqn:C1;
    [apply Z.ltb_lt in C1 | apply Z.ltb_ge in C1].
  { split; [lia|]. replace (n - d * q) with r by lia. lia. }
  destruct (d <? 2 * r) eqn:C2;
    [apply Z.ltb_lt in C2 | apply Z.ltb_ge in C2].
  { split; [lia|]. replace (n - d * (q + 1)) with (r - d) by lia. lia. }
  destruct (Z.even q).
  - split; [lia|]. replace (n - d * q) with r by lia. lia.
  - split; [lia|]. replace (n - d * (q + 1)) with (r - d) by lia. lia.
Qed.

(** A quotient that is itself a float is what the division returns. *)
Lemma exact_div_nearest a b m e :
  Z.abs m < 2 ^ 53 -> (IZR a / IZR b = IZR m / 2 ^ e)%R ->
  nearest_float (IZR a / IZR b) (exact_div a b).
Proof.
  intros Hm E. unfold exact_div. split.
  - exists m, e. split; [exact Hm | now right].
  - intros f' _. replace (IZR a / IZR b - IZR a / IZR b)%R with 0%R by ring.
    rewrite Rabs_R0. apply Rabs_pos.
Qed.

Section FormatNumberFacts.

Import String.

Variable true_div : Z -> Z -> R.

Lemma format_number_unit num unit letter :
  In (unit, letter)
     [(1000, "k"%string); (1000000, "m"%string); (1000000000, "b"%string);
      (1000000000000, "t"%string)] ->
  unit <= num < 1000 * unit ->
  format_number true_div num = shorthand true_div num unit letter.
Proof.
  intros Hin Hn. unfold format_number.
  destruct Hin as [E|[E|[E|[E|[]]]]]; injection E as <- <-;
    repeat match goal with
           | |- context [num <? ?c] =>
               first [rewrite (proj2 (Z.ltb_lt num c)) by lia
                     |rewrite (proj2 (Z.ltb_ge num c)) by lia]
           end; reflexivity.
Qed.

(** X7.  What [format_number] shows: the number itself below a thousand and from
    [10^15] on; between them, for the unit 1000, [10^6], [10^9] or [10^12]
    whose range [unit <= num < 1000 * unit] holds the number, the quotient
    [num / unit] rounded to the nearest integer, half to even, followed by
    the letter of the unit.  The float division cannot change that integer,
    which is between 1 and 1000 and at most half a unit away from the
    number. *)
Theorem format_number_rounds_to_nearest :
  forall (num unit : Z) (letter : string),
    (num < 1000 \/ 1000000000000000 <= num ->
     format_number true_div num = str num) /\
    (In (unit, letter)
        [(1000, "k"%string); (1000000, "m"%string); (1000000000, "b"%string);
         (1000000000000, "t"%string)] ->
     unit <= num < 1000 * unit ->
     nearest_float (IZR num / IZR unit) (true_div num unit) ->
     format_number true_div num = (str (round_div num unit) ++ letter)%string /\
     1 <= round_div num unit <= 1000 /\
     2 * Z.abs (num - unit * round_div num unit) <= unit).
Proof.
  intros num unit letter. split.
  - intros H. unfold format_number.
    repeat match goal with
           | |- context [num <? ?c] =>
               destruct (num <? c) eqn:?
           end;
      try reflexivity;
      repeat match goal with
             | H : (_ <? _) = true |- _ => apply Z.ltb_lt in H
             | H : (_ <? _) = false |- _ => apply Z.ltb_ge in H
             end; lia.
  - intros Hin Hn Hf.
    assert (U : 0 < unit <= 1000000000000).
    { destruct Hin as [E|[E|[E|[E|[]]]]]; injection E as <- _; lia. }
    rewrite (format_number_unit num unit letter Hin Hn). unfold shorthand.
    rewrite (round_quotient num unit _ U ltac:(lia) Hf).
    split; [reflexivity|]. apply round_div_bounds; lia.
Qed.

(** X8.  The top half unit of every range is shown as a thousand of the unit of
    that range: a score of 999500 to 999999 as [1000k], not as [1m]. *)
Theorem format_number_top_of_range :
  forall (num unit : Z) (letter : string),
    In (unit, letter)
       [(1000, "k"%string); (1000000, "m"%string); (1000000000, "b"%string);
        (1000000000000, "t"%string)] ->
    2 * num >= 1999 * unit -> num < 1000 * unit ->
    nearest_float (IZR num / IZR unit) (true_div num unit) ->
    format_number true_div num = ("1000" ++ letter)%string.
Proof.
  intros num unit letter Hin H1 H2 Hf.
  assert (U : 0 < unit <= 1000000000000).
  { destruct Hin as [E|[E|[E|[E|[]]]]]; injection E as <- _; lia. }
  rewrite (format_number_unit num unit letter Hin ltac:(lia)). unfold shorthand.
  rewrite (round_quotient num unit _ U ltac:(lia) Hf).
  assert (Q : num / unit = 999).
  { symmetry. apply Z.div_unique with (num - 999 * unit); lia. }
  assert (R : num mod unit = num - 999 * unit).
  { symmetry. apply Z.mod_unique with 999; lia. }
  assert (E : round_div num unit = 1000).
  { unfold round_div. cbv zeta. rewrite Q, R.
    destruct (2 * (num - 999 * unit) <? unit) eqn:C1;
      [apply Z.ltb_lt in C1; lia|].
    destruct (unit <? 2 * (num - 999 * unit)); reflexivity. }
  rewrite E. reflexivity.
Qed.

End FormatNumberFacts.

Section FormatNumberExamples.

Import String.

(** 2500 over 1000 is the float 2.5, half-way between 2 and 3: the even one
    is shown. *)
Lemma format_number_rounds_to_nearest_witness :
  format_number exact_div 2500 = "2k"%string.
Proof.
  destruct (format_number_rounds_to_nearest exact_div 2500 1000 "k"%string)
    as [_ H].
  destruct H as (E & _).
  - now left.
  - lia.
  - apply (exact_div_nearest 2500 1000 5 1); [reflexivity | lra].
  - exact E.
Defined.

(** 999500 over 1000 is the float 999.5. *)
Lemma format_number_top_of_range_witness :
  format_number exact_div 999500 = "1000k"%string.
Proof.
  apply (format_number_top_of_range exact_div 999500 1000 "k"%string).
  - now left.
  - lia.
  - lia.
  - apply (exact_div_nearest 999500 1000 1999 1); [reflexivity | lra].
Defined.

End FormatNumberExamples.

(** ** The utility functions *)

Local Open Scope R_scope.

(** The three positions of a value with respect to an interval, with what
    [clamp] returns in each. *)
Lemma clamp_cases v lo hi :
  lo <= hi ->
  (v <= lo /\ clamp v lo hi = lo) \/
  (lo <= v <= hi /\ clamp v lo hi = v) \/
  (hi <= v /\ clamp v lo hi = hi).
Proof.
  intros H. destruct (Rle_dec v lo); [left; split; [assumption|]; now apply clamp_low|].
  destruct (Rle_dec v hi).
  - right; left. split; [lra|]. apply clamp_mid. lra.
  - right; right. split; [lra|]. apply clamp_high; lra.
Qed.

(** [clamp] returns the point of the interval nearest to the value. *)
Lemma clamp_nearest v lo hi p :
  lo <= hi -> lo <= p <= hi ->
  (v - clamp v lo hi) * (v - clamp v lo hi) <= (v - p) * (v - p).
Proof.
  intros H [Hp1 Hp2].
  destruct (clamp_cases v lo hi H) as [[A ->]|[[[A1 A2] ->]|[A ->]]].
  - pose proof (Rmult_le_pos (p - lo) (lo + p - 2 * v)
                  ltac:(lra) ltac:(lra)). lra.
  - pose proof (Rle_0_sqr (v - p)) as S. unfold Rsqr in S. lra.
  - pose proof (Rmult_le_pos (hi - p) (2 * v - hi - p)
                  ltac:(lra) ltac:(lra)). lra.
Qed.

(** X1.  [clamp]: with bounds in order the result is in the interval, it is the
    value itself when the value is in the interval, and no point of the
    interval is nearer to the value; with the bounds the wrong way round the
    result is [min_val]. *)
Theorem clamp_nearest_point :
  forall v lo hi : R,
    (lo <= hi ->
     lo <= clamp v lo hi <= hi /\
     (lo <= v <= hi -> clamp v lo hi = v) /\
     (forall p, lo <= p <= hi ->
                Rabs (v - clamp v lo hi) <= Rabs (v - p))) /\
    (hi < lo -> clamp v lo hi = lo).
Proof.
  intros v lo hi. split.
  - intros H. split; [|split].
    + destruct (clamp_cases v lo hi H) as [[A ->]|[[[A1 A2] ->]|[A ->]]]; lra.
    + apply clamp_mid.
    + intros p Hp. pose proof (clamp_nearest v lo hi p H Hp) as N.
      apply Rsqr_le_abs_0. unfold Rsqr. exact N.
  - intros H. unfold clamp. apply Rmax_left.
    destruct (Rle_dec v hi); [rewrite Rmin_left | rewrite Rmin_right]; lra.
Qed.

Lemma clamp_nearest_point_witness :
  clamp 312 1 49 = 49 /\ clamp 312 49 1 = 49.
Proof.
  destruct (clamp_nearest_point 312 1 49) as [H _].
  destruct (H ltac:(lra)) as ([A B] & _ & N).
  destruct (clamp_nearest_point 312 49 1) as [_ K].
  split; [|apply K; lra].
  specialize (N 49 ltac:(lra)).
  rewrite !Rabs_pos_eq in N by lra. lra.
Defined.



(** ** Overlap of a ball and a brick *)






(** ** The rectangles of the grid *)

Lemma collidepoint_edges k px py :
  Rect.collidepoint (Brick.rect k) px py = true <->
  50 * IZR (Brick.col k) + 1 <= px < 50 * IZR (Brick.col k) + 49 /\
  50 * IZR (Brick.row k) + 1 <= py < 50 * IZR (Brick.row k) + 49.
Proof.
  destruct (rect_edges k) as (A & B & C & D).
  unfold Rect.collidepoint. fold (rleft k) (rright k) (rtop k) (rbottom k).
  rewrite A, B, C, D, !andb_true_iff, !Rleb_spec, !Rltb_spec. tauto.
Qed.

(** Two integers whose 48-wide windows [[50 c + 1, 50 c + 49)] share a
    point are equal. *)
Lemma window_unique (c1 c2 : Z) p :
  50 * IZR c1 + 1 <= p < 50 * IZR c1 + 49 ->
  50 * IZR c2 + 1 <= p < 50 * IZR c2 + 49 -> c1 = c2.
Proof.
  intros [A1 A2] [B1 B2].
  assert (L1 : IZR c1 < IZR (c2 + 1)) by (rewrite plus_IZR; lra).
  assert (L2 : IZR c2 < IZR (c1 + 1)) by (rewrite plus_IZR; lra).
  apply lt_IZR in L1, L2. apply Z.le_antisymm; apply Z.lt_succ_r; assumption.
Qed.

Lemma collidepoint_same_cell k1 k2 px py :
  Rect.collidepoint (Brick.rect k1) px py = true ->
  Rect.collidepoint (Brick.rect k2) px py = true ->
  cell k1 = cell k2.
Proof.
  intros H1 H2. apply collidepoint_edges in H1 as [X1 Y1], H2 as [X2 Y2].
  unfold cell. f_equal; eapply window_unique; eassumption.
Qed.

(** X4.  [Brick.rect]: the rectangle of a brick lies strictly inside the cell of
    the brick, the rectangles of two bricks in different cells have no
    point in common, and the rectangle of a brick of the grid lies strictly
    inside the screen. *)
Theorem brick_rects_apart :
  forall (k1 k2 : Brick.t) (px py : R),
    Rect.collidepoint (Brick.rect k1) px py = true ->
    (IZR (Brick.col k1 * BRICK_SIZE) < px < IZR ((Brick.col k1 + 1) * BRICK_SIZE) /\
     IZR (Brick.row k1 * BRICK_SIZE) < py < IZR ((Brick.row k1 + 1) * BRICK_SIZE)) /\
    (cell k1 <> cell k2 ->
     Rect.collidepoint (Brick.rect k2) px py = false) /\
    ((0 <= Brick.col k1 < BRICK_COLS)%Z -> (0 <= Brick.row k1 < MAX_ROWS)%Z ->
     0 < px < IZR SCREEN_WIDTH /\ 0 < py < IZR SCREEN_HEIGHT).
Proof.
  intros k1 k2 px py H. pose proof H as H'.
  apply collidepoint_edges in H' as [[X1 X2] [Y1 Y2]].
  unfold BRICK_SIZE. rewrite !mult_IZR, !plus_IZR.
  split; [lra|]. split.
  - intros Hc. destruct (Rect.collidepoint (Brick.rect k2) px py) eqn:E;
      [|reflexivity].
    exfalso. apply Hc. eapply collidepoint_same_cell; eassumption.
  - intros [C0 C1] [R0 R1].
    change BRICK_COLS with 6%Z in C1. change MAX_ROWS with 10%Z in R1.
    assert (0 <= IZR (Brick.col k1) <= 5)
      by (split; [apply (IZR_le 0) | apply (IZR_le _ 5)]; lia).
    assert (0 <= IZR (Brick.row k1) <= 9)
      by (split; [apply (IZR_le 0) | apply (IZR_le _ 9)]; lia).
    unfold SCREEN_WIDTH, SCREEN_HEIGHT. lra.
Qed.

Lemma brick_rects_apart_witness :
  Rect.collidepoint (Brick.rect (Brick.init 3 1 1)) 148 75 = false /\
  0 < 148 < IZR SCREEN_WIDTH.
Proof.
  assert (H : Rect.collidepoint (Brick.rect (Brick.init 2 1 1)) 148 75 = true).
  { apply collidepoint_edges. cbn. lra. }
  destruct (brick_rects_apart (Brick.init 2 1 1) (Brick.init 3 1 1) 148 75 H)
    as (_ & A & B).
  split.
  - apply A. discriminate.
  - apply B; cbv; split; congruence.
Defined.

(** ** What [resolve_collision] does to the overlap *)






(** Reflection about an axis for a ball at the fixed speed: the component
    along the axis changes sign and the rescaling changes nothing. *)
Lemma reflect_axis b n1 n2 :
  (n1 * n1 = 1 /\ n2 = 0) \/ (n1 = 0 /\ n2 * n2 = 1) ->
  speed_ok b ->
  Ball.dx (reflect b (n1, n2)) = Ball.dx b - 2 * (n1 * n1) * Ball.dx b /\
  Ball.dy (reflect b (n1, n2)) = Ball.dy b - 2 * (n2 * n2) * Ball.dy b.
Proof.
  intros Hn Hs. unfold speed_ok, Ball.speed, BALL_SPEED in Hs.
  unfold reflect. cbv zeta. cbn [fst snd].
  cbn [Ball.dx Ball.dy Ball.set_dx Ball.set_dy].
  set (u := Ball.dx b - 2 * (Ball.dx b * n1 + Ball.dy b * n2) * n1).
  set (v := Ball.dy b - 2 * (Ball.dx b * n1 + Ball.dy b * n2) * n2).
  assert (Eu : u = Ball.dx b - 2 * (n1 * n1) * Ball.dx b).
  { unfold u. destruct Hn as [[_ ->]|[-> _]]; ring. }
  assert (Ev : v = Ball.dy b - 2 * (n2 * n2) * Ball.dy b).
  { unfold v. destruct Hn as [[_ ->]|[-> _]]; ring. }
  assert (E : u * u + v * v = Ball.dx b * Ball.dx b + Ball.dy b * Ball.dy b).
  { rewrite Eu, Ev. destruct Hn as [[H ->]|[-> H]]; rewrite H; ring. }
  unfold normalize. cbv zeta. rewrite E, Hs.
  rewrite Reqb_false by lra. unfold BALL_SPEED.
  cbn [Ball.dx Ball.dy Ball.set_dx Ball.set_dy].
  rewrite <- Eu, <- Ev. split; field.
Qed.

(** X6.  A ball at the fixed speed whose centre is inside the rectangle leaves
    through the nearest edge (the left one first among equals, then the
    right one, then the top one): its centre is put [BALL_RADIUS] beyond
    that edge, the other coordinate stays, and the velocity component across
    that edge changes sign, whichever way the ball was moving. *)
Theorem resolve_collision_inside_bounce :
  forall (b : Ball.t) (k : Brick.t),
    inside b k -> Ball.speed b = IZR BALL_SPEED ->
    let b' := resolve_collision b k in
    let lp := Ball.x b - rleft k in
    let rp := rright k - Ball.x b in
    let tp := Ball.y b - rtop k in
    let bp := rbottom k - Ball.y b in
    (lp <= rp -> lp <= tp -> lp <= bp ->
     Ball.x b' = rleft k - IZR BALL_RADIUS /\ Ball.y b' = Ball.y b /\
     Ball.dx b' = - Ball.dx b /\ Ball.dy b' = Ball.dy b) /\
    (rp < lp -> rp <= tp -> rp <= bp ->
     Ball.x b' = rright k + IZR BALL_RADIUS /\ Ball.y b' = Ball.y b /\
     Ball.dx b' = - Ball.dx b /\ Ball.dy b' = Ball.dy b) /\
    (tp < lp -> tp < rp -> tp <= bp ->
     Ball.x b' = Ball.x b /\ Ball.y b' = rtop k - IZR BALL_RADIUS /\
     Ball.dx b' = Ball.dx b /\ Ball.dy b' = - Ball.dy b) /\
    (bp < lp -> bp < rp -> bp < tp ->
     Ball.x b' = Ball.x b /\ Ball.y b' = rbottom k + IZR BALL_RADIUS /\
     Ball.dx b' = Ball.dx b /\ Ball.dy b' = - Ball.dy b).
Proof.
  intros b k Hin Hs. cbv zeta.
  destruct (push_out_inside b k Hin) as (P1 & P2 & P3 & P4).
  unfold resolve_collision, BALL_RADIUS.
  split; [|split; [|split]]; intros A1 A2 A3;
    first [rewrite (P1 A1 A2 A3) | rewrite (P2 A1 A2 A3)
          |rewrite (P3 A1 A2 A3) | rewrite (P4 A1 A2 A3)];
    match goal with
    | |- context [reflect ?c (?n1, ?n2)] =>
        destruct (reflect_pos c (n1, n2)) as [Ex Ey];
        destruct (reflect_axis c n1 n2) as [Eu Ev];
        [first [left; split; [ring | reflexivity]
               |right; split; [reflexivity | ring]]
        |exact Hs|];
        rewrite Ex, Ey, Eu, Ev
    end;
    cbn [Ball.x Ball.y Ball.dx Ball.dy Ball.set_x Ball.set_y];
    repeat split; ring.
Qed.

(** A ball that entered the left margin of a brick while moving away from
    it to the left is sent back to the right. *)
Lemma resolve_collision_inside_bounce_witness :
  Ball.x (resolve_collision
            {| Ball.x := 102; Ball.y := 75; Ball.angle := PI;
               Ball.dx := - (12); Ball.dy := 0;
               Ball.active := true; Ball.launched := true;
               Ball.delay := 0; Ball.collision_cooldown := 0 |}
            (Brick.init 2 1 1)) = 96 /\
  Ball.dx (resolve_collision
             {| Ball.x := 102; Ball.y := 75; Ball.angle := PI;
                Ball.dx := - (12); Ball.dy := 0;
                Ball.active := true; Ball.launched := true;
                Ball.delay := 0; Ball.collision_cooldown := 0 |}
             (Brick.init 2 1 1)) = 12.
Proof.
  destruct (rect_edges (Brick.init 2 1 1)) as (A & B & C & D).
  cbn [Brick.col Brick.row Brick.init] in A, B, C, D.
  set (b := {| Ball.x := 102; Ball.y := 75; Ball.angle := PI;
               Ball.dx := - (12); Ball.dy := 0;
               Ball.active := true; Ball.launched := true;
               Ball.delay := 0; Ball.collision_cooldown := 0 |}).
  assert (Hin : inside b (Brick.init 2 1 1)).
  { unfold inside. rewrite A, B, C, D. cbn. lra. }
  assert (Hs : Ball.speed b = IZR BALL_SPEED).
  { unfold Ball.speed, BALL_SPEED. cbn.
    replace (- (12) * - (12) + 0 * 0) with (12 * 12) by ring.
    apply sqrt_square. lra. }
  destruct (resolve_collision_inside_bounce b (Brick.init 2 1 1) Hin Hs)
    as (H & _).
  cbv zeta in H. rewrite A, B, C, D in H. cbn [Ball.x Ball.y b] in H.
  destruct H as (E1 & _ & E3 & _); try lra.
  rewrite E1, E3. unfold BALL_RADIUS. cbn. split; lra.
Defined.

(** ** Invariants of the session values *)

Local Close Scope R_scope.

Lemma atan2_upper_half y x : (0 < y)%R -> (0 < atan2 y x < PI)%R.
Proof.
  intros Hy. unfold atan2. destruct (Rlt_dec 0 y); [|contradiction].
  pose proof (atan_bound (x / y)) as [A B]. lra.
Qed.

Lemma update_balls_length todo g :
  length (fst (update_balls todo g)) = length todo.
Proof.
  revert g. induction todo as [|b todo IH]; intros g; cbn [update_balls];
    [reflexivity|].
  destruct (step_ball b g) as [b' g']. specialize (IH g').
  destruct (update_balls todo g') as [rest g'']. cbn in *. now rewrite IH.
Qed.

Lemma for_balls_length g :
  length (balls_to_fire (for_balls g)) = length (balls_to_fire g).
Proof.
  unfold for_balls. pose proof (update_balls_length (balls_to_fire g) g) as H.
  destruct (update_balls (balls_to_fire g) g) as [balls g']. exact H.
Qed.

(** A pass of the collision loop adds 10 to the score or nothing. *)
Lemma loop_body_score_step st :
  score (l_game (loop_body st)) = score (l_game st) \/
  score (l_game (loop_body st)) = score (l_game st) + 10.
Proof.
  unfold loop_body.
  destruct (hit_first (l_ball st) (bricks (l_game st))) as [[hit rest]|];
    cbv zeta; gsimpl; [right | left; reflexivity].
  case_ifs; reflexivity.
Qed.

Lemma loop_body_tens st :
  score (l_game st) mod 10 = 0 /\ high_score (l_game st) mod 10 = 0 ->
  score (l_game (loop_body st)) mod 10 = 0 /\
  high_score (l_game (loop_body st)) mod 10 = 0.
Proof.
  intros [Hs Hh]. unfold loop_body.
  destruct (hit_first (l_ball st) (bricks (l_game st))) as [[hit rest]|];
    cbv zeta; gsimpl; [|split; assumption].
  assert (E : (score (l_game st) + 10) mod 10 = 0).
  { rewrite <- Z.add_mod_idemp_l, Hs by lia. reflexivity. }
  case_ifs; gsimpl; split; assumption.
Qed.

Lemma handle_event_session cols g e :
  session_ok g -> session_ok (handle_event cols g e).
Proof.
  intros (Hl & Hc & Hx & Ha & Hg & Hs & Hb).
  unfold handle_event.
  destruct e as [|[| | |]|mx my|]; cbv zeta; gsimpl;
    destruct (game_over g) eqn:Hgo; cbn [negb]; gsimpl;
    try (unfold session_ok; gsimpl; rewrite ?Hgo; repeat split;
         solve [assumption | apply Hl | apply Hx | apply Ha | apply Hs]);
    try (rewrite new_game_eq; unfold session_ok; gsimpl;
         change (SCREEN_WIDTH / 2) with 150; unfold BALL_RADIUS, SCREEN_WIDTH;
         pose proof PI_RGT_0; repeat split;
         solve [lia | lra | reflexivity | apply Hs]).
  - (* LEFT *)
    unfold session_ok. unfold BALL_RADIUS, SCREEN_WIDTH in *.
    destruct (base_x g - 10 <? 5) eqn:E; gsimpl; rewrite ?Hgo;
      [apply Z.ltb_lt in E | apply Z.ltb_ge in E];
      repeat split;
      solve [assumption | apply Hl | apply Ha | apply Hs | lia].
  - (* RIGHT *)
    unfold session_ok. unfold BALL_RADIUS, SCREEN_WIDTH in *.
    destruct (300 - 5 <? base_x g + 10) eqn:E; gsimpl; rewrite ?Hgo;
      [apply Z.ltb_lt in E | apply Z.ltb_ge in E];
      repeat split;
      solve [assumption | apply Hl | apply Ha | apply Hs | lia].
  - (* SPACE *)
    destruct (firing g) eqn:Hf; cbn [negb].
    + unfold session_ok. rewrite Hgo, Hf. repeat split;
        solve [assumption | apply Hl | apply Hx | apply Ha | apply Hs].
    + rewrite fire_balls_eq. unfold session_ok. gsimpl. rewrite Hgo.
      rewrite length_map, length_seq. repeat split;
        solve [assumption | apply Hl | apply Hx | apply Ha | apply Hs].
  - (* the mouse *)
    match goal with
    | |- session_ok (set_aim_angle (atan2 (IZR ?dy) ?dx) g) =>
        assert (A : (0 < atan2 (IZR dy) dx < PI)%R)
    end.
    { apply atan2_upper_half. apply (IZR_lt 0).
      destruct (SCREEN_HEIGHT - BALL_RADIUS - my <=? 0) eqn:E;
        [lia | now apply Z.leb_gt in E]. }
    unfold session_ok. gsimpl. rewrite Hgo. repeat split;
      solve [assumption | apply Hl | apply Hx | apply Hs | apply A].
Qed.

Lemma firing_block_session cols g :
  session_ok g -> firing g = true -> session_ok (firing_block cols g).
Proof.
  intros (Hl & Hc & Hx & Ha & Hg & Hs & Hb) Hf. rewrite Hf in Hb.
  set (g1 := for_balls (launch_due g)).
  assert (T : score g1 mod 10 = 0 /\ high_score g1 mod 10 = 0).
  { apply (for_balls_inv
             (fun g' => score g' mod 10 = 0 /\ high_score g' mod 10 = 0)).
    - apply loop_body_tens.
    - intros l g' H. exact H.
    - exact Hs. }
  assert (L : length (balls_to_fire g1) = Z.to_nat (base_ball_count g)).
  { unfold g1. rewrite for_balls_length. unfold launch_due. gsimpl.
    now rewrite length_map. }
  assert (F : g1 =
              set_balls_to_fire (balls_to_fire g1)
                (set_bricks (bricks g1)
                   (set_high_score (high_score g1)
                      (set_score (score g1) (launch_due g)))))
    by apply for_balls_frame.
  unfold firing_block. cbv zeta. fold g1.
  destruct (all_returned g1).
  - unfold finish_round. cbv zeta. rewrite reset_for_next_turn_eq.
    unfold session_ok, next_base_x. gsimpl.
    rewrite F. unfold launch_due. gsimpl. fold g1.
    unfold BALL_RADIUS, SCREEN_WIDTH in *.
    repeat split; try solve [assumption | apply Ha | apply T | lia].
    + destruct (returned_ball_positions g ++ map Ball.x (balls_to_fire g1));
        lia.
    + destruct (returned_ball_positions g ++ map Ball.x (balls_to_fire g1));
        lia.
  - unfold session_ok. rewrite F. unfold launch_due. gsimpl. fold g1.
    rewrite Hf. repeat split;
      solve [assumption | apply Hl | apply Hx | apply Ha | apply T].
Qed.

Lemma check_bricks_bottom_eq g :
  check_bricks_bottom g = g \/
  check_bricks_bottom g =
  set_bricks (filter (fun k => Brick.row k <? MAX_ROWS - 3) (bricks g))
    (set_dying_bricks
       (dying_bricks g ++
        map (fun k => mkDying k 30)
            (filter (fun k => MAX_ROWS - 3 <=? Brick.row k) (bricks g)))
       (set_lives_flash_timer 30 (set_lives (lives g - 1) g))).
Proof.
  destruct (check_bricks_bottom_cases g) as [[_ E]|[_ E]]; [now left|].
  right. rewrite E, remove_bottom_rows_eq. reflexivity.
Qed.

Lemma session_ok_tick w g : session_ok g -> session_ok (tick w g).
Proof.
  apply tick_preserves.
  - intros g0 v H. exact H.
  - intros g0 e. apply handle_event_session.
  - intros g0 H _ Hf. now apply firing_block_session.
  - intros g0 (Hl & Hc & Hx & Ha & Hg & Hs & Hb) Hgo. cbv zeta.
    rewrite Hgo in Hg. symmetry in Hg. apply Z.leb_gt in Hg.
    destruct (check_bricks_bottom_eq g0) as [E|E]; rewrite E; clear E; gsimpl.
    + destruct (lives g0 <=? 0) eqn:L; [apply Z.leb_le in L; lia|].
      unfold session_ok. rewrite Hgo, L. repeat split;
        solve [assumption | apply Hl | apply Hx | apply Ha | apply Hs].
    + destruct (lives g0 - 1 <=? 0) eqn:L; unfold session_ok; gsimpl;
        rewrite ?Hgo, ?L; repeat split;
        solve [assumption | apply Hl | apply Hx | apply Ha | apply Hs].
  - intros g0 v H. exact H.
  - intros g0 H. exact H.
Qed.

Lemma session_ok_reachable g : reachable g -> session_ok g.
Proof.
  apply reachable_ind_inv.
  - intros cols _. rewrite initial_eq. unfold session_ok. gsimpl.
    change (SCREEN_WIDTH / 2) with 150. unfold BALL_RADIUS, SCREEN_WIDTH.
    pose proof PI_RGT_0. repeat split; solve [lia | lra | reflexivity].
  - intros w g0 _. apply session_ok_tick.
Qed.

Lemma reachable_after_space :
  reachable (tick (mkFrame [KEYDOWN K_SPACE] [0] [1]) (initial [2])).
Proof.
  apply reachable_tick.
  - apply reachable_initial, valid_sample_one. cbv; split; congruence.
  - reflexivity.
  - split; apply valid_sample_one; cbv; split; congruence.
Qed.

(** X9.  The level is at least 1 and never above [highest_level]; the number of
    balls of a shot, [base_ball_count], is [get_ball_count] of the current
    level, twice the level; while a shot is under way the ball list holds
    exactly that many balls, and otherwise it is empty. *)
Theorem shot_size_is_twice_the_level :
  forall g : Game,
    reachable g ->
    1 <= level g <= highest_level g /\
    base_ball_count g = get_ball_count (level g) /\
    get_ball_count (level g) = 2 * level g /\
    (firing g = true ->
     length (balls_to_fire g) = Z.to_nat (2 * level g)) /\
    (firing g = false -> balls_to_fire g = []).
Proof.
  intros g Hr.
  destruct (session_ok_reachable g Hr) as (Hl & Hc & _ & _ & _ & _ & Hb).
  split; [exact Hl|]. split; [exact Hc|]. split; [reflexivity|].
  split; intros Hf; rewrite Hf in Hb; [|exact Hb].
  rewrite Hb, Hc. reflexivity.
Qed.

Lemma shot_size_is_twice_the_level_witness :
  base_ball_count (tick (mkFrame [KEYDOWN K_SPACE] [0] [1]) (initial [2])) =
  2 * level (tick (mkFrame [KEYDOWN K_SPACE] [0] [1]) (initial [2])).
Proof.
  destruct (shot_size_is_twice_the_level _ reachable_after_space)
    as (_ & A & B & _).
  rewrite A. exact B.
Defined.

(** X10.  The launch origin stays within the side walls by a ball radius,
    whatever the keys pressed and wherever the first ball of a round
    landed, and every ball of a shot is created at that origin on the floor
    line [y = SCREEN_HEIGHT - BALL_RADIUS]. *)
Theorem launch_origin_in_range :
  forall g : Game,
    reachable g ->
    BALL_RADIUS <= base_x g <= SCREEN_WIDTH - BALL_RADIUS /\
    Forall (fun b => Ball.x b = IZR (base_x g) /\
                     Ball.y b = IZR (SCREEN_HEIGHT - BALL_RADIUS) /\
                     Ball.active b = true /\ Ball.launched b = false)
           (balls_to_fire (fire_balls g)).
Proof.
  intros g Hr.
  destruct (session_ok_reachable g Hr) as (_ & _ & Hx & _).
  split; [exact Hx|].
  rewrite fire_balls_eq. gsimpl. apply Forall_map, Forall_forall.
  intros i _. unfold fired_ball. cbn. repeat split.
Qed.

Lemma launch_origin_in_range_witness :
  BALL_RADIUS
  <= base_x (tick (mkFrame [KEYDOWN K_SPACE] [0] [1]) (initial [2]))
  <= SCREEN_WIDTH - BALL_RADIUS.
Proof.
  apply (launch_origin_in_range _ reachable_after_space).
Defined.

(** X11.  The aim always points into the upper half plane: the angle is strictly
    between 0 and pi, also after a mouse movement to a point at or below the
    floor line (where the vertical offset is replaced by 1), so every ball
    of a shot is created moving upwards. *)
Theorem aim_points_upwards :
  (forall g : Game,
      reachable g ->
      (0 < aim_angle g < PI)%R /\
      Forall (fun b => (Ball.dy b < 0)%R) (balls_to_fire (fire_balls g))) /\
  (forall cols g mx my,
      game_over g = false ->
      (0 < aim_angle (handle_event cols g (MOUSEMOTION mx my)) < PI)%R).
Proof.
  split.
  - intros g Hr.
    destruct (session_ok_reachable g Hr) as (_ & _ & _ & Ha & _).
    split; [exact Ha|].
    rewrite fire_balls_eq. gsimpl. apply Forall_map, Forall_forall.
    intros i _. unfold fired_ball. cbn. unfold BALL_SPEED.
    pose proof (sin_gt_0 (aim_angle g) (proj1 Ha) (proj2 Ha)). lra.
  - intros cols g mx my Hgo. unfold handle_event. cbv zeta. rewrite Hgo.
    cbn [negb]. gsimpl. apply atan2_upper_half. apply (IZR_lt 0).
    destruct (SCREEN_HEIGHT - BALL_RADIUS - my <=? 0) eqn:E;
      [lia | now apply Z.leb_gt in E].
Qed.

Lemma aim_points_upwards_witness :
  (0 < aim_angle (handle_event [0%Z] (initial [2%Z])
                                (MOUSEMOTION 10%Z 499%Z)) < PI)%R.
Proof.
  destruct aim_points_upwards as [_ H]. apply H. reflexivity.
Defined.

(** X12.  The game is over exactly when no life is left. *)
Theorem game_over_iff_no_lives :
  forall g : Game,
    reachable g -> (game_over g = true <-> lives g = 0).
Proof.
  intros g Hr.
  destruct (session_ok_reachable g Hr) as (_ & _ & _ & _ & Hg & _).
  destruct (lives_ok_reachable g Hr) as [H0 _].
  rewrite Hg. rewrite Z.leb_le. lia.
Qed.

Lemma game_over_iff_no_lives_witness :
  game_over (initial [2]) = true <-> lives (initial [2]) = 0.
Proof.
  apply game_over_iff_no_lives. apply reachable_initial, valid_sample_one.
  cbv; split; congruence.
Defined.

(** ** Invariants of the grid *)

Lemma NoDup_map_injective {A B : Type} (f : A -> B) (l : list A) :
  (forall x y, f x = f y -> x = y) -> NoDup l -> NoDup (map f l).
Proof.
  intros Hf. induction 1 as [|a l Ha _ IH]; cbn; constructor; [|exact IH].
  intros Hin. apply in_map_iff in Hin as (b & E & Hb).
  apply Hf in E. subst b. contradiction.
Qed.

(** Dropping bricks from a list keeps the cells of the list distinct. *)
Lemma filter_keeps_cells_distinct (keep : Brick.t -> bool) (l : list Brick.t) :
  NoDup (map cell l) -> NoDup (map cell (filter keep l)).
Proof.
  intros H. induction l as [|k l IH]; cbn in *; [constructor|].
  apply NoDup_cons_iff in H as [Hk Hl].
  destruct (keep k); cbn; [apply NoDup_cons|]; auto.
  intros Hin. apply Hk. apply in_map_iff in Hin as (k' & E & Hk').
  apply filter_In in Hk' as [Hk' _]. apply in_map_iff. now exists k'.
Qed.

(** Two elements of a list on which a function takes every value once are
    equal when the function takes the same value on them. *)
Lemma NoDup_map_eq {A B : Type} (f : A -> B) (l : list A) x y :
  NoDup (map f l) -> In x l -> In y l -> f x = f y -> x = y.
Proof.
  induction l as [|a l IH]; cbn; intros H Hx Hy E; [contradiction|].
  inversion H as [|? ? Ha Hl]; subst.
  destruct Hx as [->|Hx], Hy as [->|Hy]; auto.
  - exfalso. apply Ha. rewrite E. now apply in_map.
  - exfalso. apply Ha. rewrite <- E. now apply in_map.
Qed.

Lemma spawned_grid cols lvl :
  1 <= lvl -> NoDup cols ->
  Forall (brick_ok lvl) (map (fun c => Brick.init c 1 lvl) cols) /\
  NoDup (map cell (map (fun c => Brick.init c 1 lvl) cols)) /\
  Forall (fun k => Brick.row k = 1) (map (fun c => Brick.init c 1 lvl) cols).
Proof.
  intros Hl Hnd. split; [|split].
  - apply Forall_map, Forall_forall. intros c _. unfold brick_ok. cbn. lia.
  - rewrite map_map. apply NoDup_map_injective; [|exact Hnd].
    intros x y E. now injection E.
  - apply Forall_map, Forall_forall. intros c _. reflexivity.
Qed.

Lemma loop_body_grid st :
  grid_ok (l_game st) -> grid_ok (l_game (loop_body st)).
Proof.
  intros (Hl & Hb & Hn). unfold loop_body.
  destruct (hit_first (l_ball st) (bricks (l_game st))) as [[hit rest]|] eqn:E;
    cbv zeta; gsimpl; [|repeat split; assumption].
  apply hit_first_some in E as (pre & k & post & E & _ & _ & -> & ->).
  match goal with
  | |- grid_ok (set_bricks ?l ?g0) =>
      assert (Lv : level g0 = level (l_game st)) by (case_ifs; reflexivity);
      assert (G : grid_ok (set_bricks l g0) <->
                  1 <= level (l_game st) /\
                  Forall (brick_ok (level (l_game st))) l /\
                  NoDup (map cell l))
        by (unfold grid_ok; gsimpl; rewrite Lv; tauto)
  end.
  apply G. clear G Lv.
  rewrite E in Hb, Hn. split; [exact Hl|].
  apply Forall_app in Hb as [Hpre Hk].
  inversion Hk as [|? ? Hk0 Hpost]; subst.
  rewrite map_app in Hn. cbn [map] in Hn.
  destruct (Brick.value k - 1 <=? 0) eqn:V; cbn [app].
  - split; [apply Forall_app; split; assumption|].
    rewrite map_app. eapply NoDup_remove_1. exact Hn.
  - apply Z.leb_gt in V. split.
    + apply Forall_app; split; [exact Hpre|]. constructor; [|exact Hpost].
      unfold brick_ok in *. cbn [Brick.row Brick.value Brick.max_value
                                   Brick.set_value]. lia.
    + rewrite map_app. exact Hn.
Qed.

Lemma finish_round_grid cols g :
  NoDup cols -> grid_ok g -> grid_ok (finish_round cols g).
Proof.
  intros Hnd (Hl & Hb & Hn). unfold finish_round. cbv zeta.
  rewrite reset_for_next_turn_eq. unfold grid_ok. gsimpl.
  destruct (spawned_grid cols (level g + 1) ltac:(lia) Hnd) as (S1 & S2 & S3).
  split; [lia|]. split.
  - apply Forall_app; split; [|exact S1].
    apply Forall_map. eapply Forall_impl; [|exact Hb].
    intros k Hk. unfold brick_ok in *.
    cbn [Brick.row Brick.value Brick.max_value Brick.set_row]. lia.
  - rewrite map_app. apply NoDup_app; [| exact S2 |].
    + rewrite map_map.
      replace (map (fun k => cell (Brick.set_row (Brick.row k + 1) k))
                   (bricks g))
        with (map (fun c : Z * Z => (fst c, snd c + 1)) (map cell (bricks g)))
        by (rewrite map_map; reflexivity).
      apply NoDup_map_injective; [|exact Hn].
      intros [c1 r1] [c2 r2] E. cbn in E. injection E as -> E. f_equal. lia.
    + intros c Hc Hc'.
      apply in_map_iff in Hc as (k1 & <- & Hk1).
      apply in_map_iff in Hk1 as (k0 & <- & Hk0).
      apply in_map_iff in Hc' as (k2 & E2 & Hk2).
      rewrite Forall_forall in S3, Hb.
      specialize (S3 k2 Hk2). destruct (Hb k0 Hk0) as (R & _).
      unfold cell in E2. cbn [Brick.row Brick.col Brick.set_row] in E2.
      injection E2 as _ E2. lia.
Qed.

Lemma grid_ok_tick w g : valid_frame w -> grid_ok g -> grid_ok (tick w g).
Proof.
  intros [(_ & V1 & _) (_ & V2 & _)].
  apply tick_preserves.
  - intros g0 v H. exact H.
  - intros g0 e (Hl & Hb & Hn).
    destruct (handle_event_cases (new_game_cols w) g0 e)
      as [(_ & _ & E)|(_ & _ & _ & _ & Eb & _ & El & _)].
    + rewrite E, new_game_eq. unfold grid_ok. gsimpl.
      destruct (spawned_grid (new_game_cols w) 1 ltac:(lia) V1) as (S1 & S2 & _).
      repeat split; [lia | exact S1 | exact S2].
    + unfold grid_ok. rewrite Eb, El. repeat split; assumption.
  - intros g0 H _ _. unfold firing_block. cbv zeta.
    assert (K : grid_ok (for_balls (launch_due g0))).
    { apply (for_balls_inv grid_ok).
      - apply loop_body_grid.
      - intros l g' H'. exact H'.
      - exact H. }
    destruct (all_returned _); [|exact K].
    now apply finish_round_grid.
  - intros g0 (Hl & Hb & Hn) _. cbv zeta.
    assert (K : grid_ok (check_bricks_bottom g0)).
    { destruct (check_bricks_bottom_eq g0) as [E|E]; rewrite E;
        [repeat split; assumption|].
      unfold grid_ok. gsimpl. split; [exact Hl|]. split.
      - apply Forall_forall. intros k Hk. apply filter_In in Hk as [Hk _].
        rewrite Forall_forall in Hb. now apply Hb.
      - now apply filter_keeps_cells_distinct. }
    case_ifs; exact K.
  - intros g0 v H. exact H.
  - intros g0 H. exact H.
Qed.

Lemma grid_ok_reachable g : reachable g -> grid_ok g.
Proof.
  apply reachable_ind_inv.
  - intros cols (_ & V & _). rewrite initial_eq. unfold grid_ok. gsimpl.
    destruct (spawned_grid cols 1 ltac:(lia) V) as (S1 & S2 & _).
    repeat split; [lia | exact S1 | exact S2].
  - intros w g0. apply grid_ok_tick.
Qed.

(** X13.  Every live brick has between 1 hit point and the number it started
    with, and it started with the level of the round in which it was
    spawned: a brick in row [r] was spawned [r - 1] rounds ago, so its
    [max_value] is [level - r + 1].  In particular [max_value] is at least
    1, and at least [level - 7] since no live brick is below row 8 between
    frames. *)
Theorem brick_hit_points :
  forall g : Game,
    reachable g ->
    Forall (fun k =>
              1 <= Brick.value k <= Brick.max_value k /\
              Brick.max_value k = level g - Brick.row k + 1 /\
              1 <= Brick.row k <= 8 /\
              level g - 7 <= Brick.max_value k <= level g)
           (bricks g).
Proof.
  intros g Hr. destruct (grid_ok_reachable g Hr) as (_ & Hb & _).
  destruct (field_ok_reachable g Hr) as [Hrows _]. unfold rows_between in Hrows.
  apply Forall_forall. intros k Hk. rewrite Forall_forall in Hb, Hrows.
  destruct (Hb k Hk) as (R & V & M). specialize (Hrows k Hk).
  cbv beta in Hrows. repeat split; lia.
Qed.

Lemma brick_hit_points_witness :
  Forall (fun k =>
            1 <= Brick.value k <= Brick.max_value k /\
            Brick.max_value k =
              level (tick (mkFrame [KEYDOWN K_SPACE] [0] [1]) (initial [2]))
              - Brick.row k + 1 /\
            1 <= Brick.row k <= 8 /\
            level (tick (mkFrame [KEYDOWN K_SPACE] [0] [1]) (initial [2])) - 7
            <= Brick.max_value k
            <= level (tick (mkFrame [KEYDOWN K_SPACE] [0] [1]) (initial [2])))
         (bricks (tick (mkFrame [KEYDOWN K_SPACE] [0] [1]) (initial [2]))).
Proof.
  apply (brick_hit_points _ reachable_after_space).
Defined.

(** X14.  No two live bricks are in the same cell of the grid, so no point of the
    screen is inside the rectangles of two live bricks. *)
Theorem live_bricks_in_distinct_cells :
  forall g : Game,
    reachable g ->
    NoDup (map cell (bricks g)) /\
    forall (k1 k2 : Brick.t) (px py : R),
      In k1 (bricks g) -> In k2 (bricks g) ->
      Rect.collidepoint (Brick.rect k1) px py = true ->
      Rect.collidepoint (Brick.rect k2) px py = true ->
      k1 = k2.
Proof.
  intros g Hr. destruct (grid_ok_reachable g Hr) as (_ & _ & Hn).
  split; [exact Hn|]. intros k1 k2 px py H1 H2 C1 C2.
  apply (NoDup_map_eq cell (bricks g)); auto.
  eapply collidepoint_same_cell; eassumption.
Qed.

Lemma live_bricks_in_distinct_cells_witness :
  NoDup (map cell (bricks (tick (mkFrame [KEYDOWN K_SPACE] [0] [1])
                                (initial [2])))).
Proof.
  apply (live_bricks_in_distinct_cells _ reachable_after_space).
Defined.

(** ** Invariants that hold between frames *)

(** A frame in five steps, for a property [P] of the states between frames
    and a property [Q] of the states within a frame. *)
Section FrameInvariant.

Variables P Q : Game -> Prop.
Variable w : Frame.

Hypothesis Q_start :
  forall g, P g -> Q (set_frame_count (frame_count g + 1) g).
Hypothesis Q_event :
  forall g e, Q g -> Q (handle_event (new_game_cols w) g e).
Hypothesis Q_firing :
  forall g, Q g -> game_over g = false -> firing g = true ->
            Q (firing_block (next_turn_cols w) g).
Hypothesis Q_breach :
  forall g, Q g -> game_over g = false ->
            Q (let g := check_bricks_bottom g in
               if lives g <=? 0 then set_game_over true g else g).
Hypothesis P_finish :
  forall g, Q g ->
            P (tick_fade
                 (if 0 <? lives_flash_timer g
                  then set_lives_flash_timer (lives_flash_timer g - 1) g
                  else g)).

Lemma frame_preserves g : P g -> P (tick w g).
Proof.
  intros Hg. unfold tick. cbv zeta. apply P_finish.
  assert (H0 : Q (events_phase w g)).
  { unfold events_phase. cbv zeta.
    generalize (Q_start g Hg). generalize (set_frame_count (frame_count g + 1) g).
    induction (events w) as [|e evs IH]; intros g0 H0; cbn; auto. }
  set (g0 := events_phase w g) in *.
  destruct (game_over g0) eqn:Hgo; cbn [negb]; [exact H0|].
  unfold gameplay. cbv zeta.
  destruct (firing g0) eqn:Hf.
  - apply Q_breach; [now apply Q_firing|].
    destruct (firing_block_keeps (next_turn_cols w) g0) as (_ & E & _).
    now rewrite E.
  - now apply Q_breach.
Qed.

End FrameInvariant.

Lemma fade_within_weaken lo hi g :
  lo <= hi -> fade_within lo g -> fade_within hi g.
Proof.
  intros H [A B]. split; [lia|].
  eapply Forall_impl; [|exact B]. intros item Hi. cbv beta in Hi. lia.
Qed.

Lemma fade_within_tick w g : fade_within 29 g -> fade_within 29 (tick w g).
Proof.
  apply (frame_preserves (fade_within 29) (fade_within 30)).
  - intros g0 H. apply (fade_within_weaken 29 30 g0 ltac:(lia)) in H. exact H.
  - intros g0 e [A B].
    destruct (handle_event_cases (new_game_cols w) g0 e)
      as [(_ & _ & E)|(_ & _ & _ & _ & _ & Ed & _ & _ & Ef & _)].
    + rewrite E, new_game_eq. split; [cbn; lia | constructor].
    + unfold fade_within. rewrite Ed, Ef. split; assumption.
  - intros g0 [A B] _ _.
    destruct (firing_block_keeps (next_turn_cols w) g0) as (_ & _ & _ & Ed & Ef).
    unfold fade_within. rewrite Ed, Ef. split; assumption.
  - intros g0 [A B] _. cbv zeta.
    assert (K : fade_within 30 (check_bricks_bottom g0)).
    { destruct (check_bricks_bottom_eq g0) as [E|E]; rewrite E;
        [split; assumption|].
      unfold fade_within. gsimpl. split; [lia|].
      apply Forall_app. split; [exact B|].
      apply Forall_map, Forall_forall. intros k _. cbn. lia. }
    case_ifs; exact K.
  - intros g0 [A B]. unfold tick_fade, fade_within. split.
    + destruct (0 <? lives_flash_timer g0) eqn:E; gsimpl;
        [apply Z.ltb_lt in E | apply Z.ltb_ge in E]; lia.
    + assert (D : dying_bricks
                    (if 0 <? lives_flash_timer g0
                     then set_lives_flash_timer (lives_flash_timer g0 - 1) g0
                     else g0) = dying_bricks g0) by (case_ifs; reflexivity).
      gsimpl. rewrite D. apply Forall_forall. intros item Hi.
      apply filter_In in Hi as [Hi Hpos]. apply Z.ltb_lt in Hpos.
      apply in_map_iff in Hi as (item0 & <- & Hi0).
      rewrite Forall_forall in B. specialize (B item0 Hi0).
      cbn [timer] in *. lia.
Qed.

Lemma fade_within_reachable g : reachable g -> fade_within 29 g.
Proof.
  apply reachable_ind_inv.
  - intros cols _. rewrite initial_eq. split; [cbn; lia | constructor].
  - intros w g0 _. apply fade_within_tick.
Qed.

(** X15.  The flash timer and the timers of the fade between frames: an entry is
    appended with timer 30 and is one pass of the fade older when the frame
    ends, and it leaves the list when its timer reaches 0; the flash timer
    is set to 30 and counted down in the same frame. *)
Theorem fade_timers_in_range :
  forall g : Game,
    reachable g ->
    0 <= lives_flash_timer g <= 29 /\
    Forall (fun item => 1 <= timer item <= 29) (dying_bricks g).
Proof. exact fade_within_reachable. Qed.

Lemma fade_timers_in_range_witness :
  0 <= lives_flash_timer
         (tick (mkFrame [KEYDOWN K_SPACE] [0] [1]) (initial [2])) <= 29.
Proof.
  apply (fade_timers_in_range _ reachable_after_space).
Defined.

(** One pass of the fade over entries that [m] passes have aged already. *)
Lemma fade_pass l m :
  0 <= m ->
  filter (fun item => 0 <? timer item)
    (map (fun item => mkDying (brick item) (timer item - 1))
       (map (fun item => mkDying (brick item) (timer item - m))
          (filter (fun item => m <? timer item) l))) =
  map (fun item => mkDying (brick item) (timer item - (m + 1)))
      (filter (fun item => m + 1 <? timer item) l).
Proof.
  intros Hm. induction l as [|[k t] l IH]; [reflexivity|].
  cbn [filter timer brick].
  destruct (m <? t) eqn:E1; destruct (m + 1 <? t) eqn:E2;
    cbn [map filter timer brick]; rewrite ?IH;
    repeat match goal with
           | H : (_ <? _) = true |- _ => apply Z.ltb_lt in H
           | H : (_ <? _) = false |- _ => apply Z.ltb_ge in H
           end; try lia.
  - destruct (0 <? t - m - 1) eqn:E3;
      [|apply Z.ltb_ge in E3; lia].
    f_equal. f_equal. lia.
  - destruct (0 <? t - m - 1) eqn:E3;
      [apply Z.ltb_lt in E3; lia | reflexivity].
  - reflexivity.
Qed.

Lemma fade_first_pass l :
  filter (fun item => 0 <? timer item)
    (map (fun item => mkDying (brick item) (timer item - 1)) l) =
  map (fun item => mkDying (brick item) (timer item - 1))
      (filter (fun item => 1 <? timer item) l).
Proof.
  induction l as [|[k t] l IH]; [reflexivity|].
  cbn [filter map timer brick]. rewrite IH.
  destruct (0 <? t - 1) eqn:E1; destruct (1 <? t) eqn:E2;
    repeat match goal with
           | H : (_ <? _) = true |- _ => apply Z.ltb_lt in H
           | H : (_ <? _) = false |- _ => apply Z.ltb_ge in H
           end; try lia; reflexivity.
Qed.

(** X16.  The fade in closed form: [n] passes, [n >= 1], take [n] off every timer
    and drop the entries whose timer was [n] or less, keeping the order of
    the others; so an entry with timer [t] is shown for [t - 1] more frames
    and the list of a reachable state is empty after 29 passes if nothing is
    added. *)
Theorem fade_after_n_passes :
  (forall (n : nat) (g : Game),
      dying_bricks (Nat.iter (S n) tick_fade g) =
      map (fun item => mkDying (brick item) (timer item - Z.of_nat (S n)))
          (filter (fun item => Z.of_nat (S n) <? timer item)
                  (dying_bricks g))) /\
  (forall g : Game,
      reachable g -> dying_bricks (Nat.iter 29 tick_fade g) = []).
Proof.
  assert (A : forall (n : nat) (g : Game),
             dying_bricks (Nat.iter (S n) tick_fade g) =
             map (fun item => mkDying (brick item) (timer item - Z.of_nat (S n)))
                 (filter (fun item => Z.of_nat (S n) <? timer item)
                         (dying_bricks g))).
  { intros n g. induction n as [|n IH].
    - cbn [Nat.iter nat_rect]. unfold tick_fade. gsimpl.
      apply fade_first_pass.
    - rewrite Nat.iter_succ. unfold tick_fade at 1. gsimpl. rewrite IH.
      rewrite (fade_pass _ (Z.of_nat (S n))) by lia.
      replace (Z.of_nat (S n) + 1) with (Z.of_nat (S (S n))) by lia.
      reflexivity. }
  split; [exact A|].
  intros g Hr. destruct (fade_within_reachable g Hr) as [_ B].
  rewrite (A 28%nat g).
  replace (filter _ (dying_bricks g)) with (@nil Dying); [reflexivity|].
  symmetry. induction B as [|item l Hi _ IH]; [reflexivity|].
  cbn [filter]. destruct (Z.of_nat 29 <? timer item) eqn:E;
    [apply Z.ltb_lt in E; lia | exact IH].
Qed.

Lemma fade_after_n_passes_witness :
  dying_bricks (Nat.iter 29 tick_fade (initial [2])) = [].
Proof.
  destruct fade_after_n_passes as [_ H]. apply H.
  apply reachable_initial, valid_sample_one. cbv; split; congruence.
Defined.

(** ** Hits and points *)

Lemma total_value_app l1 l2 :
  total_value (l1 ++ l2) = total_value l1 + total_value l2.
Proof.
  unfold total_value.
  induction l1 as [|k l1 IH]; cbn [app fold_right]; [reflexivity|].
  rewrite IH. lia.
Qed.

(** A pass of the collision loop that finds an overlap takes one hit point
    off the bricks and adds 10 to the score. *)
Lemma loop_body_conserves st :
  Forall (fun k => 1 <= Brick.value k) (bricks (l_game st)) ->
  Forall (fun k => 1 <= Brick.value k) (bricks (l_game (loop_body st))) /\
  score (l_game (loop_body st)) +
  10 * total_value (bricks (l_game (loop_body st))) =
  score (l_game st) + 10 * total_value (bricks (l_game st)).
Proof.
  intros H. unfold loop_body.
  destruct (hit_first (l_ball st) (bricks (l_game st))) as [[hit rest]|] eqn:E;
    cbv zeta; gsimpl; [|split; [exact H | reflexivity]].
  apply hit_first_some in E as (pre & k & post & E & _ & _ & -> & ->).
  rewrite E in *. apply Forall_app in H as [Hpre Hk].
  inversion Hk as [|? ? Hk0 Hpost]; subst.
  assert (S : forall g0 : Game,
             score (if high_score g0 <? score g0
                    then set_high_score (score g0) g0 else g0) = score g0)
    by (intros g0; case_ifs; reflexivity).
  match goal with
  | |- context [score (if ?c then ?a else ?b)] =>
      replace (score (if c then a else b)) with (score (l_game st) + 10)
        by (destruct c; reflexivity)
  end.
  rewrite !total_value_app. cbn [total_value fold_right].
  destruct (Brick.value k - 1 <=? 0) eqn:V;
    [apply Z.leb_le in V | apply Z.leb_gt in V];
    cbn [app total_value fold_right Brick.value Brick.set_value].
  - split; [apply Forall_app; split; assumption|].
    fold (total_value post). lia.
  - split.
    + apply Forall_app; split; [exact Hpre|]. constructor; [|exact Hpost].
      cbn [Brick.value Brick.set_value]. lia.
    + fold (total_value post). lia.
Qed.

(** X17.  Every point scored is a hit point taken off a brick: as long as every
    live brick has at least one hit point, which holds in every reachable
    state, the ball loop of a frame keeps
    [score + 10 * (hit points left on the live bricks)] as it is, and it
    leaves every live brick with at least one hit point. *)
Theorem hits_are_conserved :
  forall g : Game,
    Forall (fun k => 1 <= Brick.value k) (bricks g) ->
    score (for_balls g) + 10 * total_value (bricks (for_balls g)) =
    score g + 10 * total_value (bricks g) /\
    Forall (fun k => 1 <= Brick.value k) (bricks (for_balls g)).
Proof.
  intros g H.
  assert (K : Forall (fun k => 1 <= Brick.value k) (bricks (for_balls g)) /\
              score (for_balls g) + 10 * total_value (bricks (for_balls g)) =
              score g + 10 * total_value (bricks g)).
  { apply (for_balls_inv
             (fun g' => Forall (fun k => 1 <= Brick.value k) (bricks g') /\
                        score g' + 10 * total_value (bricks g') =
                        score g + 10 * total_value (bricks g))).
    - intros st [A B]. destruct (loop_body_conserves st A) as [A' B'].
      split; [exact A' | lia].
    - intros l g' K. exact K.
    - split; [exact H | reflexivity]. }
  destruct K as [A B]. split; assumption.
Qed.

Lemma hits_are_conserved_witness :
  score (for_balls last_hit_game) +
  10 * total_value (bricks (for_balls last_hit_game)) = 10.
Proof.
  destruct (hits_are_conserved last_hit_game) as [H _].
  - repeat constructor. cbn. lia.
  - exact H.
Defined.

Lemma iter_loop_body_score n st :
  score (l_game st) <= score (l_game (Nat.iter n loop_body st))
  <= score (l_game st) + 10 * Z.of_nat n.
Proof.
  induction n as [|n IH].
  - cbn [Nat.iter nat_rect]. lia.
  - rewrite Nat.iter_succ.
    destruct (loop_body_score_step (Nat.iter n loop_body st)) as [E|E];
      rewrite E; lia.
Qed.

Lemma step_ball_score b g :
  score g <= score (snd (step_ball b g)) <= score g + 100.
Proof.
  unfold step_ball. destruct (Ball.launched b && Ball.active b); cbn [snd];
    [|lia].
  destruct (while_collisions_iter (mkLoop (Ball.update b) g true 0))
    as (n & Hn & -> & _).
  { cbn. unfold max_iterations. lia. }
  cbn [iterations] in Hn. unfold max_iterations in Hn.
  pose proof (iter_loop_body_score n (mkLoop (Ball.update b) g true 0)) as H.
  cbn [l_game] in H. lia.
Qed.

Lemma update_balls_score todo g :
  score g <= score (snd (update_balls todo g))
  <= score g + 100 * Z.of_nat (length todo).
Proof.
  revert g. induction todo as [|b todo IH]; intros g; cbn [update_balls].
  - cbn. lia.
  - pose proof (step_ball_score b g) as H1.
    destruct (step_ball b g) as [b' g']. cbn [snd] in H1.
    specialize (IH g'). destruct (update_balls todo g') as [rest g''].
    cbn [snd length] in *. lia.
Qed.

(** X18.  A ball takes at most ten hit points in a frame: its turn in the ball
    loop adds between 0 and 100 to the score, so the ball loop of a frame
    adds at most 100 per ball of the shot list; and the score and the high
    score of a reachable state are multiples of 10. *)
Theorem score_gain_per_frame :
  (forall (b : Ball.t) (g : Game),
      score g <= score (snd (step_ball b g)) <= score g + 100) /\
  (forall g : Game,
      score g <= score (for_balls g)
      <= score g + 100 * Z.of_nat (length (balls_to_fire g))) /\
  (forall g : Game,
      reachable g -> score g mod 10 = 0 /\ high_score g mod 10 = 0).
Proof.
  split; [exact step_ball_score|]. split.
  - intros g. unfold for_balls.
    pose proof (update_balls_score (balls_to_fire g) g) as H.
    destruct (update_balls (balls_to_fire g) g) as [balls g']. exact H.
  - intros g Hr.
    destruct (session_ok_reachable g Hr) as (_ & _ & _ & _ & _ & Hs & _).
    exact Hs.
Qed.

Lemma score_gain_per_frame_witness :
  score (tick (mkFrame [KEYDOWN K_SPACE] [0] [1]) (initial [2])) mod 10 = 0.
Proof.
  destruct score_gain_per_frame as (_ & _ & H).
  apply (H _ reachable_after_space).
Defined.

(** ** [new_game] and the start of the script *)

(** X19.  A new game is a fresh start but for the high score: [new_game] leaves
    the state the script builds before its main loop, with the columns
    drawn for the first row, the high score kept and [running] as it was.
    So it forgets everything else of the state it is called in, and a
    second call with the same columns changes nothing. *)
Theorem new_game_is_a_fresh_start :
  forall (cols : list Z) (g : Game),
    new_game cols g =
    set_running (running g) (set_high_score (high_score g) (initial cols)) /\
    (forall g2 : Game,
        high_score g2 = high_score g -> running g2 = running g ->
        new_game cols g2 = new_game cols g) /\
    new_game cols (new_game cols g) = new_game cols g.
Proof.
  intros cols g. rewrite !new_game_eq, initial_eq. gsimpl.
  split; [reflexivity|]. split; [|reflexivity].
  intros g2 E1 E2. rewrite new_game_eq, E1, E2. reflexivity.
Qed.

Lemma new_game_is_a_fresh_start_witness :
  new_game [2] over_game = new_game [2] (new_game [2] over_game).
Proof.
  destruct (new_game_is_a_fresh_start [2] over_game) as (_ & H & _).
  symmetry. apply H; reflexivity.
Defined.

(** ** [remove_bottom_rows] *)



(** ** A frame while the game is over *)

Lemma events_when_over cols evs g :
  game_over g = true -> existsb is_space evs = false ->
  fold_left (handle_event cols) evs g =
  if existsb is_quit evs then set_running false g else g.
Proof.
  revert g. induction evs as [|e evs IH]; intros g Hgo Hsp; [reflexivity|].
  cbn [existsb fold_left] in *. apply orb_false_iff in Hsp as [He Hsp].
  assert (E : handle_event cols g e =
              if is_quit e then set_running false g else g).
  { unfold handle_event. destruct e as [|[| | |]|mx my|]; cbv zeta; gsimpl;
      rewrite Hgo; cbn [negb is_quit]; try reflexivity. discriminate He. }
  rewrite E. destruct (is_quit e); cbn [orb].
  - rewrite IH by assumption. destruct (existsb is_quit evs); reflexivity.
  - now apply IH.
Qed.

(** X21.  While the game is over, a frame without SPACE changes nothing but the
    frame counter, the flash timer and the fade: the arrow keys and the
    mouse are ignored, no ball moves and no brick is checked; QUIT clears
    [running] and does nothing else. *)
Theorem frame_while_game_over :
  forall (w : Frame) (g : Game),
    game_over g = true -> existsb is_space (events w) = false ->
    tick w g =
    tick_fade
      (let g := set_frame_count (frame_count g + 1) g in
       let g := if existsb is_quit (events w) then set_running false g
                else g in
       if 0 <? lives_flash_timer g
       then set_lives_flash_timer (lives_flash_timer g - 1) g else g).
Proof.
  intros w g Hgo Hsp. unfold tick, events_phase. cbv zeta.
  rewrite (events_when_over (new_game_cols w) (events w)
             (set_frame_count (frame_count g + 1) g) Hgo Hsp).
  assert (G : game_over
                (if existsb is_quit (events w)
                 then set_running false (set_frame_count (frame_count g + 1) g)
                 else set_frame_count (frame_count g + 1) g) = true)
    by (destruct (existsb is_quit (events w)); exact Hgo).
  rewrite G. reflexivity.
Qed.

Lemma frame_while_game_over_witness :
  base_x (tick (mkFrame [KEYDOWN K_LEFT; MOUSEMOTION 10 10; QUIT] [0] [0])
               over_game) = 210 /\
  running (tick (mkFrame [KEYDOWN K_LEFT; MOUSEMOTION 10 10; QUIT] [0] [0])
                over_game) = false.
Proof.
  rewrite (frame_while_game_over
             (mkFrame [KEYDOWN K_LEFT; MOUSEMOTION 10 10; QUIT] [0] [0])
             over_game eq_refl eq_refl).
  split; reflexivity.
Defined.

(** ** The cooldown counter *)




Lemma resolve_collision_cooldown b k c :
  resolve_collision (Ball.set_collision_cooldown c b) k =
  Ball.set_collision_cooldown c (resolve_collision b k).
Proof.
  destruct b as [x y a u v ac la de c0].
  unfold resolve_collision, push_out, reflect. cbn.
  destruct (Rect.collidepoint _ _ _).
  - case_ifs; cbn; destruct (normalize _ _); reflexivity.
  - destruct (Reqb _ 0); cbv beta iota; case_ifs; cbn;
      destruct (normalize _ _); reflexivity.
Qed.






(** ** The end of the game and the launch schedule *)

(** What the part of a frame after the ball loop leaves alone. *)
Lemma tick_round_fields w g :
  let g0 := events_phase w g in
  let g1 := if negb (game_over g0)
            then (if firing g0 then firing_block (next_turn_cols w) g0 else g0)
            else g0 in
  balls_to_fire (tick w g) = balls_to_fire g1 /\
  launch_start (tick w g) = launch_start g1 /\
  frame_count (tick w g) = frame_count g1 /\
  firing (tick w g) = firing g1.
Proof.
  cbv zeta. unfold tick. cbv zeta.
  set (g0 := events_phase w g).
  assert (K : forall g2 : Game,
             balls_to_fire (check_bricks_bottom g2) = balls_to_fire g2 /\
             launch_start (check_bricks_bottom g2) = launch_start g2 /\
             frame_count (check_bricks_bottom g2) = frame_count g2 /\
             firing (check_bricks_bottom g2) = firing g2).
  { intros g2. destruct (check_bricks_bottom_eq g2) as [E|E]; rewrite E;
      repeat split. }
  destruct (game_over g0); cbn [negb].
  - unfold tick_fade. case_ifs; repeat split.
  - unfold gameplay. cbv zeta.
    set (g1 := if firing g0 then _ else g0).
    destruct (K g1) as (K1 & K2 & K3 & K4).
    unfold tick_fade. case_ifs; gsimpl; repeat split; assumption.
Qed.

Lemma for_balls_rows g : rows_between 1 8 g -> rows_between 1 8 (for_balls g).
Proof.
  apply (for_balls_inv (rows_between 1 8)).
  - intros st H. apply loop_body_bricks_forall; [|exact H].
    intros k v Hk. exact Hk.
  - intros l g' H. exact H.
Qed.

Lemma handle_event_lives_ok cols g e :
  lives_ok g -> lives_ok (handle_event cols g e).
Proof.
  intros H. unfold lives_ok.
  destruct (handle_event_cases cols g e)
    as [(_ & _ & E)|(_ & _ & El & Eg & _)].
  - rewrite E, new_game_eq. cbn. lia.
  - rewrite El, Eg. exact H.
Qed.

Lemma handle_event_idle_when_over cols g e :
  idle_when_over g -> idle_when_over (handle_event cols g e).
Proof.
  unfold idle_when_over, handle_event. intros H.
  destruct e as [|[| | |]|mx my|]; cbv zeta; gsimpl;
    destruct (game_over g) eqn:Hgo; cbn [negb]; gsimpl;
    try (rewrite new_game_eq; gsimpl; discriminate);
    try (case_ifs; rewrite ?fire_balls_eq; gsimpl; rewrite ?Hgo;
         first [discriminate | exact H]).
Qed.

(** The invariants that the events of a frame keep. *)
Lemma events_phase_keeps w g :
  field_ok g -> lives_ok g -> session_ok g -> idle_when_over g ->
  field_ok (events_phase w g) /\ lives_ok (events_phase w g) /\
  session_ok (events_phase w g) /\ idle_when_over (events_phase w g).
Proof.
  intros H1 H2 H3 H4. unfold events_phase. cbv zeta.
  apply (events_preserve
           (fun g => field_ok g /\ lives_ok g /\ session_ok g /\
                     idle_when_over g) w).
  - intros g0 e (A & B & C & D). split; [|split; [|split]].
    + now apply handle_event_field.
    + now apply handle_event_lives_ok.
    + now apply handle_event_session.
    + now apply handle_event_idle_when_over.
  - split; [|split; [|split]]; assumption.
Qed.

(** A frame that leaves a shot under way loses no life and ends no game. *)
Lemma tick_shot_goes_on w g :
  let g0 := events_phase w g in
  field_ok g0 -> lives_ok g0 ->
  game_over g0 = false -> firing g0 = true ->
  all_returned (for_balls (launch_due g0)) = false ->
  game_over (tick w g) = false /\ lives (tick w g) = lives g0.
Proof.
  cbv zeta. set (g0 := events_phase w g). intros [Hr _] [_ Hl] Hgo Hf Hall.
  specialize (Hl Hgo).
  set (gb := for_balls (launch_due g0)) in *.
  assert (F : firing_block (next_turn_cols w) g0 = gb).
  { unfold firing_block. cbv zeta. fold gb. now rewrite Hall. }
  destruct (firing_block_keeps (next_turn_cols w) g0) as (Kl & Kg & _).
  rewrite F in Kl, Kg.
  assert (C : check_bricks_bottom gb = gb).
  { unfold check_bricks_bottom. apply check_bricks_loop_none.
    assert (R : rows_between 1 8 gb) by (apply for_balls_rows; exact Hr).
    eapply Forall_impl; [|exact R]. intros k Hk. cbv beta in Hk. lia. }
  unfold tick. cbv zeta. fold g0. rewrite Hgo. cbn [negb].
  unfold gameplay. cbv zeta. rewrite Hf, F, C, Kl.
  destruct (lives g0 <=? 0) eqn:E; [apply Z.leb_le in E; lia|].
  unfold tick_fade. case_ifs; gsimpl; split; congruence.
Qed.

Lemma idle_when_over_tick w g :
  field_ok g -> lives_ok g -> session_ok g -> idle_when_over g ->
  idle_when_over (tick w g).
Proof.
  intros H1 H2 H3 H4.
  destruct (events_phase_keeps w g H1 H2 H3 H4) as (F0 & L0 & S0 & I0).
  destruct (tick_round_fields w g) as (_ & _ & _ & Ef). cbv zeta in Ef.
  unfold idle_when_over. rewrite Ef. clear Ef.
  set (g0 := events_phase w g) in *.
  destruct (game_over g0) eqn:Hgo; cbn [negb]; [intros _; now apply I0|].
  destruct (firing g0) eqn:Hf; [|intros _; exact Hf].
  unfold firing_block. cbv zeta.
  destruct (all_returned (for_balls (launch_due g0))) eqn:Hall.
  - intros _. unfold finish_round. cbv zeta.
    now rewrite reset_for_next_turn_eq.
  - intros Hover.
    destruct (tick_shot_goes_on w g F0 L0 Hgo Hf Hall) as [E _].
    congruence.
Qed.

Lemma idle_when_over_reachable g : reachable g -> idle_when_over g.
Proof.
  intros Hr. induction Hr as [cols V|w g Hr IH Hrun V].
  - rewrite initial_eq. unfold idle_when_over. reflexivity.
  - apply idle_when_over_tick; [| | |exact IH].
    + now apply field_ok_reachable.
    + now apply lives_ok_reachable.
    + now apply session_ok_reachable.
Qed.


(** The turn of a ball in the ball loop changes neither its launch frame nor
    whether it is launched. *)
Lemma step_ball_launch b g :
  Ball.launched (fst (step_ball b g)) = Ball.launched b /\
  Ball.delay (fst (step_ball b g)) = Ball.delay b.
Proof.
  unfold step_ball. destruct (Ball.launched b && Ball.active b); cbn [fst];
    [|split; reflexivity].
  destruct (while_collisions_frame (mkLoop (Ball.update b) g true 0))
    as [_ (_ & El & Ed & _)].
  cbn [l_ball] in El, Ed. rewrite El, Ed.
  unfold Ball.update. cbv zeta. case_ifs; split; reflexivity.
Qed.

Lemma update_balls_launch todo g :
  Forall2 (fun b b' => Ball.launched b' = Ball.launched b /\
                       Ball.delay b' = Ball.delay b)
          todo (fst (update_balls todo g)).
Proof.
  revert g. induction todo as [|b todo IH]; intros g; cbn [update_balls];
    [constructor|].
  pose proof (step_ball_launch b g) as H.
  destruct (step_ball b g) as [b' g']. cbn [fst] in H.
  specialize (IH g'). destruct (update_balls todo g') as [rest g''].
  cbn [fst] in *. now constructor.
Qed.

Lemma for_balls_launch g :
  Forall2 (fun b b' => Ball.launched b' = Ball.launched b /\
                       Ball.delay b' = Ball.delay b)
          (balls_to_fire g) (balls_to_fire (for_balls g)).
Proof.
  unfold for_balls. pose proof (update_balls_launch (balls_to_fire g) g) as H.
  destruct (update_balls (balls_to_fire g) g) as [balls g']. exact H.
Qed.








Lemma Forall2_nth_error {A B : Type} (R : A -> B -> Prop) l l' i b' :
  Forall2 R l l' -> nth_error l' i = Some b' ->
  exists b, nth_error l i = Some b /\ R b b'.
Proof.
  intros F. revert i. induction F as [|a a' l l' Ha _ IH]; intros i H.
  - destruct i; discriminate H.
  - destruct i as [|i]; cbn in *.
    + injection H as <-. now exists a.
    + now apply IH.
Qed.

Lemma on_schedule_empty due g : balls_to_fire g = [] -> on_schedule due g.
Proof.
  intros E i b H. rewrite E in H. destruct i; discriminate H.
Qed.

(** [on_schedule] reads the ball list, [launch_start] and [frame_count]. *)
Lemma on_schedule_same due g g' :
  balls_to_fire g' = balls_to_fire g -> launch_start g' = launch_start g ->
  frame_count g' = frame_count g -> on_schedule due g -> on_schedule due g'.
Proof.
  intros E1 E2 E3 H i b Hb. rewrite E1 in Hb. rewrite E2, E3. now apply H.
Qed.

Lemma fire_balls_schedule g : on_schedule Z.ltb (fire_balls g).
Proof.
  rewrite fire_balls_eq. intros i b H. gsimpl_in H. gsimpl.
  rewrite nth_error_map in H.
  destruct (nth_error (seq 0 (Z.to_nat (base_ball_count g))) i) as [j|] eqn:E;
    [|discriminate H].
  cbn [option_map] in H. injection H as <-.
  assert (Hj : j = i).
  { assert (Hi : (i < length (seq 0 (Z.to_nat (base_ball_count g))))%nat)
      by (apply nth_error_Some; rewrite E; discriminate).
    rewrite (nth_error_nth' _ 0%nat Hi) in E. rewrite length_seq in Hi.
    rewrite seq_nth in E by exact Hi. now injection E. }
  subst j. unfold fired_ball. cbn [Ball.delay Ball.launched Ball.set_delay
                                     Ball.set_launched Ball.init].
  split; [reflexivity|]. symmetry. apply Z.ltb_ge. lia.
Qed.

Lemma handle_event_schedule cols g e :
  on_schedule Z.ltb g -> on_schedule Z.ltb (handle_event cols g e).
Proof.
  intros H. unfold handle_event.
  destruct e as [|[| | |]|mx my|]; cbv zeta; gsimpl;
    destruct (game_over g) eqn:Hgo; cbn [negb]; gsimpl;
    try (apply on_schedule_empty; now rewrite new_game_eq);
    try (case_ifs;
         first [apply fire_balls_schedule
               |apply (on_schedule_same Z.ltb g); [reflexivity ..|exact H]]).
Qed.

Lemma launch_due_schedule g :
  on_schedule Z.ltb g -> on_schedule Z.leb (launch_due g).
Proof.
  intros H i b' Hb'. unfold launch_due in *. gsimpl_in Hb'. gsimpl.
  rewrite nth_error_map in Hb'.
  destruct (nth_error (balls_to_fire g) i) as [b|] eqn:E; [|discriminate Hb'].
  cbn [option_map] in Hb'. injection Hb' as <-. destruct (H i b E) as [Hd Hl].
  destruct (Ball.launched b) eqn:L; cbn [negb andb].
  - split; [exact Hd|]. rewrite L. symmetry in Hl. apply Z.ltb_lt in Hl.
    symmetry. apply Z.leb_le. lia.
  - destruct (Ball.delay b <=? frame_count g) eqn:D.
    + split; [exact Hd|]. cbn [Ball.launched Ball.delay Ball.set_launched].
      now rewrite D.
    + split; [exact Hd|]. now rewrite L, D.
Qed.

Lemma for_balls_schedule g :
  on_schedule Z.leb g -> on_schedule Z.leb (for_balls g).
Proof.
  intros H i b' Hb'.
  destruct (Forall2_nth_error _ _ _ i b' (for_balls_launch g) Hb')
    as (b & Hb & El & Ed).
  destruct (H i b Hb) as [Hd Hl].
  rewrite for_balls_frame. gsimpl. rewrite El, Ed. split; assumption.
Qed.

Lemma on_schedule_tick w g :
  field_ok g -> lives_ok g -> session_ok g -> idle_when_over g ->
  on_schedule Z.leb g -> on_schedule Z.leb (tick w g).
Proof.
  intros H1 H2 H3 H4 H5.
  destruct (events_phase_keeps w g H1 H2 H3 H4) as (F0 & L0 & S0 & I0).
  assert (Q0 : on_schedule Z.ltb (events_phase w g)).
  { unfold events_phase. cbv zeta.
    apply (events_preserve (on_schedule Z.ltb) w).
    - intros g1 e. apply handle_event_schedule.
    - intros i b Hb. gsimpl_in Hb. gsimpl. destruct (H5 i b Hb) as [Hd Hl].
      split; [exact Hd|]. rewrite Hl.
      destruct (Ball.delay b <=? frame_count g) eqn:D;
        [apply Z.leb_le in D; symmetry; apply Z.ltb_lt; lia
        |apply Z.leb_gt in D; symmetry; apply Z.ltb_ge; lia]. }
  destruct (tick_round_fields w g) as (E1 & E2 & E3 & _). cbv zeta in E1, E2, E3.
  eapply on_schedule_same; [exact E1 | exact E2 | exact E3 |].
  set (g0 := events_phase w g) in *.
  assert (Idle : firing g0 = false -> on_schedule Z.leb g0).
  { intros Hf. apply on_schedule_empty.
    destruct S0 as (_ & _ & _ & _ & _ & _ & Hb). now rewrite Hf in Hb. }
  destruct (game_over g0) eqn:Hgo; cbn [negb]; [apply Idle; now apply I0|].
  destruct (firing g0) eqn:Hf; [|now apply Idle].
  unfold firing_block. cbv zeta.
  destruct (all_returned (for_balls (launch_due g0))).
  - apply on_schedule_empty. unfold finish_round. cbv zeta.
    now rewrite reset_for_next_turn_eq.
  - now apply for_balls_schedule, launch_due_schedule.
Qed.

Lemma on_schedule_reachable g : reachable g -> on_schedule Z.leb g.
Proof.
  intros Hr. induction Hr as [cols V|w g Hr IH Hrun V].
  - apply on_schedule_empty. now rewrite initial_eq.
  - apply on_schedule_tick; [| | | |exact IH].
    + now apply field_ok_reachable.
    + now apply lives_ok_reachable.
    + now apply session_ok_reachable.
    + now apply idle_when_over_reachable.
Qed.

(** X24.  The balls of a shot are launched one every five frames, in the order of
    the list, the first in the frame of the SPACE that fires: between
    frames, ball number [i] of the list has
    [delay = launch_start + 5 i], and it is launched exactly when the frame
    counter has reached its [delay]. *)
Theorem balls_launch_every_five_frames :
  forall (g : Game) (i : nat) (b : Ball.t),
    reachable g ->
    nth_error (balls_to_fire g) i = Some b ->
    Ball.delay b = launch_start g + 5 * Z.of_nat i /\
    (Ball.launched b = true <-> Ball.delay b <= frame_count g).
Proof.
  intros g i b Hr Hb.
  destruct (on_schedule_reachable g Hr i b Hb) as [Hd Hl].
  split; [lia|]. rewrite Hl. apply Z.leb_le.
Qed.

Lemma balls_launch_every_five_frames_witness :
  match nth_error
          (balls_to_fire
             (tick (mkFrame [KEYDOWN K_SPACE] [0] [1]) (initial [2]))) 1
  with
  | Some b =>
      Ball.delay b =
      launch_start (tick (mkFrame [KEYDOWN K_SPACE] [0] [1]) (initial [2])) + 5
  | None => True
  end.
Proof.
  destruct (nth_error
              (balls_to_fire
                 (tick (mkFrame [KEYDOWN K_SPACE] [0] [1]) (initial [2]))) 1)
    as [b|] eqn:E; [|exact I].
  apply (balls_launch_every_five_frames _ 1 b reachable_after_space E).
Defined.

(** ** One pass of the collision loop *)

(** X25.  A pass of the collision loop hits at most one brick, the first of the
    list that the ball overlaps: that brick loses one hit point and leaves
    the list when none is left, every other brick stays as it is and where
    it is, the score goes up by 10 and the high score follows it when it is
    passed, and the ball is given a cooldown of 10 and resolved against the
    brick.  When the ball overlaps no brick the pass changes nothing and
    clears [collision_found]. *)
Theorem collision_pass_hits_first_overlap :
  forall st : Loop,
    (Forall (fun k => ball_colliding_brick (l_ball st) k = false)
            (bricks (l_game st)) ->
     loop_body st =
     mkLoop (l_ball st) (l_game st) false (iterations st + 1)) /\
    (forall (pre post : list Brick.t) (k : Brick.t),
        bricks (l_game st) = pre ++ k :: post ->
        Forall (fun k' => ball_colliding_brick (l_ball st) k' = false) pre ->
        ball_colliding_brick (l_ball st) k = true ->
        let hit := Brick.set_value (Brick.value k - 1) k in
        bricks (l_game (loop_body st)) =
          pre ++ (if Brick.value k - 1 <=? 0 then [] else [hit]) ++ post /\
        score (l_game (loop_body st)) = score (l_game st) + 10 /\
        high_score (l_game (loop_body st)) =
          Z.max (high_score (l_game st)) (score (l_game st) + 10) /\
        l_ball (loop_body st) =
          resolve_collision (Ball.set_collision_cooldown 10 (l_ball st)) hit /\
        collision_found (loop_body st) = true /\
        iterations (loop_body st) = iterations st + 1).
Proof.
  intros st. split; [apply loop_body_miss|].
  intros pre post k E Hpre Hk. cbv zeta.
  assert (H : hit_first (l_ball st) (bricks (l_game st)) =
              Some (Brick.set_value (Brick.value k - 1) k,
                    pre ++ (if Brick.value k - 1 <=? 0 then []
                            else [Brick.set_value (Brick.value k - 1) k])
                        ++ post)).
  { rewrite E. clear E. induction Hpre as [|k0 pre Hk0 _ IH]; cbn [app hit_first].
    - rewrite Hk. cbn [Brick.value Brick.set_value].
      destruct (Brick.value k - 1 <=? 0); reflexivity.
    - rewrite Hk0, IH. reflexivity. }
  rewrite (loop_body_hit st _ _ H). cbv zeta. gsimpl.
  destruct (high_score (l_game st) <? score (l_game st) + 10) eqn:C;
    gsimpl; [apply Z.ltb_lt in C | apply Z.ltb_ge in C];
    repeat split; lia.
Qed.

Lemma collision_pass_hits_first_overlap_witness :
  bricks (l_game (loop_body
                    (mkLoop (Ball.init 130 75 (PI / 2))
                            (initial [2; 3]) true 0))) =
  [Brick.init 3 1 1].
Proof.
  destruct (collision_pass_hits_first_overlap
              (mkLoop (Ball.init 130 75 (PI / 2)) (initial [2; 3]) true 0))
    as [_ H].
  destruct (H [] [Brick.init 3 1 1] (Brick.init 2 1 1)) as (E & _).
  - reflexivity.
  - constructor.
  - apply colliding_within;
      destruct (rect_edges (Brick.init 2 1 1)) as (A & B & C & D);
      rewrite ?A, ?B, ?C, ?D; cbn; lra.
  - exact E.
Defined.

(** ** [check_bricks_bottom] and [running] *)

(** X26.  A second check right after a check finds nothing: the sweep of a breach
    leaves no brick below row 6, so one breach costs one life however often
    the grid is checked before it moves again. *)
Theorem check_bricks_bottom_once :
  forall g : Game,
    check_bricks_bottom (check_bricks_bottom g) = check_bricks_bottom g /\
    Forall (fun k => Brick.row k < MAX_ROWS - 1)
           (bricks (check_bricks_bottom g)).
Proof.
  intros g.
  assert (R : Forall (fun k => Brick.row k < 9) (bricks (check_bricks_bottom g))).
  { destruct (check_bricks_bottom_cases g) as [[Hall E]|[_ E]]; rewrite E;
      [exact Hall|].
    rewrite remove_bottom_rows_eq. gsimpl.
    apply Forall_forall. intros k Hk. apply filter_In in Hk as [_ Hk].
    apply Z.ltb_lt in Hk. change (MAX_ROWS - 3) with 7 in Hk. lia. }
  split; [|exact R].
  unfold check_bricks_bottom at 1. now apply check_bricks_loop_none.
Qed.

Lemma handle_event_running cols g e :
  running (handle_event cols g e) = running g && negb (is_quit e).
Proof.
  unfold handle_event.
  destruct e as [|[| | |]|mx my|]; cbv zeta; gsimpl;
    destruct (game_over g); cbn [negb is_quit]; gsimpl;
    rewrite ?new_game_eq; case_ifs; rewrite ?fire_balls_eq; gsimpl;
    destruct (running g); reflexivity.
Qed.

(** X27.  [running] is cleared by a QUIT event and by nothing else, and nothing
    sets it again: after a frame it is true exactly when it was true before
    and no QUIT was among the events of the frame. *)
Theorem quit_clears_running :
  forall (w : Frame) (g : Game),
    running (tick w g) = running g && negb (existsb is_quit (events w)).
Proof.
  intros w g.
  assert (E : running (events_phase w g) =
              running g && negb (existsb is_quit (events w))).
  { unfold events_phase. cbv zeta.
    change (running g) with (running (set_frame_count (frame_count g + 1) g)).
    generalize (set_frame_count (frame_count g + 1) g).
    induction (events w) as [|e evs IH]; intros g0; cbn [fold_left existsb].
    - now rewrite andb_true_r.
    - rewrite IH, handle_event_running.
      destruct (running g0), (is_quit e), (existsb is_quit evs); reflexivity. }
  rewrite <- E. unfold tick. cbv zeta.
  set (g0 := events_phase w g).
  assert (K : running (if negb (game_over g0)
                       then gameplay (next_turn_cols w) g0 else g0) =
              running g0).
  { destruct (game_over g0); cbn [negb]; [reflexivity|].
    unfold gameplay. cbv zeta.
    set (g1 := if firing g0 then _ else g0).
    assert (K1 : running g1 = running g0).
    { subst g1. destruct (firing g0); [|reflexivity].
      apply firing_block_keeps. }
    assert (K2 : running (check_bricks_bottom g1) = running g1).
    { destruct (check_bricks_bottom_eq g1) as [E2|E2]; rewrite E2; reflexivity. }
    case_ifs; gsimpl; congruence. }
  unfold tick_fade. case_ifs; gsimpl; exact K.
Qed.
